(** * pycortex, [cortex/polyutils.py]: triangulated-surface utilities

    A shallow embedding of [Surface], [Distortion], [face_area] and
    [trace_poly], and the properties of them that the specification states.

    Numbers.  The program computes on NumPy [float64] arrays.  They are
    modelled by [fl]: a real number or one of the IEEE special values
    [+inf], [-inf], [nan].  Finite results are exact (no rounding, no
    overflow) and the two zeros are identified; every divisor in this file is
    a square root, a count or a positive literal, so a negative zero never
    reaches a division.  The special values follow IEEE 754, which is what
    [np.nan_to_num] and the [== 0] tests of the program react to.
    Whether the adjacency matrix of [laplace_operator] is symmetric is the
    one property here that rounding decides; it is stated over binary64
    itself, in the module [B64].

    Exceptions.  A Python exception is a [Raise e] result; [res] is the
    error monad the embedded functions run in.

    Memoisation.  [_memo] caches a property of an object whose [pts] and
    [polys] are never reassigned; memoised properties are modelled as the
    functions of [pts] and [polys] they cache. *)

From Stdlib Require Import Reals Lra Lia QArith SpecFloat.
From stdpp Require Import base option list gmap sets sorting.

(** ** Exceptions and the error monad *)

Inductive exn : Type :=
| ValueError
| IndexError
| KeyError
| RuntimeError
| PlainException.

Inductive res (A : Type) : Type :=
| Ok (a : A)
| Raise (e : exn).
Arguments Ok {A} a.
Arguments Raise {A} e.

#[global] Instance res_ret : MRet res := @Ok.
#[global] Instance res_bind : MBind res :=
  λ A B f m, match m with Ok a => f a | Raise e => Raise e end.
#[global] Instance res_fmap : FMap res :=
  λ A B f m, match m with Ok a => Ok (f a) | Raise e => Raise e end.

(** [l[i]] on a sequence: [IndexError] out of range. *)
Definition getitem {A} (l : list A) (i : nat) : res A :=
  match l !! i with
  | Some x => Ok x
  | None => Raise IndexError
  end.

Fixpoint traverse {A B} (f : A → res B) (l : list A) : res (list B) :=
  match l with
  | [] => Ok []
  | x :: l' => y ← f x; ys ← traverse f l'; Ok (y :: ys)
  end.

(** ** Floating-point values *)

Module F.

Inductive fl : Type :=
| Fin (r : R)
| PInf
| NInf
| NaN.

Definition zero : fl := Fin 0.
Definition one : fl := Fin 1.

Definition of_nat (n : nat) : fl := Fin (INR n).

Definition neg (x : fl) : fl :=
  match x with
  | Fin r => Fin (- r)
  | PInf => NInf
  | NInf => PInf
  | NaN => NaN
  end.

Definition add (x y : fl) : fl :=
  match x, y with
  | NaN, _ | _, NaN => NaN
  | PInf, NInf | NInf, PInf => NaN
  | PInf, _ | _, PInf => PInf
  | NInf, _ | _, NInf => NInf
  | Fin a, Fin b => Fin (a + b)
  end.

Definition sub (x y : fl) : fl := add x (neg y).

(** An infinity [i] scaled by the finite factor [r]: the sign of [r]
    decides, and [inf * 0] is [nan]. *)
Definition inf_times (i : fl) (r : R) : fl :=
  if Rlt_dec 0 r then i else if Rlt_dec r 0 then neg i else NaN.

Definition mul (x y : fl) : fl :=
  match x, y with
  | NaN, _ | _, NaN => NaN
  | Fin a, Fin b => Fin (a * b)
  | Fin a, i | i, Fin a => inf_times i a
  | PInf, PInf | NInf, NInf => PInf
  | PInf, NInf | NInf, PInf => NInf
  end.

(** [x / y].  A finite value over zero is an infinity of its sign, and
    [0 / 0] is [nan]; an infinity over a finite value keeps or flips its sign
    (zero counts as positive). *)
Definition div (x y : fl) : fl :=
  match x, y with
  | NaN, _ | _, NaN => NaN
  | Fin a, Fin b =>
      if Req_dec_T b 0 then inf_times PInf a else Fin (a / b)
  | Fin _, _ => Fin 0
  | i, Fin b => if Rlt_dec b 0 then neg i else i
  | _, _ => NaN
  end.

Definition sqrt (x : fl) : fl :=
  match x with
  | Fin r => if Rlt_dec r 0 then NaN else Fin (R_sqrt.sqrt r)
  | PInf => PInf
  | NInf | NaN => NaN
  end.

Definition log2 (x : fl) : fl :=
  match x with
  | Fin r =>
      if Rlt_dec r 0 then NaN
      else if Req_dec_T r 0 then NInf
      else Fin (ln r / ln 2)
  | PInf => PInf
  | NInf | NaN => NaN
  end.

Definition exp (x : fl) : fl :=
  match x with
  | Fin r => Fin (Rtrigo_def.exp r)
  | PInf => PInf
  | NInf => Fin 0
  | NaN => NaN
  end.

(** [x ** 2] *)
Definition sq (x : fl) : fl := mul x x.

(** [x == y]: false as soon as one side is [nan]. *)
Definition eqb (x y : fl) : bool :=
  match x, y with
  | Fin a, Fin b => if Req_dec_T a b then true else false
  | PInf, PInf | NInf, NInf => true
  | _, _ => false
  end.

(** [x < y] *)
Definition ltb (x y : fl) : bool :=
  match x, y with
  | NaN, _ | _, NaN => false
  | Fin a, Fin b => if Rlt_dec a b then true else false
  | PInf, _ | _, NInf => false
  | NInf, _ | Fin _, PInf => true
  end.

(** The largest finite [float64], [(2 - 2^-52) * 2^1023]. *)
Definition max_float : R := ((2 - / 2 ^ 52) * 2 ^ 1023)%R.

(** [np.nan_to_num] *)
Definition nan_to_num (x : fl) : fl :=
  match x with
  | Fin r => Fin r
  | PInf => Fin max_float
  | NInf => Fin (- max_float)
  | NaN => Fin 0
  end.

(** [ndarray.sum()] *)
Definition sum (l : list fl) : fl := foldr add zero l.

(** [ndarray.mean()]: the mean of an empty array is [0 / 0]. *)
Definition mean (l : list fl) : fl := div (sum l) (of_nat (length l)).

(** The smaller of two values as [ndarray.min()] combines them:
    a [nan] on either side wins. *)
Definition min2 (x y : fl) : fl :=
  match x, y with
  | NaN, _ | _, NaN => NaN
  | _, _ => if ltb y x then y else x
  end.

(** [ndarray.min()]: [ValueError] on an empty array. *)
Definition min (l : list fl) : res fl :=
  match l with
  | [] => Raise ValueError
  | x :: l' => Ok (foldl min2 x l')
  end.

End F.

Export F (fl, Fin, PInf, NInf, NaN).

(** ** Points and triangles *)

Definition vec3 : Type := fl * fl * fl.
Definition tri3 : Type := vec3 * vec3 * vec3.

Definition vsub (a b : vec3) : vec3 :=
  let '(ax, ay, az) := a in
  let '(bx, by_, bz) := b in
  (F.sub ax bx, F.sub ay by_, F.sub az bz).

(** [np.cross(a, b)] *)
Definition cross (a b : vec3) : vec3 :=
  let '(ax, ay, az) := a in
  let '(bx, by_, bz) := b in
  (F.sub (F.mul ay bz) (F.mul az by_),
   F.sub (F.mul az bx) (F.mul ax bz),
   F.sub (F.mul ax by_) (F.mul ay bx)).

(** [(a * b).sum(-1)] *)
Definition dot (a b : vec3) : fl :=
  let '(ax, ay, az) := a in
  let '(bx, by_, bz) := b in
  F.add (F.add (F.mul ax bx) (F.mul ay by_)) (F.mul az bz).

(** [(a ** 2).sum(-1)] *)
Definition sumsq (a : vec3) : fl :=
  let '(ax, ay, az) := a in
  F.add (F.add (F.sq ax) (F.sq ay)) (F.sq az).

(** [np.sqrt((a ** 2).sum(-1))] *)
Definition magnitude (a : vec3) : fl := F.sqrt (sumsq a).

Definition face : Type := nat * nat * nat.

Definition face_verts (p : face) : list nat :=
  let '(a, b, c) := p in [a; b; c].

(** [pts[polys]]: the three points of every face. *)
Definition take_faces (pts : list vec3) (polys : list face) : res (list tri3) :=
  traverse (λ p : face,
      let '(a, b, c) := p in
      pa ← getitem pts a;
      pb ← getitem pts b;
      pc ← getitem pts c;
      Ok (pa, pb, pc))
    polys.

(** ** [class Surface] *)

Record Surface : Type := mkSurface {
  pts : list vec3;
  polys : list face;
}.

(** A sparse matrix seen through its entries: [M i j] is the sum of what is
    stored at [(i, j)], zero where nothing is. *)
Definition matrix : Type := nat → nat → fl.

(** [sparse.coo_matrix((data, (row, col)))]: entries at one position add up. *)
Abbreviation coo := (list (nat * nat * fl)).

Definition coo_get (M : coo) : matrix :=
  λ i j, F.sum (map snd (filter (λ e, e.1 = (i, j)) M)).

(** [M.T] *)
Definition coo_T (M : coo) : coo := map (λ e, (e.1.2, e.1.1, e.2)) M.

(** Every vertex id of a face is a valid index into [pts]. *)
Definition face_in_range (npt : nat) (p : face) : Prop :=
  Forall (λ v, v < npt) (face_verts p).

Definition well_formed (self : Surface) : Prop :=
  Forall (face_in_range (length (pts self))) (polys self).

#[global] Instance face_in_range_dec npt p : Decision (face_in_range npt p).
Proof. unfold face_in_range. apply _. Defined.

#[global] Instance well_formed_dec self : Decision (well_formed self).
Proof. unfold well_formed. apply _. Defined.

Section surface.
Context (self : Surface).

(** [Surface.ppts]: [self.pts[self.polys]] *)
Definition ppts : res (list tri3) := take_faces (pts self) (polys self).

(** How many of the three corners of face [p] are vertex [v]. *)
Definition incidence (v : nat) (p : face) : nat :=
  length (filter (λ w, w = v) (face_verts p)).

(** One row of the vertex-by-face matrix in CSR form: the faces that hold
    the vertex, ascending, each with the sum of its unit entries. *)
Definition connected_row (v : nat) : list (nat * nat) :=
  filter (λ e, 0 < e.2) (imap (λ f p, (f, incidence v p)) (polys self)).

(** [Surface.connected]: [coo_matrix] refuses a row index beyond its shape
    with [ValueError]. *)
Definition connected : res (list (list (nat * nat))) :=
  if decide (well_formed self)
  then Ok (map connected_row (seq 0 (length (pts self))))
  else Raise ValueError.

(** [self.connected[v].indices] *)
Definition indices (row : list (nat * nat)) : list nat := map fst row.

(** [self.connected.dot(x)], one row of it *)
Definition row_dot (x : list fl) (row : list (nat * nat)) : fl :=
  F.sum (map (λ e, F.mul (F.of_nat e.2) (default F.zero (x !! e.1))) row).

(** [Surface.face_normals] *)
Definition face_normals : res (list vec3) :=
  pp ← ppts;
  Ok (map (λ t : tri3, let '(p0, p1, p2) := t in
                       cross (vsub p1 p0) (vsub p2 p0)) pp).

(** [Surface.face_areas] *)
Definition face_areas : res (list fl) :=
  ns ← face_normals;
  Ok (map magnitude ns).

(** The cotangent at the corner [o] between the edges to [a] and [b]. *)
Definition cot_at (o a b : vec3) : fl :=
  F.div (dot (vsub a o) (vsub b o))
        (F.sqrt (sumsq (cross (vsub a o) (vsub b o)))).

(** [Surface.cotangent_weights] *)
Definition cotangent_weights : res (list fl * list fl * list fl) :=
  pp ← ppts;
  Ok (map (λ t : tri3, let '(p0, p1, p2) := t in cot_at p0 p1 p2) pp,
      map (λ t : tri3, let '(p0, p1, p2) := t in cot_at p1 p2 p0) pp,
      map (λ t : tri3, let '(p0, p1, p2) := t in cot_at p2 p0 p1) pp).

(** [coo_matrix((cots, (polys[:,a], polys[:,b])))] *)
Definition scatter (cots : list fl) (sel : face → nat * nat) : coo :=
  zip_with (λ p c, (sel p, c)) (polys self) cots.

(** The weighted adjacency matrix
    [(W1 + W1.T + W2 + W2.T + W3 + W3.T).tocsr() / 2.0] *)
Definition adjacency (cots1 cots2 cots3 : list fl) : matrix :=
  let W1 := scatter cots1 (λ p, (p.1.2, p.2)) in
  let W2 := scatter cots2 (λ p, (p.2, p.1.1)) in
  let W3 := scatter cots3 (λ p, (p.1.1, p.1.2)) in
  λ i j,
    F.div
      (F.add (F.add (F.add (F.add (F.add (coo_get W1 i j)
                                         (coo_get (coo_T W1) i j))
                                  (coo_get W2 i j))
                           (coo_get (coo_T W2) i j))
                    (coo_get W3 i j))
             (coo_get (coo_T W3) i j))
      (Fin 2).

(** [M.sum(0)]: the sum of each column. *)
Definition col_sums (n : nat) (M : matrix) : list fl :=
  map (λ j, F.sum (map (λ i, M i j) (seq 0 n))) (seq 0 n).

(** [Surface.laplace_operator]: the lumped mass [D], the weighted adjacency
    [W], and the diagonal [V] of the column sums of [W]. *)
Definition laplace_operator : res (list fl * matrix * list fl) :=
  conn ← connected;
  areas ← face_areas;
  let D := map (λ row, F.div (row_dot areas row) (Fin 3)) conn in
  let npt := length (pts self) in
  '(cots1, cots2, cots3) ← cotangent_weights;
  let W := adjacency cots1 cots2 cots3 in
  let V := col_sums npt W in
  Ok (D, W, V).

End surface.


(** ** [Surface.avg_edge_length] and [Surface.geodesic_distance] *)

Abbreviation vector := (list fl).

(** A matrix written out row by row, as the solver receives it. *)
Abbreviation dense := (list (list fl)).

(** What [factorized(A)] returns: the function [b ↦ x] solving [A x = b].
    Of the solver only the shape of its answer is known here: [x] is as long
    as [b]. *)
Record handle : Type := mkHandle {
  solve : vector → vector;
  solve_shape : ∀ b, length (solve b) = length b;
}.

(** The two caches of a [Surface], [_rlfac_solvers] and [_nLC_solvers]:
    Python dictionaries keyed by [m], newest entry first. *)
Record solver_cache : Type := mkCache {
  rlfac_solvers : list (R * handle);
  nLC_solvers : list (R * handle);
}.

(** The caches of a freshly constructed [Surface]. *)
Definition empty_cache : solver_cache := mkCache [] [].

(** [d[m]] for [m in d] *)
Fixpoint cache_get (d : list (R * handle)) (m : R) : option handle :=
  match d with
  | [] => None
  | (k, h) :: d' => if Req_dec_T m k then Some h else cache_get d' m
  end.

(** An entry is stored in a sparse result exactly when it is not [== 0]. *)
Definition stored (x : fl) : bool := negb (F.eqb x F.zero).

(** [c * M] for a scalar [c] and a sparse [M]: only stored entries are
    multiplied. *)
Definition scale (c : fl) (M : matrix) : matrix :=
  λ i j, if stored (M i j) then F.mul c (M i j) else F.zero.

(** [sparse.dia_matrix((d, [0]))] *)
Definition diag (d : vector) : matrix :=
  λ i j, if decide (i = j) then default F.zero (d !! i) else F.zero.

Definition msub (A B : matrix) : matrix := λ i j, F.sub (A i j) (B i j).

(** [M[rows][:, rows]] *)
Definition submatrix (M : matrix) (rows : list nat) : dense :=
  map (λ i, map (λ j, M i j) rows) rows.

(** [x[rows]] *)
Definition take_rows (x : vector) (rows : list nat) : vector :=
  map (λ i, default F.zero (x !! i)) rows.

(** [x[rows] = vals] on [x = np.zeros(n)], [rows] ascending and in range:
    a single value is broadcast, any other length mismatch is a
    [ValueError]. *)
Definition put_rows (n : nat) (rows : list nat) (vals : vector) : res vector :=
  if decide (length vals = length rows) then
    Ok (foldr (λ iv x, <[iv.1 := iv.2]> x) (replicate n F.zero) (zip rows vals))
  else match vals with
       | [v] => Ok (foldr (λ i x, <[i := v]> x) (replicate n F.zero) rows)
       | _ => Raise ValueError
       end.

(** [u0 = np.zeros(n); u0[verts] = 1.0] *)
Definition indicator (n : nat) (verts : list nat) : res vector :=
  if decide (Forall (λ v, v < n) verts) then
    Ok (foldr (λ v x, <[v := F.one]> x) (replicate n F.zero) verts)
  else Raise IndexError.

Definition vscale (c : fl) (a : vec3) : vec3 :=
  let '(ax, ay, az) := a in (F.mul ax c, F.mul ay c, F.mul az c).

Definition vadd (a b : vec3) : vec3 :=
  let '(ax, ay, az) := a in
  let '(bx, by_, bz) := b in
  (F.add ax bx, F.add ay by_, F.add az bz).

Definition vdiv (a : vec3) (c : fl) : vec3 :=
  let '(ax, ay, az) := a in (F.div ax c, F.div ay c, F.div az c).

Definition vneg (a : vec3) : vec3 :=
  let '(ax, ay, az) := a in (F.neg ax, F.neg ay, F.neg az).

(** The gradient of [u] on one face. *)
Definition grad_face (t : tri3) (fnorm : vec3) (area : fl) (pu : fl * fl * fl) : vec3 :=
  let '(p0, p1, p2) := t in
  let '(u0, u1, u2) := pu in
  let e12 := vsub p1 p0 in
  let e23 := vsub p2 p1 in
  let e31 := vsub p0 p2 in
  vdiv (vadd (vadd (vscale u2 (cross fnorm e12)) (vscale u0 (cross fnorm e23)))
             (vscale u1 (cross fnorm e31)))
       (F.mul (Fin 2) area).

(** [X = (-gradu.T / np.sqrt((gradu**2).sum(1))).T], one row of it *)
Definition unit_field (g : vec3) : vec3 := vdiv (vneg g) (F.sqrt (sumsq g)).

Definition half_sum (c1 d1 c2 d2 : fl) : fl :=
  F.mul (Fin (1 / 2)) (F.add (F.mul c1 d1) (F.mul c2 d2)).

(** The three corner contributions [x1], [x2], [x3] of one face to the
    integrated divergence of [X]. *)
Definition div_face (t : tri3) (c1 c2 c3 : fl) (X : vec3) : fl * fl * fl :=
  let '(p0, p1, p2) := t in
  (half_sum c3 (dot (vsub p1 p0) X) c2 (dot (vsub p2 p0) X),
   half_sum c1 (dot (vsub p2 p1) X) c3 (dot (vsub p0 p1) X),
   half_sum c2 (dot (vsub p0 p2) X) c1 (dot (vsub p1 p2) X)).

Section geodesic.
Context (self : Surface).

(** The external sparse LU, [scipy.sparse.linalg.dsolve.factorized]:
    given the matrix it returns the solving function or raises. *)
Context (factorized : dense → res handle).

(** [Surface.avg_edge_length]: the mean length of the edges stored above the
    diagonal of [W]. *)
Definition avg_edge_length : res fl :=
  '(_, adj, _) ← laplace_operator self;
  let n := length (pts self) in
  let tadj := filter (λ e, e.1 < e.2 ∧ stored (adj e.1 e.2) = true)
                     (i ← seq 0 n; j ← seq 0 n; [(i, j)]) in
  edgelens ← traverse (λ e, a ← getitem (pts self) e.1;
                           b ← getitem (pts self) e.2;
                           Ok (magnitude (vsub a b))) tadj;
  Ok (F.mean edgelens).

(** [nLC = W - V], the negative Laplace matrix *)
Definition neg_laplace (W : matrix) (V : vector) : matrix := msub W (diag V).

(** [lfac = spD - t * nLC], the backward Euler matrix *)
Definition backward_euler (D : vector) (t : fl) (nLC : matrix) : matrix :=
  msub (diag D) (scale t nLC).

(** [np.nonzero(~np.array(lfac.sum(0) == 0).ravel())[0]] *)
Definition good_rows (n : nat) (lfac : matrix) : list nat :=
  filter (λ j, F.eqb (default F.zero (col_sums n lfac !! j)) F.zero = false) (seq 0 n).

(** The integrated divergence, scattered to the vertices:
    [divx[v]] adds [x1] of the faces whose first corner is [v], [x2] of
    those whose second is, [x3] of those whose third is. *)
Definition divergence (n : nat) (xs : list (fl * fl * fl)) : vector :=
  map (λ v,
      F.add (F.add (coo_get (zip_with (λ p x, ((0, p.1.1), x.1.1)) (polys self) xs) 0 v)
                   (coo_get (zip_with (λ p x, ((0, p.1.2), x.1.2)) (polys self) xs) 0 v))
            (coo_get (zip_with (λ p x, ((0, p.2), x.2)) (polys self) xs) 0 v))
    (seq 0 n).

(** The part of [geodesic_distance] before the caches are touched. *)
Definition heat_system (m : R) : res (matrix * matrix * list nat) :=
  '(D, W, V) ← laplace_operator self;
  let npt := length (pts self) in
  let nLC := neg_laplace W V in
  avg ← avg_edge_length;
  let t := F.mul (Fin m) (F.sq avg) in
  let lfac := backward_euler D t nLC in
  Ok (lfac, nLC, good_rows npt lfac).

(** The part of [geodesic_distance] after the two handles are at hand. *)
Definition heat_solve (goodrows : list nat) (rlfac nlc : handle) (verts : list nat)
  : res vector :=
  let npt := length (pts self) in
  u0 ← indicator npt verts;
  let goodu := solve rlfac (take_rows u0 goodrows) in
  u ← put_rows npt goodrows goodu;
  pp ← ppts self;
  fnorms ← face_normals self;
  areas ← face_areas self;
  pu ← traverse (λ p : face, let '(a, b, c) := p in
                   ua ← getitem u a; ub ← getitem u b; uc ← getitem u c;
                   Ok (ua, ub, uc)) (polys self);
  let gradu := zip_with (λ tn au, grad_face tn.1 tn.2 au.1 au.2)
                        (zip pp fnorms) (zip areas pu) in
  let X := map unit_field gradu in
  '(cots1, cots2, cots3) ← cotangent_weights self;
  let xs := zip_with (λ tc x, div_face tc.1 tc.2.1.1 tc.2.1.2 tc.2.2 x)
                     (zip pp (zip (zip cots1 cots2) cots3)) X in
  let divx := divergence npt xs in
  if decide (npt = 1) then Raise IndexError
  else
    let goodphi := solve nlc (take_rows divx goodrows) in
    lo ← F.min goodphi;
    put_rows npt goodrows (map (λ x, F.sub x lo) goodphi).

(** [Surface.geodesic_distance(verts, m)]: the distances, or the exception,
    and the caches as the call leaves them. *)
Definition geodesic_distance (c : solver_cache) (verts : list nat) (m : R)
  : res vector * solver_cache :=
  match heat_system m with
  | Raise e => (Raise e, c)
  | Ok (lfac, nLC, goodrows) =>
    let r1 :=
      match cache_get (rlfac_solvers c) m with
      | Some _ => Ok (rlfac_solvers c)
      | None => h ← factorized (submatrix lfac goodrows);
                Ok ((m, h) :: rlfac_solvers c)
      end in
    match r1 with
    | Raise e => (Raise e, c)
    | Ok d1 =>
      let r2 :=
        match cache_get (nLC_solvers c) m with
        | Some _ => Ok (nLC_solvers c)
        | None => h ← factorized (submatrix nLC goodrows);
                  Ok ((m, h) :: nLC_solvers c)
        end in
      match r2 with
      | Raise e => (Raise e, mkCache d1 (nLC_solvers c))
      | Ok d2 =>
        let c' := mkCache d1 d2 in
        match cache_get d1 m, cache_get d2 m with
        | Some rlfac, Some nlc => (heat_solve goodrows rlfac nlc verts, c')
        | _, _ => (Raise KeyError, c')
        end
      end
    end
  end.

End geodesic.

(** ** Python sets

    The order in which a [set] is iterated, and the element [set.pop()]
    removes, are not specified by Python.  The embedded functions take them
    from two oracles; the theorems assume of them only what Python promises
    ([set_order_spec], [set_pop_spec]). *)

Definition set_order_spec (set_iter : gset nat → list nat) : Prop :=
  ∀ X, set_iter X ≡ₚ elements X.

Definition set_pop_spec (set_pop : gset nat → nat) : Prop :=
  ∀ X, X ≠ ∅ → set_pop X ∈ X.

(** ** [Surface.extract_chunk] *)

(** The state of the renumbering loop: [ptmap], [pts], [aux], [polys]. *)
Record chunk : Type := mkChunk {
  ptmap : gmap nat nat;
  new_pts : list vec3;
  new_aux : list vec3;
  new_polys : list (list nat);
}.

Section extract_chunk.
Context (self : Surface) (set_iter : gset nat → list nat).

(** [for pt in self.polys[face]: if pt not in visited: ...] *)
Definition visit_pts (face : nat) (st : list nat * gset nat) : list nat * gset nat :=
  foldl (λ (st : list nat * gset nat) pt,
           if decide (pt ∈ st.2) then st
           else (st.1 ++ [pt], {[pt]} ∪ st.2))
        st
        (default [] (face_verts <$> polys self !! face)).

(** [for face in self.connected[node].indices: if face not in faces: ...] *)
Definition visit_faces (row : list nat) (st : list nat * gset nat * gset nat)
  : list nat * gset nat * gset nat :=
  foldl (λ (st : list nat * gset nat * gset nat) face,
           let '(queue, faces, visited) := st in
           if decide (face ∈ faces) then st
           else let '(queue', visited') := visit_pts face (queue, visited) in
                (queue', {[face]} ∪ faces, visited'))
        st row.

(** The [while] loop; [None] when [fuel] iterations were not enough. *)
Fixpoint bfs (fuel nfaces : nat) (queue : list nat) (faces visited : gset nat)
  : option (res (gset nat)) :=
  match fuel with
  | 0 => None
  | S fuel' =>
    if decide (size faces < nfaces) then
      match queue with
      | [] => Some (Ok faces)
      | node :: queue' =>
        match conn ← connected self; getitem conn node with
        | Raise e => Some (Raise e)
        | Ok row =>
          let '(queue'', faces', visited') :=
            visit_faces (indices row) (queue', faces, visited) in
          bfs fuel' nfaces queue'' faces' visited'
        end
      end
    else Some (Ok faces)
  end.

(** [for pt in self.polys[face]: if pt not in ptmap: ...] *)
Definition number_pt (auxpts : option (list vec3)) (st : chunk) (pt : nat) : res chunk :=
  match ptmap st !! pt with
  | Some _ => Ok st
  | None =>
    p ← getitem (pts self) pt;
    aux' ← match auxpts with
           | Some a => q ← getitem a pt; Ok (new_aux st ++ [q])
           | None => Ok (new_aux st)
           end;
    Ok (mkChunk (<[pt := length (new_pts st)]> (ptmap st))
                (new_pts st ++ [p]) aux' (new_polys st))
  end.

Fixpoint number_pts (auxpts : option (list vec3)) (st : chunk) (l : list nat) : res chunk :=
  match l with
  | [] => Ok st
  | pt :: l' => st' ← number_pt auxpts st pt; number_pts auxpts st' l'
  end.

(** One round of [for face in faces]. *)
Definition number_face (auxpts : option (list vec3)) (st : chunk) (face : nat) : res chunk :=
  p ← getitem (polys self) face;
  st' ← number_pts auxpts st (face_verts p);
  row ← traverse (λ v, match ptmap st' !! v with
                       | Some k => Ok k
                       | None => Raise KeyError
                       end) (face_verts p);
  Ok (mkChunk (ptmap st') (new_pts st') (new_aux st') (new_polys st' ++ [row])).

Fixpoint number_faces (auxpts : option (list vec3)) (st : chunk) (l : list nat) : res chunk :=
  match l with
  | [] => Ok st
  | f :: l' => st' ← number_face auxpts st f; number_faces auxpts st' l'
  end.

(** [Surface.extract_chunk(nfaces, seed, auxpts)].  With [seed=None] the
    start is [np.random.randint(len(self.pts))], here [rnd] reduced into that
    range.  The result is [None] only if the loop was cut short by its fuel;
    [bfs_from_seed] shows the fuel given here to be enough. *)
Definition extract_chunk (nfaces : nat) (seed : option nat) (rnd : nat)
    (auxpts : option (list vec3))
  : option (res (list vec3 * option (list vec3) * list (list nat))) :=
  let start :=
    match seed with
    | Some s => Ok s
    | None => if decide (length (pts self) = 0) then Raise ValueError
              else Ok (rnd `mod` length (pts self))
    end in
  match start with
  | Raise e => Some (Raise e)
  | Ok node =>
    r ← bfs (S (length (pts self))) nfaces [node] ∅ {[node]};
    Some (faces ← r;
          st ← number_faces auxpts (mkChunk ∅ [] [] []) (set_iter faces);
          Ok (new_pts st, (λ _, new_aux st) <$> auxpts, new_polys st))
  end.

End extract_chunk.

(** ** [Surface.smooth] *)

Section smooth.
Context (self : Surface) (set_iter : gset nat → list nat).

(** [getpts(pt, n)]: the corners of the faces around [pt], and for [n > 0]
    what [getpts(_, n - 1)] yields around each of them. *)
Fixpoint getpts (conn : list (list (nat * nat))) (n : nat) (pt : nat) : list nat :=
  face ← indices (default [] (conn !! pt));
  q ← default [] (face_verts <$> polys self !! face);
  match n with
  | 0 => [q]
  | S n' => getpts conn n' q
  end.

(** [np.exp(-((s - val)**2) / (2*smooth**2))] *)
Definition gauss (val : fl) (smooth : R) (s : fl) : fl :=
  F.exp (F.div (F.neg (F.sq (F.sub s val))) (Fin (2 * smooth ^ 2))).

(** [func(i)] *)
Definition smooth_at (scalars : vector) (neighborhood : nat) (smooth : R) (i : nat)
  : res fl :=
  val ← getitem scalars i;
  conn ← connected self;
  let neighbors := set_iter (list_to_set (getpts conn neighborhood i)) in
  match neighbors with
  | [] => Ok F.zero
  | _ =>
    vals ← traverse (getitem scalars) neighbors;
    let g := map (gauss val smooth) vals in
    Ok (F.mean (zip_with F.mul g vals))
  end.

(** [Surface.smooth(scalars, neighborhood, smooth)] *)
Definition smooth (scalars : vector) (neighborhood : nat) (smooth : R) : res vector :=
  if decide (length scalars = length (pts self)) then
    traverse (smooth_at scalars neighborhood smooth) (seq 0 (length scalars))
  else Raise ValueError.

End smooth.

(** ** [Surface.patches] *)

(** What a generator did: the values it yielded, in order, and the
    exception that ended it, if one did. *)
Record gen (A : Type) : Type := mkGen {
  yields : list A;
  raised : option exn;
}.
Arguments mkGen {A} yields raised.
Arguments yields {A} g.
Arguments raised {A} g.

(** A generator that runs [f] on each element and yields the result. *)
Fixpoint run_gen {A B} (f : A → res B) (l : list A) : gen B :=
  match l with
  | [] => mkGen [] None
  | x :: l' =>
    match f x with
    | Raise e => mkGen [] (Some e)
    | Ok y => let g := run_gen f l' in mkGen (y :: yields g) (raised g)
    end
  end.

(** A yielded array: [k] triangles ([k x 3 x 3]) or [k] points ([k x 3]). *)
Inductive patch : Type :=
| Tris (l : list tri3)
| Points (l : list vec3).

Definition mean3 (a b c : vec3) : vec3 := vdiv (vadd (vadd a b) c) (Fin 3).
Definition mean2 (a b : vec3) : vec3 := vdiv (vadd a b) (Fin 2).

(** [align_polys(p, polys)]: every face once for each corner that is [p],
    rotated to start there. *)
Definition align_polys (p : nat) (polys : list face) : list face :=
  f ← polys;
  let '(a, b, c) := f in
  (if decide (a = p) then [(a, b, c)] else []) ++
  (if decide (b = p) then [(b, c, a)] else []) ++
  (if decide (c = p) then [(c, a, b)] else []).

(** [mid], [left] and [right] of the aligned faces. *)
Definition half_points (pts : list vec3) (poly : list face)
  : res (list (vec3 * vec3 * vec3)) :=
  traverse (λ f : face,
      let '(a, b, c) := f in
      pa ← getitem pts a; pb ← getitem pts b; pc ← getitem pts c;
      Ok (mean3 pa pb pc, mean2 pa pc, mean2 pa pb)) poly.

(** [half_edge_align(p, pts, polys)] *)
Definition half_edge_align (p : nat) (pts : list vec3) (polys : list face)
  : res (list tri3) :=
  h ← half_points pts (align_polys p polys);
  pp ← getitem pts p;
  Ok (map (λ m, (pp, m.1.1, m.1.2)) h ++ map (λ m, (pp, m.1.1, m.2)) h).

(** [half_edge(p, pts, polys)]: the rows of the stack at distance zero from
    exactly one row. *)
Definition half_edge (p : nat) (pts : list vec3) (polys : list face)
  : res (list vec3) :=
  h ← half_points pts (align_polys p polys);
  pp ← getitem pts p;
  let stack := map (λ m, m.1.1) h ++ map (λ m, m.1.2) h ++ map (λ m, m.2) h ++ [pp] in
  Ok (filter (λ r, length (filter (λ s, F.eqb (magnitude (vsub s r)) F.zero = true) stack) = 1)
             stack).

Section patches.
Context (self : Surface).

(** The body of the loop of [patches] for vertex [p]. *)
Definition patch_at (auxpts : option (list vec3)) (n : Q) (p : nat) (faces : list nat)
  : res (option patch) :=
  (* [self.polys[faces]] *)
  let polys_at := traverse (getitem (polys self)) faces in
  match faces with
  | [] => Ok None
  | _ =>
    if Qeq_bool n 1 then
      match auxpts with
      | Some aux =>
        fs ← polys_at;
        let pidx := filter (λ v, v ∈ fs ≫= face_verts) (seq 0 (length (pts self))) in
        a ← traverse (getitem (pts self)) pidx;
        b ← traverse (getitem aux) pidx;
        Ok (Some (Points (a ++ b)))
      | None =>
        fs ← polys_at;
        t ← take_faces (pts self) fs;
        Ok (Some (Tris t))
      end
    else if Qeq_bool n (1 # 2) then
      match auxpts with
      | Some aux =>
        fs ← polys_at;
        a ← half_edge p (pts self) fs;
        b ← half_edge p aux fs;
        Ok (Some (Points (a ++ b)))
      | None =>
        fs ← polys_at;
        t ← half_edge_align p (pts self) fs;
        Ok (Some (Tris t))
      end
    else Raise ValueError
  end.

(** [Surface.patches(auxpts, n)] *)
Definition patches (auxpts : option (list vec3)) (n : Q) : gen (option patch) :=
  match connected self with
  | Raise e => mkGen [] (Some e)
  | Ok conn =>
    run_gen (λ pr : nat * list (nat * nat), patch_at auxpts n pr.1 (indices pr.2))
            (imap pair conn)
  end.

End patches.

(** ** [class Distortion] *)

Module Distortion.

Record t : Type := mk {
  flat : list vec3;
  ref : list vec3;
  polys : list face;
}.

(** [area(pts, polys)], local to [areal] *)
Definition area (pts : list vec3) (polys : list face) : res (list fl) :=
  pp ← take_faces pts polys;
  Ok (map (λ t : tri3, let '(p0, p1, p2) := t in
                       magnitude (cross (vsub p1 p0) (vsub p2 p0))) pp).

(** [v[idx] += x] with an index array: the sums [v[idx] + x] are formed
    first and then stored one by one, so of the entries of [idx] that name
    one position the last alone leaves its sum there. *)
Definition iadd_at (v : vector) (idx : list nat) (x : vector) : vector :=
  let tmp := zip_with F.add (take_rows v idx) x in
  foldl (λ w it, <[it.1 := it.2]> w) v (zip idx tmp).

(** [np.bincount(polys.ravel())] *)
Definition bincount (polys : list face) : list nat :=
  let flatids := polys ≫= face_verts in
  map (λ v, length (filter (λ w, w = v) flatids))
      (seq 0 (foldr (λ w k, Nat.max (S w) k) 0 flatids)).

(** [v /= counts]: the counts must have the length of [v], or length one. *)
Definition idiv (v : vector) (counts : list nat) : res vector :=
  if decide (length counts = length v) then
    Ok (zip_with (λ x c, F.div x (F.of_nat c)) v counts)
  else match counts with
       | [c] => Ok (map (λ x, F.div x (F.of_nat c)) v)
       | _ => Raise ValueError
       end.

(** [vertratios] as the three [+=] leave it. *)
Definition vertsums (self : t) (tridists : vector) : vector :=
  let v0 := replicate (length (ref self)) F.zero in
  let v1 := iadd_at v0 (map (λ p : face, p.1.1) (polys self)) tridists in
  let v2 := iadd_at v1 (map (λ p : face, p.1.2) (polys self)) tridists in
  iadd_at v2 (map (λ p : face, p.2) (polys self)) tridists.

(** [Distortion.areal] *)
Definition areal (self : t) : res vector :=
  refarea ← area (ref self) (polys self);
  flatarea ← area (flat self) (polys self);
  let tridists := zip_with (λ f r, F.log2 (F.div f r)) flatarea refarea in
  vertratios ← idiv (vertsums self tridists) (bincount (polys self));
  Ok (map (λ x, if F.eqb x F.zero then F.one else x)
          (map F.nan_to_num vertratios)).

End Distortion.

(** ** [trace_poly] *)

Section trace_poly.
Context (set_iter : gset nat → list nat) (set_pop : gset nat → nat).

(** The dictionary [idx]: for every end point, the indices of the edges
    that touch it. *)
Definition edge_index (edges : list (nat * nat)) : gmap nat (gset nat) :=
  foldl (λ (idx : gmap nat (gset nat)) (ie : nat * (nat * nat)),
           alter (union {[ie.1]}) ie.2.2 (alter (union {[ie.1]}) ie.2.1 idx))
        (gset_to_gmap ∅ (list_to_set (edges ≫= λ e, [e.1; e.2])))
        (imap pair edges).

(** The inner [while]: extend [poly] until it closes.  [None] when [fuel]
    rounds were not enough. *)
Fixpoint walk (fuel : nat) (edges : list (nat * nat)) (idx : gmap nat (gset nat))
    (poly : list nat) (stack eset : gset nat) : option (res (list nat * gset nat)) :=
  match fuel with
  | 0 => None
  | S fuel' =>
    match head poly, last poly with
    | Some first, Some final =>
      if decide (final ≠ first ∨ length poly = 1) then
        match idx !! final with
        | None => Some (Raise KeyError)
        | Some around =>
          match head (set_iter (around ∖ stack)) with
          | None => Some (Raise IndexError)
          | Some next =>
            if decide (next ∈ eset) then
              match edges !! next with
              | None => Some (Raise IndexError)
              | Some (a, b) =>
                if decide (a = final) then
                  walk fuel' edges idx (poly ++ [b]) ({[next]} ∪ stack) (eset ∖ {[next]})
                else if decide (b = final) then
                  walk fuel' edges idx (poly ++ [a]) ({[next]} ∪ stack) (eset ∖ {[next]})
                else Some (Raise PlainException)
              end
            else Some (Raise KeyError)
          end
        end
      else Some (Ok (poly, eset))
    | _, _ => Some (Raise IndexError)
    end
  end.

(** The outer [while]: one polygon per round. *)
Fixpoint trace (fuel : nat) (edges : list (nat * nat)) (idx : gmap nat (gset nat))
    (eset : gset nat) : option (gen (list nat)) :=
  match fuel with
  | 0 => None
  | S fuel' =>
    if decide (0 < size eset) then
      let eidx := set_pop eset in
      match edges !! eidx with
      | None => Some (mkGen [] (Some IndexError))
      | Some (x, y) =>
        match walk (length edges) edges idx [x; y] {[eidx]} (eset ∖ {[eidx]}) with
        | None => None
        | Some (Raise e) => Some (mkGen [] (Some e))
        | Some (Ok (poly, eset')) =>
          g ← trace fuel' edges idx eset';
          Some (mkGen (poly :: yields g) (raised g))
        end
      end
    else Some (mkGen [] None)
  end.

(** [trace_poly(edges)] *)
Definition trace_poly (edges : list (nat * nat)) : option (gen (list nat)) :=
  trace (S (length edges)) edges (edge_index edges)
        (list_to_set (seq 0 (length edges))).

End trace_poly.

(** ** Example inputs *)

(** A right triangle with unit legs. *)
Definition unit_triangle : Surface :=
  mkSurface [(Fin 0, Fin 0, Fin 0); (Fin 1, Fin 0, Fin 0); (Fin 0, Fin 1, Fin 0)]
            [(0, 1, 2)].

(** Two triangles that share the edge from vertex 0 to vertex 2; vertex 0
    is the first corner of both. *)
Definition fan : list face := [(0, 1, 2); (0, 2, 3)].

Definition fan_ref : list vec3 :=
  [(Fin 0, Fin 0, Fin 0); (Fin 1, Fin 0, Fin 0); (Fin 0, Fin 1, Fin 0);
   (Fin (-1), Fin 0, Fin 0)].

(** [fan_ref] with the first triangle doubled and the second halved in
    area. *)
Definition fan_flat : list vec3 :=
  [(Fin 0, Fin 0, Fin 0); (Fin 2, Fin 0, Fin 0); (Fin 0, Fin 1, Fin 0);
   (Fin (-1 / 2), Fin 0, Fin 0)].

(** ** The mean the specification describes

    Section 4.6 of the specification has [arealDistortion] average the
    per-face log ratio over the faces around a vertex.  [mean_ratio] is that
    average, written from the specification's words, to compare
    [Distortion.areal] with: the sum of [tridists] over every corner that is
    vertex [v], divided by the number of such corners. *)
Definition mean_ratio (polys : list face) (tridists : vector) (v : nat) : fl :=
  let contrib :=
    pd ← zip polys tridists;
    w ← face_verts pd.1;
    if decide (w = v) then [pd.2] else [] in
  F.div (F.sum contrib) (F.of_nat (length contrib)).

(** Values that are zero or [nan]: all that identical embeddings produce
    before the final remapping. *)
Definition zn (x : fl) : Prop := x = F.zero ∨ x = NaN.

(** One vertex and no face. *)
Definition lone_vertex : Surface := mkSurface [(Fin 0, Fin 0, Fin 0)] [].

(** A triangle on the vertices 1, 2, 3; vertex 0 is in no face. *)
Definition offset_triangle : Surface :=
  mkSurface [(Fin 0, Fin 0, Fin 1); (Fin 0, Fin 0, Fin 0); (Fin 1, Fin 0, Fin 0);
             (Fin 0, Fin 1, Fin 0)]
            [(1, 2, 3)].

(** ** The weighted mean the specification describes

    The specification has [smooth] return the Gaussian-weighted mean of the
    neighbours' values.  [weighted_mean] is that mean, written from the
    specification's words, to compare [smooth] with: the sum of weight times
    value over the sum of the weights. *)
Definition weighted_mean (val : fl) (bandwidth : R) (vals : vector) : fl :=
  F.div (F.sum (map (λ s, F.mul (gauss val bandwidth s) s) vals))
        (F.sum (map (gauss val bandwidth) vals)).

(** What [smooth] computes from the same values: the sum of weight times
    value over the number of values. *)
Definition mean_of_weighted (val : fl) (bandwidth : R) (vals : vector) : fl :=
  F.div (F.sum (map (λ s, F.mul (gauss val bandwidth s) s) vals))
        (F.of_nat (length vals)).

(** The rows of [self.connected] on a well-formed mesh. *)
Definition conn_rows (self : Surface) : list (list (nat * nat)) :=
  map (connected_row self) (seq 0 (length (pts self))).

(** The distinct vertices that [getpts(i, neighborhood)] yields. *)
Definition gathered (self : Surface) (neighborhood i : nat) : gset nat :=
  list_to_set (getpts self (conn_rows self) neighborhood i).

(** Two vertices and no face. *)
Definition two_points : Surface :=
  mkSurface [(Fin 0, Fin 0, Fin 0); (Fin 1, Fin 0, Fin 0)] [].

(** A stand-in for the solving function of a factorisation: it returns its
    argument (the solution when the matrix is the identity). *)
Definition identity_handle : handle := mkHandle (λ b, b) (λ b, eq_refl).

(** The caches hold, for every [m] they know, what [factorized] returned for
    the two matrices of [m] restricted to the good rows. *)
Definition cache_ok (self : Surface) (factorized : dense → res handle)
    (c : solver_cache) : Prop :=
  ∀ m h,
    (cache_get (rlfac_solvers c) m = Some h →
     ∃ lfac nLC goodrows, heat_system self m = Ok (lfac, nLC, goodrows) ∧
                          factorized (submatrix lfac goodrows) = Ok h) ∧
    (cache_get (nLC_solvers c) m = Some h →
     ∃ lfac nLC goodrows, heat_system self m = Ok (lfac, nLC, goodrows) ∧
                          factorized (submatrix nLC goodrows) = Ok h).

(** The sum of column [j] of an [n] by [n] matrix: one entry of
    [M.sum(0)]. *)
Definition col_sum (n : nat) (M : matrix) (j : nat) : fl :=
  F.sum (map (λ i, M i j) (seq 0 n)).

(** A [factorized] that never fails and hands out [identity_handle]. *)
Definition stub_factorized : dense → res handle := λ _, Ok identity_handle.

(** ** Closed cycles of undirected edges *)

(** Edge [e] joins the vertices [a] and [b], in one direction or the other. *)
Definition joins (e : nat * nat) (a b : nat) : Prop := e = (a, b) ∨ e = (b, a).

(** A walk from [a]: each step [(i, b)] crosses the edge with index [i] from
    the vertex reached so far to [b]. *)
Fixpoint chain (edges : list (nat * nat)) (a : nat) (steps : list (nat * nat)) : Prop :=
  match steps with
  | [] => True
  | s :: rest => (∃ e, edges !! s.1 = Some e ∧ joins e a s.2) ∧ chain edges s.2 rest
  end.

(** The vertex a walk from [a] ends at. *)
Definition chain_end (a : nat) (steps : list (nat * nat)) : nat :=
  default a (snd <$> last steps).

(** The walk [steps] from [a] is a single closed cycle through [edges]: it
    returns to [a], passes through a vertex once only, and crosses every
    edge of the list exactly once. *)
Definition closed_cycle (edges : list (nat * nat)) (a : nat) (steps : list (nat * nat))
  : Prop :=
  steps ≠ [] ∧ chain edges a steps ∧ chain_end a steps = a ∧
  NoDup steps.*2 ∧ steps.*1 ≡ₚ seq 0 (length edges).

(** The same walk, backwards. *)
Fixpoint rev_chain (a : nat) (steps : list (nat * nat)) : list (nat * nat) :=
  match steps with
  | [] => []
  | s :: rest => rev_chain s.2 rest ++ [(s.1, a)]
  end.

(** A triangle given by its edges, out of order and in mixed directions. *)
Definition triangle_edges : list (nat * nat) := [(5, 7); (9, 5); (7, 9)].

(** An instance of the [set.pop] oracle: the first element in the order of
    [elements]. *)
Definition first_element (X : gset nat) : nat := default 0 (head (elements X)).

(** ** Reachability over shared faces *)

(** [u] and [v] are corners of one face. *)
Definition adjacent (self : Surface) (u v : nat) : Prop :=
  ∃ f p, polys self !! f = Some p ∧ u ∈ face_verts p ∧ v ∈ face_verts p.

(** Face [f] has a corner that can be reached from [seed] by going from
    corner to corner of shared faces. *)
Definition face_reached (self : Surface) (seed f : nat) : Prop :=
  ∃ p v, polys self !! f = Some p ∧ v ∈ face_verts p ∧ rtc (adjacent self) seed v.

(** What the breadth-first loop of [extract_chunk] keeps true. *)
Record bfs_inv (self : Surface) (seed : nat) (queue : list nat)
    (faces visited : gset nat) : Prop := mkBfsInv {
  inv_seed : seed ∈ visited;
  inv_reach : ∀ v, v ∈ visited → rtc (adjacent self) seed v ∧ v < length (pts self);
  inv_faces : ∀ f, f ∈ faces →
                ∃ p, polys self !! f = Some p ∧ ∀ v, v ∈ face_verts p → v ∈ visited;
  inv_queue_nodup : NoDup queue;
  inv_queue : ∀ v, v ∈ queue → v ∈ visited;
}.

(** Every face around [v] has been collected. *)
Definition processed (self : Surface) (faces : gset nat) (v : nat) : Prop :=
  ∀ f p, polys self !! f = Some p → v ∈ face_verts p → f ∈ faces.

(** The renumbering loop has given the old vertices [order], in this order,
    the new ids 0, 1, 2, ... *)
Record renumbered (self : Surface) (auxpts : option (list vec3)) (order : list nat)
    (st : chunk) : Prop := mkRenumbered {
  ren_ptmap : ∀ v k, ptmap st !! v = Some k ↔ order !! k = Some v;
  ren_nodup : NoDup order;
  ren_pts : Forall2 (λ v p, pts self !! v = Some p) order (new_pts st);
  ren_aux : ∀ a, auxpts = Some a → Forall2 (λ v q, a !! v = Some q) order (new_aux st);
}.

(** Row [row] of the new face array is face [f] with its corners
    renumbered. *)
Definition renumbered_face (self : Surface) (order : list nat) (f : nat)
    (row : list nat) : Prop :=
  ∃ p, polys self !! f = Some p ∧
       Forall2 (λ v k, order !! k = Some v) (face_verts p) row.

(** The vertex the breadth-first loop of [extract_chunk] starts from. *)
Definition start_node (self : Surface) (seed : option nat) (rnd : nat) : nat :=
  default (rnd `mod` length (pts self)) seed.

(** How a visit extends the queue and the visited set: by the same new
    vertices. *)
Definition grows (q : list nat) (V : gset nat) (q' : list nat) (V' : gset nat) : Prop :=
  ∃ new, q' = q ++ new ∧ NoDup new ∧ (∀ v, v ∈ new → v ∉ V) ∧ V' = V ∪ list_to_set new.

(** Finite values, and finite values that are not negative. *)
Definition finite (x : fl) : Prop := ∃ r, x = Fin r.
Definition nonneg (x : fl) : Prop := ∃ r, x = Fin r ∧ (0 <= r)%R.

(** ** [sort_polys] *)

(** [row.argmin()]: the position of the first smallest entry. *)
Fixpoint argmin_from (best_i best i : nat) (l : list nat) : nat :=
  match l with
  | [] => best_i
  | x :: l' =>
    if decide (x < best) then argmin_from i x (S i) l'
    else argmin_from best_i best (S i) l'
  end.

Definition argmin (l : list nat) : nat :=
  match l with
  | [] => 0
  | x :: l' => argmin_from 0 x 1 l'
  end.

(** [sort_polys(polys)]: every row turned until its first smallest entry
    leads. *)
Definition sort_polys (polys : list face) : list face :=
  map (λ p : face,
      let row := face_verts p in
      let amin := argmin row in
      (default 0 (row !! amin),
       default 0 (row !! ((amin + 1) `mod` 3)),
       default 0 (row !! ((amin + 2) `mod` 3))))
    polys.

(** The rows that list the corners of [p] in the same cyclic order. *)
Definition rotations (p : face) : list face :=
  let '(a, b, c) := p in [(a, b, c); (b, c, a); (c, a, b)].

(** ** [boundary_edges] *)

(** [np.sort] of one row of three. *)
Definition sort_row (p : face) : face :=
  let '(a, b, c) := p in
  let '(a, b) := if decide (a ≤ b) then (a, b) else (b, a) in
  let '(b, c) := if decide (b ≤ c) then (b, c) else (c, b) in
  let '(a, b) := if decide (a ≤ b) then (a, b) else (b, a) in
  (a, b, c).

(** The dictionary [edges], in insertion order.
    [if key not in edges: edges[key] = []] and [edges[key].append(i)]. *)
Fixpoint edges_append (edges : list (nat * nat * list nat)) (key : nat * nat) (i : nat)
  : list (nat * nat * list nat) :=
  match edges with
  | [] => [(key, [i])]
  | (k, faces) :: rest =>
    if decide (k = key) then (k, faces ++ [i]) :: rest
    else (k, faces) :: edges_append rest key i
  end.

(** The three keys of a sorted row, [(0,1)], [(1,2)], [(0,2)]. *)
Definition row_keys (p : face) : list (nat * nat) :=
  let '(a, b, c) := p in [(a, b); (b, c); (a, c)].

(** [boundary_edges(polys)] *)
Definition boundary_edges (polys : list face) : list (nat * nat) :=
  let edges :=
    foldl (λ edges (ip : nat * face),
             foldl (λ edges key, edges_append edges key ip.1) edges
                   (row_keys (sort_row ip.2)))
          [] (imap pair polys) in
  map fst (filter (λ e, length e.2 = 1) edges).

(** Face [i] holds both ends of the edge [e]. *)
Definition on_face (polys : list face) (e : nat * nat) (i : nat) : Prop :=
  ∃ p, polys !! i = Some p ∧ e.1 ∈ face_verts p ∧ e.2 ∈ face_verts p.

(** [edges.get(key)] *)
Fixpoint edges_get (edges : list (nat * nat * list nat)) (key : nat * nat)
  : option (list nat) :=
  match edges with
  | [] => None
  | (k, faces) :: rest => if decide (k = key) then Some faces else edges_get rest key
  end.

(** The faces a run of insertions names for [key], in order. *)
Definition inserted (ins : list (nat * nat * nat)) (key : nat * nat) : list nat :=
  (filter (λ x, x.1 = key) ins).*2.

(** The insertions [boundary_edges] makes. *)
Definition insertions (polys : list face) : list (nat * nat * nat) :=
  imap pair polys ≫= λ ip, (λ k, (k, ip.1)) <$> row_keys (sort_row ip.2).

(** ** [make_cube] *)

(** [make_cube(center, size)] *)
Definition make_cube (center : vec3) (size : fl) : list vec3 * list face :=
  let pts := [(Fin 0, Fin 0, Fin 0); (Fin 1, Fin 0, Fin 0); (Fin 0, Fin 1, Fin 0);
              (Fin 1, Fin 1, Fin 0); (Fin 0, Fin 0, Fin 1); (Fin 1, Fin 0, Fin 1);
              (Fin 0, Fin 1, Fin 1); (Fin 1, Fin 1, Fin 1)] in
  let pts := map (λ p, vsub p (Fin (1 / 2), Fin (1 / 2), Fin (1 / 2))) pts in
  let polys := [(0, 2, 3); (0, 3, 1); (0, 1, 4); (1, 5, 4);
                (1, 3, 5); (3, 7, 5); (2, 7, 3); (2, 6, 7);
                (0, 6, 2); (0, 4, 6); (4, 7, 6); (4, 5, 7)] in
  (map (λ p, vadd (vscale size p) center) pts, polys).

(** The sides of the faces, each in the direction its face runs through
    it. *)
Definition directed_edges (polys : list face) : list (nat * nat) :=
  polys ≫= λ p, let '(a, b, c) := p in [(a, b); (b, c); (c, a)].

(** ** [class _ptset] *)

(** [a == b] on tuples of three floats, as a dictionary compares its keys:
    all coordinates equal, so a tuple that holds a [nan] equals nothing. *)
Definition vec_eqb (a b : vec3) : bool :=
  F.eqb a.1.1 b.1.1 && F.eqb a.1.2 b.1.2 && F.eqb a.2 b.2.

(** [self.idx], an [OrderedDict]: the keys in insertion order, each with
    its value. *)
Abbreviation ptset := (list (vec3 * nat)).

(** [self.idx[key]] for a key that is in the dictionary *)
Fixpoint ptset_find (s : ptset) (key : vec3) : option nat :=
  match s with
  | [] => None
  | (k, v) :: rest => if vec_eqb k key then Some v else ptset_find rest key
  end.

(** [_ptset.__getitem__(idx)]: the number of the point, and the set as the
    call leaves it. *)
Definition ptset_getitem (s : ptset) (key : vec3) : nat * ptset :=
  match ptset_find s key with
  | Some v => (v, s)
  | None => (length s, s ++ [(key, length s)])
  end.

(** [_ptset.points] *)
Definition points (s : ptset) : list vec3 := s.*1.

(** The set after looking up [keys] one after the other in a new
    [_ptset()]. *)
Definition ptset_after (keys : list vec3) : ptset :=
  foldl (λ s key, (ptset_getitem s key).2) [] keys.

(** ** [class _quadset] *)

Definition quad : Type := nat * nat * nat * nat.

Definition quad_verts (q : quad) : list nat :=
  let '(a, b, c, d) := q in [a; b; c; d].

(** [tuple(sorted(quad))] *)
Definition quad_key (q : quad) : list nat := merge_sort Nat.le (quad_verts q).

(** [self.polys], a dictionary: the keys in insertion order, each with the
    quad stored for it. *)
Abbreviation quadset := (list (list nat * quad)).

(** [_quadset.__call__(quad)] *)
Definition quadset_call (s : quadset) (q : quad) : quadset :=
  let idx := quad_key q in
  if decide (idx ∈ s.*1) then filter (λ e, e.1 ≠ idx) s
  else s ++ [(idx, q)].

(** [_quadset.triangles] *)
Definition triangles (s : quadset) : list (list nat) :=
  s.*2 ≫= λ q : quad, let '(a, b, c, d) := q in [[a; b; c]; [a; c; d]].

(** The set after calling a new [_quadset()] with [quads] one after the
    other. *)
Definition quadset_after (quads : list quad) : quadset :=
  foldl quadset_call [] quads.

(** The number of calls among [quads] whose quad has the corners [k]. *)
Definition calls_with (quads : list quad) (k : list nat) : nat :=
  length (filter (λ q, quad_key q = k) quads).

(** ** [Surface.polyhedra] *)

(** How [polyhedra] can end before its time: an [assert] that fails, or an
    exception of another kind. *)
Inductive polyhedra_exn : Type :=
| AssertionError
| Raised (e : exn).

(** [np.roll(row, -np.nonzero(row == p)[0][0])]: the row turned until its
    first [p] leads; [IndexError] when [p] is not in the row. *)
Definition roll_to (p : nat) (row : face) : res face :=
  let '(a, b, c) := row in
  if decide (a = p) then Ok (a, b, c)
  else if decide (b = p) then Ok (b, c, a)
  else if decide (c = p) then Ok (c, a, b)
  else Raise IndexError.

(** [pts[[i, j]].mean(0)] and [pts[[i, j, k]].mean(0)] *)
Definition mean_at2 (pts : list vec3) (i j : nat) : res vec3 :=
  a ← getitem pts i; b ← getitem pts j; Ok (mean2 a b).

Definition mean_at3 (pts : list vec3) (i j k : nat) : res vec3 :=
  a ← getitem pts i; b ← getitem pts j; c ← getitem pts k; Ok (mean3 a b c).

Section polyhedra.
Context (self : Surface) (wm : list vec3).

(** One round of [for face in faces]: six points looked up, six quads
    called. *)
Definition polyhedron_face (p : nat) (st : ptset * quadset) (face : nat)
  : res (ptset * quadset) :=
  let '(s, q) := st in
  row ← getitem (polys self) face;
  poly ← roll_to p row;
  let '(p0, p1, p2) := poly in
  ka ← mean_at3 wm p0 p1 p2;
  let '(a, s) := ptset_getitem s ka in
  kb ← mean_at3 (pts self) p0 p1 p2;
  let '(b, s) := ptset_getitem s kb in
  kc ← mean_at2 wm p0 p2;
  let '(c, s) := ptset_getitem s kc in
  kd ← mean_at2 (pts self) p0 p2;
  let '(d, s) := ptset_getitem s kd in
  ke ← mean_at2 wm p0 p1;
  let '(e, s) := ptset_getitem s ke in
  kf ← mean_at2 (pts self) p0 p1;
  let '(f, s) := ptset_getitem s kf in
  let q := quadset_call q (0, c, a, e) in
  let q := quadset_call q (1, f, b, d) in
  let q := quadset_call q (1, d, c, 0) in
  let q := quadset_call q (1, 0, e, f) in
  let q := quadset_call q (f, e, a, b) in
  let q := quadset_call q (d, b, a, c) in
  Ok (s, q).

Fixpoint polyhedron_faces (p : nat) (st : ptset * quadset) (faces : list nat)
  : res (ptset * quadset) :=
  match faces with
  | [] => Ok st
  | face :: rest => st' ← polyhedron_face p st face; polyhedron_faces p st' rest
  end.

(** What is done before [for face in faces] once the two [assert]s hold. *)
Definition polyhedron_start (s : ptset) (poly : face) : res ptset :=
  let '(p0, p1, _) := poly in
  k ← mean_at2 wm p0 p1;
  let s := (ptset_getitem s k).2 in
  k' ← mean_at2 (pts self) p0 p1;
  Ok (ptset_getitem s k').2.

(** The body of the loop of [polyhedra] for vertex [p]: what it yields, or
    how it fails. *)
Definition polyhedron (p : nat) (faces : list nat)
  : polyhedra_exn + (list vec3 * list (list nat)) :=
  match faces with
  | [] => inr (points [], triangles [])
  | face0 :: _ =>
    match row ← getitem (polys self) face0; poly ← roll_to p row;
          wp ← getitem wm p; Ok (poly, wp) with
    | Raise e => inl (Raised e)
    | Ok (poly, wp) =>
      let '(i0, s) := ptset_getitem [] wp in
      if decide (i0 = 0) then
        match getitem (pts self) p with
        | Raise e => inl (Raised e)
        | Ok pp =>
          let '(i1, s) := ptset_getitem s pp in
          if decide (i1 = 1) then
            match s ← polyhedron_start s poly; polyhedron_faces p (s, []) faces with
            | Raise e => inl (Raised e)
            | Ok (s, q) => inr (points s, triangles q)
            end
          else inl AssertionError
        end
      else inl AssertionError
    end
  end.

(** The generator: the items yielded, and how it ended if it did not run
    to its end. *)
Fixpoint polyhedra_from (rows : list (nat * list (nat * nat)))
  : list (list vec3 * list (list nat)) * option polyhedra_exn :=
  match rows with
  | [] => ([], None)
  | (p, row) :: rest =>
    match polyhedron p (indices row) with
    | inl e => ([], Some e)
    | inr item => let '(items, e) := polyhedra_from rest in (item :: items, e)
    end
  end.

(** [Surface.polyhedra(wm)] *)
Definition polyhedra : list (list vec3 * list (list nat)) * option polyhedra_exn :=
  match connected self with
  | Raise e => ([], Some (Raised e))
  | Ok conn => polyhedra_from (imap pair conn)
  end.

End polyhedra.

(** A set that grew from the empty one. *)
Definition counted (s : ptset) : Prop := s.*2 = seq 0 (length s).

(** Every corner of every stored quad is below [n]. *)
Definition quads_below (n : nat) (q : quadset) : Prop :=
  Forall (λ e, Forall (λ i, i < n) (quad_verts e.2)) q.

(** The unit triangle moved one unit along [z]. *)
Definition lifted_triangle : list vec3 :=
  [(Fin 0, Fin 0, Fin 1); (Fin 1, Fin 0, Fin 1); (Fin 0, Fin 1, Fin 1)].

(** ** [tetra_vol], [brick_vol] and [face_volume] *)

(** [np.abs] *)
Definition fabs (x : fl) : fl :=
  match x with
  | Fin r => Fin (Rabs r)
  | PInf | NInf => PInf
  | NaN => NaN
  end.

(** [tetra_vol(pts)] *)
Definition tetra_vol (pts : list vec3) : res fl :=
  p0 ← getitem pts 0;
  let tetra := map (λ p, vsub p p0) (drop 1 pts) in
  t0 ← getitem tetra 0;
  t1 ← getitem tetra 1;
  t2 ← getitem tetra 2;
  Ok (F.div (fabs (dot t0 (cross t1 t2))) (Fin 6)).

(** [brick_vol(pts)] *)
Definition brick_vol (pts : list vec3) : res fl :=
  a ← traverse (getitem pts) [0; 1; 2; 4];
  va ← tetra_vol a;
  b ← traverse (getitem pts) [0; 2; 3; 4];
  vb ← tetra_vol b;
  c ← traverse (getitem pts) [2; 3; 4; 5];
  vc ← tetra_vol c;
  Ok (F.add (F.add va vb) vc).

(** The loop of [face_volume] from face number [i] on: the numbers printed
    and the volumes, or the exception that ended it. *)
Fixpoint face_volume_from (pts1 pts2 : list vec3) (i : nat) (polys : list face)
  : list nat * res (list fl) :=
  match polys with
  | [] => ([], Ok [])
  | p :: rest =>
    match a ← traverse (getitem pts1) (face_verts p);
          b ← traverse (getitem pts2) (face_verts p);
          brick_vol (a ++ b) with
    | Raise e => ([], Raise e)
    | Ok v =>
      let printed := if decide (i `mod` 1000 = 0) then [i] else [] in
      let '(out, r) := face_volume_from pts1 pts2 (S i) rest in
      (printed ++ out, vols ← r; Ok (v :: vols))
    end
  end.

(** [face_volume(pts1, pts2, polys)]: what it prints, and what it
    returns. *)
Definition face_volume (pts1 pts2 : list vec3) (polys : list face)
  : list nat * res (list fl) :=
  face_volume_from pts1 pts2 0 polys.

(** A point with three finite coordinates. *)
Definition vec_finite (p : vec3) : Prop := finite p.1.1 ∧ finite p.1.2 ∧ finite p.2.

(** The numbers [face_volume] prints for the faces [i], [i + 1], ... *)
Definition progress (i n : nat) : list nat :=
  filter (λ k, k `mod` 1000 = 0) (seq i n).

(** ** [Surface.vertex_normals] *)

(** [Surface.vertex_normals]: for every vertex the sum of the normals of
    its faces over the number of its faces, with [nan] and the infinities
    replaced. *)
Definition vertex_normals (self : Surface) : res (list vec3) :=
  conn ← connected self;
  ns ← face_normals self;
  Ok (map (λ row,
         let total := (row_dot (map (λ n : vec3, n.1.1) ns) row,
                       row_dot (map (λ n : vec3, n.1.2) ns) row,
                       row_dot (map (λ n : vec3, n.2) ns) row) in
         let count := F.sum (map (λ e : nat * nat, F.of_nat e.2) row) in
         let '(x, y, z) := vdiv total count in
         (F.nan_to_num x, F.nan_to_num y, F.nan_to_num z))
       conn).

(** ** [Distortion.metric] *)

(** [iter_surfedges(tris)] *)
Definition iter_surfedges (tris : list face) : list (nat * nat) :=
  tris ≫= λ p, let '(a, b, c) := p in [(a, b); (b, c); (a, c)].

(** The adjacency of an [nx.Graph]: for every node its neighbours, in the
    order in which they became neighbours. *)
Abbreviation graph := (gmap nat (list nat)).

(** [adj[u][v] = ...]: [v] becomes a neighbour of [u] unless it is one. *)
Definition add_neighbor (G : graph) (u v : nat) : graph :=
  let l := default [] (G !! u) in
  <[u := if decide (v ∈ l) then l else l ++ [v]]> G.

(** [graph.add_edge(u, v)] *)
Definition add_edge (G : graph) (e : nat * nat) : graph :=
  add_neighbor (add_neighbor G e.1 e.2) e.2 e.1.

(** [make_surface_graph(tris)] *)
Definition make_surface_graph (tris : list face) : graph :=
  foldl add_edge ∅ (iter_surfedges tris).

(** [G.neighbors(n)], a list as networkx 1 returns it; a node that is not
    in the graph raises [NetworkXError], an [Exception]. *)
Definition neighbors (G : graph) (n : nat) : res (list nat) :=
  match G !! n with
  | Some l => Ok l
  | None => Raise PlainException
  end.

(** [np.unique(ids)]: the ids that occur, ascending. *)
Definition unique (ids : list nat) : list nat :=
  filter (λ v, v ∈ ids) (seq 0 (foldr (λ w k, Nat.max (S w) k) 0 ids)).

(** [np.sqrt(((pts[G.neighbors(ii)] - pts[ii])**2).sum(1))] *)
Definition neighbor_dists (G : graph) (pts : list vec3) (ii : nat) : res (list fl) :=
  ns ← neighbors G ii;
  qs ← traverse (getitem pts) ns;
  c ← getitem pts ii;
  Ok (map (λ q, magnitude (vsub q c)) qs).

(** [Distortion.metric] *)
Definition metric (self : Distortion.t) : res vector :=
  let G := make_surface_graph (Distortion.polys self) in
  let selverts := unique (Distortion.polys self ≫= face_verts) in
  ref_dists ← traverse (neighbor_dists G (Distortion.ref self)) selverts;
  flat_dists ← traverse (neighbor_dists G (Distortion.flat self)) selverts;
  let msdists := zip_with (λ fi fl, F.mean (zip_with F.sub fl fi)) ref_dists flat_dists in
  put_rows (length (Distortion.ref self)) selverts msdists.

(** What the graph of a list of edges holds: every end of an edge is a node,
    every node has a neighbour, and every neighbour is the other end of an
    edge. *)
Definition graph_of (edges : list (nat * nat)) (G : graph) : Prop :=
  (∀ u w, (u, w) ∈ edges → is_Some (G !! u) ∧ is_Some (G !! w)) ∧
  (∀ u l, G !! u = Some l →
          l ≠ [] ∧ ∀ w, w ∈ l → (u, w) ∈ edges ∨ (w, u) ∈ edges).

(** ** [Surface.patches] with granularity 1 *)

(** What [patches(n=1)] yields for vertex [v] of a mesh without auxiliary
    points: [None] when no face holds the vertex, and otherwise the
    triangles of the faces that hold it, in the order of the row of
    [connected]. *)
Definition whole_faces (self : Surface) (v : nat) (item : option patch) : Prop :=
  match indices (connected_row self v) with
  | [] => item = None
  | fs => ∃ ps t, traverse (getitem (polys self)) fs = Ok ps ∧
                  take_faces (pts self) ps = Ok t ∧ item = Some (Tris t)
  end.

(** ** [Surface.geodesic_distance]: no negative distance *)

(** The values below zero. *)
Definition negative (x : fl) : Prop := x = NInf ∨ ∃ r, x = Fin r ∧ (r < 0)%R.

(** ** The weighted adjacency matrix in binary64 arithmetic

    Whether [W[i,j]] and [W[j,i]] agree depends on the order in which
    rounded sums are taken, which the exact numbers of [fl] cannot show.
    The lines of [Surface.cotangent_weights] and [Surface.laplace_operator]
    that build [W] are therefore embedded once more over [float64] itself:
    IEEE 754 binary64 as [SpecFloat] defines it (53 bits of precision,
    round to nearest with ties to even, signed zeros, overflow to an
    infinity, one [nan]). *)

Module B64.

Abbreviation float64 := spec_float.

Definition prec : Z := 53.
Definition emax : Z := 1024.

Definition add : float64 → float64 → float64 := SFadd prec emax.
Definition sub : float64 → float64 → float64 := SFsub prec emax.
Definition mul : float64 → float64 → float64 := SFmul prec emax.
Definition div : float64 → float64 → float64 := SFdiv prec emax.
Definition sqrt : float64 → float64 := SFsqrt prec emax.

(** [x == y] *)
Definition eqb : float64 → float64 → bool := SFeqb.

Definition zero : float64 := S754_zero false.

(** The [float64] nearest to an integer, and the power of two [2 ** e]. *)
Definition of_Z (z : Z) : float64 := binary_normalize prec emax z 0 false.
Definition pow2 (e : Z) : float64 := SFldexp prec emax (of_Z 1) e.

(** [x ** 2] *)
Definition sq (x : float64) : float64 := mul x x.

Definition vec3 : Type := float64 * float64 * float64.
Definition tri3 : Type := vec3 * vec3 * vec3.

Definition vsub (a b : vec3) : vec3 :=
  let '(ax, ay, az) := a in
  let '(bx, by_, bz) := b in
  (sub ax bx, sub ay by_, sub az bz).

(** [np.cross(a, b)] *)
Definition cross (a b : vec3) : vec3 :=
  let '(ax, ay, az) := a in
  let '(bx, by_, bz) := b in
  (sub (mul ay bz) (mul az by_),
   sub (mul az bx) (mul ax bz),
   sub (mul ax by_) (mul ay bx)).

(** [(a * b).sum(1)]: the three products are added from left to right. *)
Definition dot (a b : vec3) : float64 :=
  let '(ax, ay, az) := a in
  let '(bx, by_, bz) := b in
  add (add (mul ax bx) (mul ay by_)) (mul az bz).

(** [(a ** 2).sum(1)] *)
Definition sumsq (a : vec3) : float64 :=
  let '(ax, ay, az) := a in
  add (add (sq ax) (sq ay)) (sq az).

(** [pts[polys]]: the three points of every face. *)
Definition take_faces (pts : list vec3) (polys : list face) : res (list tri3) :=
  traverse (λ p : face,
      let '(a, b, c) := p in
      pa ← getitem pts a;
      pb ← getitem pts b;
      pc ← getitem pts c;
      Ok (pa, pb, pc))
    polys.

Record Surface : Type := mkSurface {
  pts : list vec3;
  polys : list face;
}.

Definition well_formed (self : Surface) : Prop :=
  Forall (face_in_range (length (pts self))) (polys self).

#[global] Instance well_formed_dec self : Decision (well_formed self).
Proof. unfold well_formed. apply _. Defined.

(** A sparse matrix seen through its entries. *)
Definition matrix : Type := nat → nat → float64.

(** [sparse.coo_matrix((data, (row, col)))] keeps every entry it is given,
    several at one position too. *)
Abbreviation coo := (list (nat * nat * float64)).

(** [M.T] *)
Definition coo_T (M : coo) : coo := map (λ e, (e.1.2, e.1.1, e.2)) M.

(** What a COO matrix stores at [(i, j)], in the order of its data. *)
Definition stored (M : coo) (i j : nat) : list float64 :=
  (filter (λ e, e.1 = (i, j)) M).*2.

(** The CSR form that [+] converts its operands to holds one value for a
    position: a single entry as it is, several added up from the first on. *)
Definition sum_duplicates (l : list float64) : float64 :=
  match l with
  | [] => zero
  | x :: xs => foldl add x xs
  end.

(** [M.tocsr()[i, j]], [0.0] where nothing is stored. *)
Definition csr_get (M : coo) : matrix :=
  λ i j, sum_duplicates (stored M i j).

(** One entry of [A + B] for sparse [A] and [B]: the sum of the two
    entries, a missing one counting as [0.0]; a sum that compares equal to
    zero is not stored and so reads as [0.0]. *)
Definition sparse_add (a b : float64) : float64 :=
  let r := add a b in
  if eqb r zero then zero else r.

(** The three sides of a face, as the rows and columns of [W1], [W2] and
    [W3] list them. *)
Definition face_sides (p : face) : list (nat * nat) :=
  [(p.1.2, p.2); (p.2, p.1.1); (p.1.1, p.1.2)].

Section surface.
Context (self : Surface).

(** [Surface.ppts] *)
Definition ppts : res (list tri3) := take_faces (pts self) (polys self).

(** The cotangent at the corner [o] between the edges to [a] and [b]. *)
Definition cot_at (o a b : vec3) : float64 :=
  div (dot (vsub a o) (vsub b o))
      (sqrt (sumsq (cross (vsub a o) (vsub b o)))).

(** [Surface.cotangent_weights] *)
Definition cotangent_weights : res (list float64 * list float64 * list float64) :=
  pp ← ppts;
  Ok (map (λ t : tri3, let '(p0, p1, p2) := t in cot_at p0 p1 p2) pp,
      map (λ t : tri3, let '(p0, p1, p2) := t in cot_at p1 p2 p0) pp,
      map (λ t : tri3, let '(p0, p1, p2) := t in cot_at p2 p0 p1) pp).

(** [coo_matrix((cots, (polys[:,a], polys[:,b])))] *)
Definition scatter (cots : list float64) (sel : face → nat * nat) : coo :=
  zip_with (λ p c, (sel p, c)) (polys self) cots.

(** The weighted adjacency matrix
    [(W1 + W1.T + W2 + W2.T + W3 + W3.T).tocsr() / 2.0]: Python adds the six
    matrices from left to right. *)
Definition adjacency (cots1 cots2 cots3 : list float64) : matrix :=
  let W1 := scatter cots1 (λ p, (p.1.2, p.2)) in
  let W2 := scatter cots2 (λ p, (p.2, p.1.1)) in
  let W3 := scatter cots3 (λ p, (p.1.1, p.1.2)) in
  λ i j,
    div
      (sparse_add
         (sparse_add
            (sparse_add
               (sparse_add
                  (sparse_add (csr_get W1 i j) (csr_get (coo_T W1) i j))
                  (csr_get W2 i j))
               (csr_get (coo_T W2) i j))
            (csr_get W3 i j))
         (csr_get (coo_T W3) i j))
      (of_Z 2).

(** The second component of [Surface.laplace_operator].  The mass [D] is
    computed first, and [self.connected] raises [ValueError] when a face
    names a vertex beyond [pts]; otherwise [D] does not enter [W]. *)
Definition laplace_operator_W : res matrix :=
  if decide (well_formed self) then
    '(cots1, cots2, cots3) ← cotangent_weights;
    Ok (adjacency cots1 cots2 cots3)
  else Raise ValueError.

(** How many sides of faces join [i] and [j], in either direction. *)
Definition sides (i j : nat) : nat :=
  length (filter (λ e, e = (i, j) ∨ e = (j, i)) (polys self ≫= face_sides)).

End surface.

(** Three triangles on the edge from vertex 0 to vertex 1; the second one
    is a sliver whose corner at vertex 3 has the cotangent [2 ** 53]. *)
Definition three_on_an_edge : Surface :=
  mkSurface
    [(zero, zero, zero); (of_Z 1, zero, zero); (zero, of_Z 1, zero);
     (of_Z 2, zero, pow2 (-52)); (zero, of_Z (-1), zero)]
    [(2, 0, 1); (1, 3, 0); (0, 4, 1)].

End B64.

(** * Properties *)

(** ** The error monad *)

Lemma bind_Ok {A B} (m : res A) (f : A → res B) (b : B) :
  m ≫= f = Ok b ↔ ∃ a, m = Ok a ∧ f a = Ok b.
Proof.
  destruct m as [a|e]; simpl; split.
  - eauto.
  - by intros (a' & [= <-] & ?).
  - done.
  - by intros (a' & ? & _).
Qed.

Lemma traverse_Ok_length {A B} (f : A → res B) (l : list A) (r : list B) :
  traverse f l = Ok r → length r = length l.
Proof.
  revert r. induction l as [|x l IH]; intros r; simpl.
  - by intros [= <-].
  - intros (y & _ & (ys & Hys & [= <-])%bind_Ok)%bind_Ok.
    simpl. f_equal. by apply IH.
Qed.

Lemma traverse_Ok_lookup {A B} (f : A → res B) (l : list A) (r : list B) i x :
  traverse f l = Ok r → l !! i = Some x → ∃ y, f x = Ok y ∧ r !! i = Some y.
Proof.
  revert r i. induction l as [|a l IH]; intros r i; simpl; [done|].
  intros (y & Hy & (ys & Hys & [= <-])%bind_Ok)%bind_Ok.
  destruct i as [|i]; simpl.
  - intros [= <-]. eauto.
  - eauto.
Qed.

Lemma traverse_all_Ok {A B} (f : A → res B) (g : A → B) (l : list A) :
  Forall (λ x, f x = Ok (g x)) l → traverse f l = Ok (map g l).
Proof.
  induction 1 as [|x l Hx _ IH]; simpl; [done|].
  by rewrite Hx, IH.
Qed.

Lemma getitem_Ok {A} (l : list A) i x : getitem l i = Ok x ↔ l !! i = Some x.
Proof. unfold getitem. destruct (l !! i); naive_solver. Qed.

Lemma getitem_lt {A} (l : list A) i : i < length l → ∃ x, getitem l i = Ok x.
Proof.
  intros [x Hx]%lookup_lt_is_Some. exists x. by apply getitem_Ok.
Qed.

(** ** Arithmetic of [fl] *)

Module FFacts.
Import F.

Lemma add_comm x y : add x y = add y x.
Proof. destruct x, y; simpl; try reflexivity. f_equal. lra. Qed.

Lemma add_assoc x y z : add x (add y z) = add (add x y) z.
Proof. destruct x, y, z; simpl; try reflexivity. f_equal. lra. Qed.

Lemma add_swap_r x y z : add (add x y) z = add (add x z) y.
Proof. by rewrite <- !add_assoc, (add_comm y z). Qed.

Lemma add_zero_r x : add x zero = x.
Proof. destruct x; simpl; try reflexivity. f_equal. lra. Qed.

Lemma add_zero_l x : add zero x = x.
Proof. by rewrite add_comm, add_zero_r. Qed.


Lemma eqb_refl_fin r : eqb (Fin r) (Fin r) = true.
Proof. simpl. by destruct (Req_dec_T r r). Qed.

Lemma eqb_zero x : eqb x zero = true ↔ x = zero.
Proof.
  unfold zero. destruct x; simpl; try (split; discriminate).
  destruct (Req_dec_T r 0); split; intros; try congruence; try done.
Qed.

End FFacts.

(** ** Well-formed meshes *)

Lemma take_faces_Ok pts polys :
  Forall (face_in_range (length pts)) polys → ∃ pp, take_faces pts polys = Ok pp.
Proof.
  unfold take_faces.
  induction 1 as [|[[a b] c] l Hp _ [pp IH]]; simpl; [by eexists|].
  unfold face_in_range in Hp; simpl in Hp.
  apply Forall_cons in Hp as [Ha Hp]. apply Forall_cons in Hp as [Hb Hp].
  apply Forall_cons in Hp as [Hc _].
  apply getitem_lt in Ha as [pa ->], Hb as [pb ->], Hc as [pc ->]. simpl.
  rewrite IH. simpl. by eexists.
Qed.

Lemma take_faces_in_range pts polys pp :
  take_faces pts polys = Ok pp → Forall (face_in_range (length pts)) polys.
Proof.
  unfold take_faces.
  revert pp. induction polys as [|[[a b] c] l IH]; intros pp; simpl; [done|].
  intros (y & Hy & (ys & Hys & _)%bind_Ok)%bind_Ok.
  apply bind_Ok in Hy as (pa & Ha & Hy). apply bind_Ok in Hy as (pb & Hb & Hy).
  apply bind_Ok in Hy as (pc & Hc & _).
  apply getitem_Ok, lookup_lt_Some in Ha, Hb, Hc.
  constructor; [|by eapply IH].
  unfold face_in_range. simpl. by repeat constructor.
Qed.

Lemma ppts_Ok self : well_formed self → ∃ pp, ppts self = Ok pp.
Proof. apply take_faces_Ok. Qed.

Lemma ppts_length self pp : ppts self = Ok pp → length pp = length (polys self).
Proof. apply traverse_Ok_length. Qed.

Lemma ppts_well_formed self pp : ppts self = Ok pp → well_formed self.
Proof. apply take_faces_in_range. Qed.

(** ** Face areas and the mass matrix *)

Lemma connected_Ok self :
  well_formed self →
  connected self = Ok (map (connected_row self) (seq 0 (length (pts self)))).
Proof. intros Hwf. unfold connected. by rewrite decide_True. Qed.

Lemma face_areas_Ok self pp :
  ppts self = Ok pp →
  face_areas self =
    Ok (map (λ t : tri3, magnitude (cross (vsub t.1.2 t.1.1) (vsub t.2 t.1.1))) pp).
Proof.
  intros Hpp. unfold face_areas, face_normals. rewrite Hpp. simpl.
  f_equal. rewrite map_map. apply map_ext. by intros [[p0 p1] p2].
Qed.



(** ** The weighted adjacency matrix with exact sums *)

Lemma coo_get_T (M : coo) i j : coo_get (coo_T M) i j = coo_get M j i.
Proof.
  unfold coo_get, coo_T. induction M as [|[[a b] x] M IH]; [done|].
  rewrite map_cons, !filter_cons. cbn [fst snd].
  destruct (decide ((b, a) = (i, j))) as [[= -> ->]|Hne].
  - rewrite decide_True by done. rewrite !map_cons. cbn [fst snd F.sum foldr].
    f_equal. apply IH.
  - rewrite decide_False by naive_solver. apply IH.
Qed.

(** Exact sums can be reordered, so the six terms of [W[i,j]] and of
    [W[j,i]] add up to the same number.  The sums of [float64] cannot:
    what the program computes is settled in binary64 below. *)
Lemma adjacency_symmetric self c1 c2 c3 i j :
  adjacency self c1 c2 c3 i j = adjacency self c1 c2 c3 j i.
Proof.
  unfold adjacency. f_equal. rewrite !coo_get_T.
  set (a := coo_get _ i j). set (a' := coo_get _ j i).
  set (b := coo_get _ i j). set (b' := coo_get _ j i).
  set (c := coo_get _ i j). set (c' := coo_get _ j i).
  rewrite (FFacts.add_comm a' a).
  rewrite (FFacts.add_swap_r _ c' c). do 2 f_equal.
  apply FFacts.add_swap_r.
Qed.

(** ** Symmetry of the weighted adjacency matrix in binary64 *)

Module B64Facts.
Import B64.

(** Rounded addition is commutative; it is not associative. *)
Lemma add64_comm x y : add x y = add y x.
Proof.
  unfold add.
  destruct x as [[]|[]| |sx mx ex], y as [[]|[]| |sy my ey]; try reflexivity.
  unfold SFadd. by rewrite (Z.min_comm ex ey), Z.add_comm.
Qed.

Lemma eqb_zero_cases r :
  (∃ s, r = S754_zero s) ∨ (eqb r zero = false ∧ ∀ s, add (S754_zero s) r = r).
Proof.
  destruct r as [s|[]| |[] m e]; [left; by exists s|right; split; [done|by intros []]..].
Qed.

Lemma sparse_add_comm a b : sparse_add a b = sparse_add b a.
Proof. unfold sparse_add. by rewrite add64_comm. Qed.

Lemma sparse_add_zero_zero : sparse_add zero zero = zero.
Proof. reflexivity. Qed.

Lemma sparse_add_cases a b :
  sparse_add a b = zero ∨
  (eqb (sparse_add a b) zero = false ∧ ∀ s, add (S754_zero s) (sparse_add a b) = sparse_add a b).
Proof.
  unfold sparse_add. destruct (eqb (add a b) zero) eqn:Hz; [by left|right].
  destruct (eqb_zero_cases (add a b)) as [[s Hs]|H]; [|done].
  rewrite Hs in Hz. by destruct s.
Qed.

Lemma sparse_add_zero_nonzero r :
  eqb r zero = false → (∀ s, add (S754_zero s) r = r) → sparse_add zero r = r.
Proof.
  intros Hz Hadd. unfold sparse_add. cbv zeta.
  change (add zero r) with (add (S754_zero false) r). by rewrite Hadd, Hz.
Qed.

(** Adding a missing entry to a stored sum leaves it as it is. *)
Lemma sparse_add_stored_zero a b : sparse_add (sparse_add a b) zero = sparse_add a b.
Proof.
  destruct (sparse_add_cases a b) as [->|[Hz Hadd]]; [done|].
  rewrite sparse_add_comm. by apply sparse_add_zero_nonzero.
Qed.

(** A value that first met a missing entry adds like the value itself. *)
Lemma sparse_add_zero_l x y : sparse_add (sparse_add zero x) y = sparse_add x y.
Proof.
  destruct (eqb_zero_cases x) as [[s ->]|[Hz Hadd]].
  - replace (sparse_add zero (S754_zero s)) with zero by (by destruct s).
    destruct (eqb_zero_cases y) as [[s' ->]|[Hz' Hadd']].
    + by destruct s, s'.
    + unfold sparse_add, zero. by rewrite !Hadd'.
  - by rewrite (sparse_add_zero_nonzero x).
Qed.

Lemma sparse_add_zero_r x y : sparse_add (sparse_add x zero) y = sparse_add x y.
Proof. rewrite (sparse_add_comm x zero). apply sparse_add_zero_l. Qed.

(** The six terms of one entry, added from left to right. *)
Lemma six_terms_swap (a1 b1 a2 b2 a3 b3 : list float64) :
  length a1 + length b1 + length a2 + length b2 + length a3 + length b3 ≤ 2 →
  let v := sum_duplicates in
  sparse_add (sparse_add (sparse_add (sparse_add (sparse_add
    (v a1) (v b1)) (v a2)) (v b2)) (v a3)) (v b3) =
  sparse_add (sparse_add (sparse_add (sparse_add (sparse_add
    (v b1) (v a1)) (v b2)) (v a2)) (v b3)) (v a3).
Proof.
  intros H v. subst v.
  destruct a1 as [|? [|? [|]]]; cbn [length] in H; try lia;
  destruct b1 as [|? [|? [|]]]; cbn [length] in H; try lia;
  destruct a2 as [|? [|? [|]]]; cbn [length] in H; try lia;
  destruct b2 as [|? [|? [|]]]; cbn [length] in H; try lia;
  destruct a3 as [|? [|? [|]]]; cbn [length] in H; try lia;
  destruct b3 as [|? [|? [|]]]; cbn [length] in H; try lia;
  clear H; cbn [sum_duplicates foldl];
  repeat first [rewrite sparse_add_zero_zero | rewrite sparse_add_stored_zero
               | rewrite sparse_add_zero_l | rewrite sparse_add_zero_r];
  first [reflexivity | apply sparse_add_comm].
Qed.

Lemma stored_T (M : coo) i j : stored (coo_T M) i j = stored M j i.
Proof.
  unfold stored, coo_T. induction M as [|[[a b] x] M IH]; [done|].
  rewrite map_cons, !filter_cons. cbn [fst snd].
  destruct (decide ((b, a) = (i, j))) as [[= -> ->]|Hne].
  - rewrite decide_True by done. rewrite !fmap_cons. cbn [snd]. f_equal. apply IH.
  - rewrite decide_False by naive_solver. apply IH.
Qed.

(** A position of [coo_matrix((cots, (rows, cols)))] stores at most one
    value for every face whose side it is. *)
Lemma stored_scatter_length self cots sel x :
  length (stored (scatter self cots sel) x.1 x.2) ≤
  length (filter (λ p, sel p = x) (polys self)).
Proof.
  unfold stored, scatter. rewrite length_fmap. destruct x as [i j]. cbn [fst snd].
  generalize (polys self). intros ps. revert cots.
  induction ps as [|p ps IH]; intros [|c cots]; cbn [zip_with]; try (rewrite filter_nil; simpl; lia).
  rewrite !filter_cons. cbn [fst snd]. specialize (IH cots).
  destruct (decide (sel p = (i, j))); simpl; lia.
Qed.

Lemma sides_one_direction (ps : list face) x :
  length (filter (λ p : face, (p.1.2, p.2) = x) ps) +
  length (filter (λ p : face, (p.2, p.1.1) = x) ps) +
  length (filter (λ p : face, (p.1.1, p.1.2) = x) ps) =
  length (filter (λ e, e = x) (ps ≫= face_sides)).
Proof.
  induction ps as [|p ps IH]; [done|].
  rewrite bind_cons, filter_app, length_app, <- IH. unfold face_sides.
  rewrite !filter_cons, filter_nil.
  destruct (decide ((p.1.2, p.2) = x)), (decide ((p.2, p.1.1) = x)),
    (decide ((p.1.1, p.1.2) = x)); simpl; lia.
Qed.

Lemma filter_either (l : list (nat * nat)) i j :
  i ≠ j →
  length (filter (λ e, e = (i, j)) l) + length (filter (λ e, e = (j, i)) l) =
  length (filter (λ e, e = (i, j) ∨ e = (j, i)) l).
Proof.
  intros Hij. induction l as [|e l IH]; [done|].
  rewrite !filter_cons.
  destruct (decide (e = (i, j))) as [H1|H1], (decide (e = (j, i))) as [H2|H2].
  - by simplify_eq.
  - rewrite decide_True by auto. simpl. lia.
  - rewrite decide_True by auto. simpl. lia.
  - rewrite decide_False by tauto. done.
Qed.

Lemma adjacency_symmetric_two_sides self c1 c2 c3 i j :
  sides self i j ≤ 2 → adjacency self c1 c2 c3 i j = adjacency self c1 c2 c3 j i.
Proof.
  intros Hs. destruct (decide (i = j)) as [->|Hij]; [done|].
  unfold adjacency. cbv zeta. f_equal. unfold csr_get. rewrite !stored_T.
  apply six_terms_swap.
  unfold sides in Hs. rewrite <- (filter_either _ i j Hij) in Hs.
  rewrite <- !sides_one_direction in Hs.
  pose proof (stored_scatter_length self c1 (λ p, (p.1.2, p.2)) (i, j)).
  pose proof (stored_scatter_length self c1 (λ p, (p.1.2, p.2)) (j, i)).
  pose proof (stored_scatter_length self c2 (λ p, (p.2, p.1.1)) (i, j)).
  pose proof (stored_scatter_length self c2 (λ p, (p.2, p.1.1)) (j, i)).
  pose proof (stored_scatter_length self c3 (λ p, (p.1.1, p.1.2)) (i, j)).
  pose proof (stored_scatter_length self c3 (λ p, (p.1.1, p.1.2)) (j, i)).
  cbn [fst snd] in *. lia.
Qed.

Lemma take_faces64_Ok pts polys :
  Forall (face_in_range (length pts)) polys → ∃ pp, take_faces pts polys = Ok pp.
Proof.
  unfold take_faces.
  induction 1 as [|[[a b] c] l Hp _ [pp IH]]; simpl; [by eexists|].
  unfold face_in_range in Hp; simpl in Hp.
  apply Forall_cons in Hp as [Ha Hp]. apply Forall_cons in Hp as [Hb Hp].
  apply Forall_cons in Hp as [Hc _].
  apply getitem_lt in Ha as [pa ->], Hb as [pb ->], Hc as [pc ->]. simpl.
  rewrite IH. simpl. by eexists.
Qed.

End B64Facts.

(** C4.  In binary64 arithmetic, on a well-formed mesh [laplace_operator]
    returns, and the weighted adjacency matrix [W] it returns has
    [W[i,j] = W[j,i]] for every pair of vertices that is a side of at most
    two faces: on a mesh where no edge lies on three faces, [W] is exactly
    symmetric. *)
Theorem laplace_W_symmetric_two_faces (self : B64.Surface) :
  B64.well_formed self →
  ∃ W, B64.laplace_operator_W self = Ok W ∧
       ∀ i j, B64.sides self i j ≤ 2 → W i j = W j i.
Proof.
  intros Hwf. destruct (B64Facts.take_faces64_Ok _ _ Hwf) as [pp Hpp].
  unfold B64.laplace_operator_W, B64.cotangent_weights, B64.ppts.
  rewrite decide_True by done. rewrite Hpp. simpl.
  eexists. split; [reflexivity|].
  intros i j. apply B64Facts.adjacency_symmetric_two_sides.
Qed.

Lemma laplace_W_symmetric_two_faces_witness :
  B64.well_formed B64.three_on_an_edge ∧
  B64.sides B64.three_on_an_edge 0 2 = 1 ∧
  ∃ W, B64.laplace_operator_W B64.three_on_an_edge = Ok W ∧
       ∀ i j, B64.sides B64.three_on_an_edge i j ≤ 2 → W i j = W j i.
Proof.
  assert (B64.well_formed B64.three_on_an_edge) as Hwf
    by (apply (bool_decide_unpack _); vm_compute; exact I).
  split; [exact Hwf|]. split; [reflexivity|].
  exact (laplace_W_symmetric_two_faces B64.three_on_an_edge Hwf).
Defined.

Lemma three_on_an_edge_cots :
  B64.cotangent_weights B64.three_on_an_edge =
    Ok ([B64.of_Z 1; B64.of_Z (- 2 ^ 52); B64.zero],
        [B64.zero; B64.pow2 53; B64.of_Z 1],
        [B64.of_Z 1; B64.pow2 53; B64.of_Z 1]).
Proof. vm_compute. reflexivity. Qed.

(** With three faces on the edge from vertex 0 to vertex 1, the three
    cotangents [1], [2 ** 53] and [1] are added as [(1 + 2 ** 53) + 1] for
    [W[0,1]] and as [(1 + 1) + 2 ** 53] for [W[1,0]]: the first sum rounds
    to [2 ** 53] twice, the second is exact, and the two entries differ. *)
Lemma laplace_W_three_faces_asymmetric :
  B64.well_formed B64.three_on_an_edge ∧
  B64.sides B64.three_on_an_edge 0 1 = 3 ∧
  ∃ W, B64.laplace_operator_W B64.three_on_an_edge = Ok W ∧
       W 0 1 = B64.pow2 52 ∧
       W 1 0 = B64.of_Z (2 ^ 52 + 1) ∧
       W 0 1 ≠ W 1 0 ∧
       B64.eqb (W 0 1) (W 1 0) = false.
Proof.
  assert (B64.well_formed B64.three_on_an_edge) as Hwf
    by (apply (bool_decide_unpack _); vm_compute; exact I).
  split; [exact Hwf|]. split; [vm_compute; reflexivity|].
  exists (B64.adjacency B64.three_on_an_edge
            [B64.of_Z 1; B64.of_Z (- 2 ^ 52); B64.zero]
            [B64.zero; B64.pow2 53; B64.of_Z 1]
            [B64.of_Z 1; B64.pow2 53; B64.of_Z 1]).
  split.
  { unfold B64.laplace_operator_W. rewrite decide_True by exact Hwf.
    rewrite three_on_an_edge_cots. reflexivity. }
  split; [vm_compute; reflexivity|]. split; [vm_compute; reflexivity|].
  split; [vm_compute; discriminate|vm_compute; reflexivity].
Qed.

(** ** Evaluating [fl] arithmetic on finite values *)

Lemma sqrt_fin_eq r s : (0 <= s)%R → r = (s * s)%R → F.sqrt (Fin r) = Fin s.
Proof.
  intros Hs ->. unfold F.sqrt. destruct (Rlt_dec (s * s) 0) as [H|_]; [nra|].
  by rewrite sqrt_square.
Qed.

Lemma div_fin_eq a b c : b ≠ 0%R → (a / b)%R = c → F.div (Fin a) (Fin b) = Fin c.
Proof. intros Hb <-. unfold F.div. by destruct (Req_dec_T b 0). Qed.

Lemma ln_2_pos : (0 < ln 2)%R.
Proof. rewrite <- ln_1. apply ln_increasing; lra. Qed.

Lemma log2_fin_two : F.log2 (Fin 2) = Fin 1.
Proof.
  unfold F.log2. destruct (Rlt_dec 2 0); [lra|]. destruct (Req_dec_T 2 0); [lra|].
  f_equal. pose proof ln_2_pos. by field_simplify_eq; [|lra].
Qed.

Lemma log2_fin_half : F.log2 (Fin (/ 2)) = Fin (-1).
Proof.
  unfold F.log2. destruct (Rlt_dec (/ 2) 0); [lra|]. destruct (Req_dec_T (/ 2) 0); [lra|].
  f_equal. rewrite ln_Rinv by lra. pose proof ln_2_pos. by field_simplify_eq; [|lra].
Qed.

Lemma eqb_fin_ne r s : r ≠ s → F.eqb (Fin r) (Fin s) = false.
Proof. intros. simpl. by destruct (Req_dec_T r s). Qed.

(** ** [Distortion.areal] *)

Lemma area_length pts polys l : Distortion.area pts polys = Ok l → length l = length polys.
Proof.
  unfold Distortion.area. intros (pp & Hpp & [= <-])%bind_Ok.
  rewrite length_map. by eapply traverse_Ok_length.
Qed.

Lemma area_Ok pts polys :
  Forall (face_in_range (length pts)) polys → ∃ l, Distortion.area pts polys = Ok l.
Proof.
  intros [pp Hpp]%take_faces_Ok. unfold Distortion.area. rewrite Hpp. simpl. by eexists.
Qed.

Lemma length_iadd_at v idx x : length (Distortion.iadd_at v idx x) = length v.
Proof.
  unfold Distortion.iadd_at. generalize (zip idx (zip_with F.add (take_rows v idx) x)).
  intros l. revert v. induction l as [|[i t] l IH]; intros v; simpl; [done|].
  by rewrite IH, length_insert.
Qed.

Lemma length_vertsums self tridists :
  length (Distortion.vertsums self tridists) = length (Distortion.ref self).
Proof. unfold Distortion.vertsums. by rewrite !length_iadd_at, length_replicate. Qed.

(** A per-vertex array and counts that do not have the same length, the
    counts not being a single one, cannot be divided. *)
Lemma areal_shape_error self ra fa :
  Distortion.area (Distortion.ref self) (Distortion.polys self) = Ok ra →
  Distortion.area (Distortion.flat self) (Distortion.polys self) = Ok fa →
  length (Distortion.bincount (Distortion.polys self)) ≠ length (Distortion.ref self) →
  length (Distortion.bincount (Distortion.polys self)) ≠ 1 →
  Distortion.areal self = Raise ValueError.
Proof.
  intros Hra Hfa Hne Hne1. unfold Distortion.areal. rewrite Hra, Hfa. simpl.
  unfold Distortion.idiv. rewrite length_vertsums.
  rewrite decide_False by done.
  destruct (Distortion.bincount (Distortion.polys self)) as [|c [|c' l]]; simpl in *; done.
Qed.

(** C7 (failing input).  Flat and reference embedding are the same four
    points and the one face uses the first three: [areal] does not return
    ones, it raises [ValueError], because [np.bincount] stops at the highest
    vertex id in use and so has three entries for an array of four. *)
Theorem areal_identical_unused_last_vertex :
  Distortion.areal (Distortion.mk (pts unit_triangle ++ [(Fin 1, Fin 1, Fin 0)])
            (pts unit_triangle ++ [(Fin 1, Fin 1, Fin 0)])
            [(0, 1, 2)]) = Raise ValueError.
Proof.
  edestruct (area_Ok (pts unit_triangle ++ [(Fin 1, Fin 1, Fin 0)]) [(0, 1, 2)])
    as [ra Hra].
  { repeat constructor; simpl; lia. }
  eapply areal_shape_error; simpl; try exact Hra; vm_compute; lia.
Qed.

Lemma zn_add x y : zn x → zn y → zn (F.add x y).
Proof.
  intros [->| ->] [->| ->]; unfold zn, F.zero; simpl; auto.
  left. f_equal. lra.
Qed.

Lemma zn_log2_self a : zn (F.log2 (F.div a a)).
Proof.
  destruct a as [r| | |]; simpl; try (by right).
  destruct (Req_dec_T r 0) as [->|Hr].
  - right. unfold F.inf_times. by repeat (destruct (Rlt_dec _ _); try lra).
  - left. unfold F.log2. replace (r / r)%R with 1%R by (by field).
    destruct (Rlt_dec 1 0); [lra|]. destruct (Req_dec_T 1 0); [lra|].
    unfold F.zero. f_equal. rewrite ln_1. lra.
Qed.

Lemma zn_div_count x c : zn x → zn (F.div x (F.of_nat c)).
Proof.
  intros [->| ->]; [|by right]. unfold F.of_nat, F.zero, F.div.
  destruct (Req_dec_T (INR c) 0) as [_|Hc].
  - right. unfold F.inf_times. by repeat (destruct (Rlt_dec _ _); try lra).
  - left. unfold F.zero. f_equal. by field.
Qed.

Lemma zn_remap x : zn x → (if F.eqb (F.nan_to_num x) F.zero then F.one else F.nan_to_num x) = F.one.
Proof. intros [->| ->]; simpl; by destruct (Req_dec_T 0 0). Qed.

Lemma Forall_zn_insert (v : vector) i x : Forall zn v → zn x → Forall zn (<[i := x]> v).
Proof. intros. by apply Forall_insert. Qed.

Lemma Forall_zn_take v idx : Forall zn v → Forall zn (take_rows v idx).
Proof.
  intros Hv. unfold take_rows. apply Forall_forall. intros x [i [-> _]]%list_elem_of_fmap.
  destruct (v !! i) as [y|] eqn:Hy; simpl.
  - eapply Forall_lookup_1; eauto.
  - by left.
Qed.

Lemma Forall_zn_iadd_at v idx x :
  Forall zn v → Forall zn x → Forall zn (Distortion.iadd_at v idx x).
Proof.
  intros Hv Hx. unfold Distortion.iadd_at.
  assert (Forall zn (zip_with F.add (take_rows v idx) x)) as Htmp.
  { pose proof (Forall_zn_take v idx Hv) as Ht. revert x Hx.
    induction Ht as [|a l Ha _ IH]; intros [|b x] Hx; simpl; try constructor.
    - apply zn_add; [done|]. by inversion Hx.
    - apply IH. by inversion Hx. }
  revert Htmp. generalize (zip_with F.add (take_rows v idx) x). intros tmp Htmp.
  revert v tmp Hv Htmp. induction idx as [|i idx IH]; intros v [|t tmp] Hv Htmp; simpl; try done.
  apply IH; [|by inversion Htmp]. apply Forall_insert; [done|]. by inversion Htmp.
Qed.

(** Where [areal] returns for identical embeddings, it returns 1 at every
    vertex. *)
Lemma areal_identical pts polys v :
  Distortion.areal (Distortion.mk pts pts polys) = Ok v →
  length v = length pts ∧ Forall (λ x, x = F.one) v.
Proof.
  unfold Distortion.areal. simpl. intros (ra & Hra & H)%bind_Ok. rewrite Hra in H. simpl in H.
  apply bind_Ok in H as (w & Hw & [= <-]).
  set (tridists := zip_with _ ra ra) in *.
  assert (Forall zn tridists) as Htri.
  { subst tridists. clear. induction ra as [|a ra IH]; simpl; constructor; [|done].
    apply zn_log2_self. }
  assert (Forall zn (Distortion.vertsums (Distortion.mk pts pts polys) tridists)) as Hsum.
  { unfold Distortion.vertsums. repeat apply Forall_zn_iadd_at; try done.
    simpl. apply Forall_replicate. by left. }
  assert (length w = length pts ∧ Forall zn w) as [Hlen Hzn].
  { pose proof (length_vertsums (Distortion.mk pts pts polys) tridists) as Hl. simpl in Hl.
    revert Hw Hsum Hl. generalize (Distortion.vertsums (Distortion.mk pts pts polys) tridists). intros s.
    unfold Distortion.idiv. destruct (decide _) as [Heq|Hne].
    - intros [= <-] Hs Hl. split.
      + rewrite length_zip_with. lia.
      + revert Hs. generalize (Distortion.bincount polys). clear. intros cs Hs. revert cs.
        induction Hs as [|x s Hx _ IH]; intros [|c cs]; simpl; constructor.
        * by apply zn_div_count.
        * apply IH.
    - destruct (Distortion.bincount polys) as [|c [|]]; try done. intros [= <-] Hs Hl. split.
      + by rewrite length_map.
      + clear -Hs. induction Hs; simpl; constructor; [by apply zn_div_count|done]. }
  split; [by rewrite !length_map|].
  rewrite map_map. apply Forall_forall. intros x [y [-> Hy]]%list_elem_of_fmap.
  apply zn_remap. eapply Forall_forall in Hzn; eauto.
Qed.

(** The returned array holds neither 0 nor [nan]. *)
Lemma areal_never_zero self v :
  Distortion.areal self = Ok v → Forall (λ x, x ≠ F.zero ∧ x ≠ NaN) v.
Proof.
  unfold Distortion.areal. intros (ra & _ & (fa & _ & (w & _ & [= <-])%bind_Ok)%bind_Ok)%bind_Ok.
  rewrite map_map. apply Forall_forall. intros x [y [-> _]]%list_elem_of_fmap.
  destruct (F.eqb (F.nan_to_num y) F.zero) eqn:E.
  - unfold F.one, F.zero. split; [|done]. intros [= ?]. lra.
  - split.
    + intros Hz. rewrite Hz in E. unfold F.zero in E. by rewrite FFacts.eqb_refl_fin in E.
    + by destruct y.
Qed.

Lemma fan_ref_area : Distortion.area fan_ref fan = Ok [Fin 1; Fin 1].
Proof.
  unfold Distortion.area, take_faces, fan_ref, fan.
  cbn [traverse getitem lookup list_lookup mbind res_bind map].
  unfold magnitude. cbn [cross vsub sumsq F.sq F.mul F.sub F.add F.neg].
  rewrite !(sqrt_fin_eq _ 1) by lra. done.
Qed.

Lemma fan_flat_area : Distortion.area fan_flat fan = Ok [Fin 2; Fin (/ 2)].
Proof.
  unfold Distortion.area, take_faces, fan_flat, fan.
  cbn [traverse getitem lookup list_lookup mbind res_bind map].
  unfold magnitude. cbn [cross vsub sumsq F.sq F.mul F.sub F.add F.neg].
  rewrite (sqrt_fin_eq _ 2) by lra. rewrite (sqrt_fin_eq _ (/ 2)) by lra. done.
Qed.

Lemma fan_tridists :
  zip_with (λ f r, F.log2 (F.div f r)) [Fin 2; Fin (/ 2)] [Fin 1; Fin 1]
  = [Fin 1; Fin (-1)].
Proof.
  cbn [zip_with].
  rewrite (div_fin_eq 2 1 2), (div_fin_eq (/ 2) 1 (/ 2)) by lra.
  by rewrite log2_fin_two, log2_fin_half.
Qed.

(** C10 (failing input).  On the fan, vertex 0 is the first corner of both
    faces; their log ratios are 1 and -1, so the average over the faces
    around vertex 0 is exactly 0 ([mean_ratio]).  [areal] reports -1/2 there,
    not 1: the second [+=] into position 0 overwrites the first. *)
Theorem areal_same_corner_overwritten :
  Distortion.area fan_ref fan = Ok [Fin 1; Fin 1] ∧
  Distortion.area fan_flat fan = Ok [Fin 2; Fin (/ 2)] ∧
  zip_with (λ f r, F.log2 (F.div f r)) [Fin 2; Fin (/ 2)] [Fin 1; Fin 1]
    = [Fin 1; Fin (-1)] ∧
  mean_ratio fan [Fin 1; Fin (-1)] 0 = F.zero ∧
  Distortion.areal (Distortion.mk fan_flat fan_ref fan)
    = Ok [Fin (-1 / 2); Fin 1; Fin 1; Fin (-1)].
Proof.
  split_and!; [apply fan_ref_area|apply fan_flat_area|apply fan_tridists| |].
  - unfold mean_ratio, fan. cbn.
    repeat (case_decide; try lia). cbn [app foldr length F.add F.zero].
    unfold F.of_nat. apply div_fin_eq; simpl; lra.
  - unfold Distortion.areal. cbn [Distortion.ref Distortion.flat Distortion.polys].
    rewrite fan_ref_area, fan_flat_area. cbn [mbind res_bind]. rewrite fan_tridists.
    unfold Distortion.vertsums, Distortion.iadd_at, fan, fan_ref, take_rows.
    cbn [Distortion.ref Distortion.polys length replicate map fst snd zip zip_with
         lookup list_lookup default foldl insert list_insert F.add F.zero id from_option].
    change (Distortion.bincount _) with [2; 1; 2; 1].
    unfold Distortion.idiv. cbn [length decide_rel zip_with mbind res_bind F.of_nat].
    rewrite decide_True by done. cbn [zip_with mbind res_bind].
    unfold Datatypes.id, F.zero, F.of_nat. cbn [F.add].
    rewrite (div_fin_eq _ (INR 2) (-1 / 2)) by (simpl; lra).
    rewrite (div_fin_eq _ (INR 1) 1) by (simpl; lra).
    rewrite (div_fin_eq _ (INR 2) 0) by (simpl; lra).
    rewrite (div_fin_eq _ (INR 1) (-1)) by (simpl; lra).
    cbn [map F.nan_to_num]. rewrite FFacts.eqb_refl_fin.
    rewrite !eqb_fin_ne by lra. done.
Qed.

(** ** [Surface.patches] with an unsupported granularity *)

Lemma patch_at_no_faces self aux n p : patch_at self aux n p [] = Ok None.
Proof. done. Qed.

Lemma patch_at_unsupported self aux n p faces :
  faces ≠ [] → Qeq_bool n 1 = false → Qeq_bool n (1 # 2) = false →
  patch_at self aux n p faces = Raise ValueError.
Proof.
  intros Hf H1 H2. unfold patch_at. destruct faces; [done|]. by rewrite H1, H2.
Qed.

Lemma indices_nil row : indices row = [] ↔ row = [].
Proof. unfold indices. by destruct row. Qed.

Section unsupported.
Context (self : Surface) (aux : option (list vec3)) (n : Q).
Context (Hn1 : Qeq_bool n 1 = false) (Hn2 : Qeq_bool n (1 # 2) = false).

Lemma run_gen_all_isolated (l : list (nat * list (nat * nat))) :
  Forall (λ pr, pr.2 = []) l →
  run_gen (λ pr, patch_at self aux n pr.1 (indices pr.2)) l = mkGen (replicate (length l) None) None.
Proof.
  induction 1 as [|[p row] l Hrow _ IH]; simpl; [done|].
  simpl in Hrow. subst row. simpl. by rewrite IH.
Qed.

Lemma run_gen_first_face (l1 l2 : list (nat * list (nat * nat))) pr :
  Forall (λ pr, pr.2 = []) l1 → pr.2 ≠ [] →
  run_gen (λ pr, patch_at self aux n pr.1 (indices pr.2)) (l1 ++ pr :: l2) = mkGen (replicate (length l1) None) (Some ValueError).
Proof.
  intros Hl1 Hpr. induction Hl1 as [|[p row] l Hrow _ IH]; simpl.
  - rewrite patch_at_unsupported; [done| |done|done].
    by rewrite indices_nil.
  - simpl in Hrow. subst row. simpl. by rewrite IH.
Qed.

End unsupported.

Lemma imap_pair_split {A} (l : list A) v x :
  l !! v = Some x →
  imap pair l = imap pair (take v l) ++ (v, x) :: imap (pair ∘ (λ i, S v + i)) (drop (S v) l).
Proof.
  intros Hv. rewrite <- (take_drop_middle l v x Hv) at 1.
  rewrite imap_app. simpl. rewrite length_take_le by (apply lookup_lt_Some in Hv; lia).
  f_equal. rewrite Nat.add_0_r. f_equal. apply imap_ext. intros. simpl. f_equal. lia.
Qed.

(** C8 (amended).  With a granularity other than 1 and 0.5, [patches] yields
    [None] for every vertex that comes before the first vertex with a face
    and raises [ValueError] on reaching that vertex; on a mesh in which no
    vertex has a face it yields [None] for every vertex and raises nothing. *)
Theorem patches_unsupported_granularity self aux n conn :
  connected self = Ok conn →
  Qeq_bool n 1 = false → Qeq_bool n (1 # 2) = false →
  (Forall (λ row, row = []) conn →
   patches self aux n = mkGen (replicate (length conn) None) None) ∧
  (∀ v row, conn !! v = Some row → row ≠ [] →
            (∀ u, u < v → conn !! u = Some []) →
            patches self aux n = mkGen (replicate v None) (Some ValueError)).
Proof.
  intros Hconn H1 H2. unfold patches. rewrite Hconn. split.
  - intros Hall. rewrite run_gen_all_isolated; try done.
    + by rewrite length_imap.
    + apply Forall_forall. intros [i row] Hin.
      apply list_elem_of_lookup in Hin as [k Hk].
      rewrite list_lookup_imap in Hk.
      destruct (conn !! k) as [r|] eqn:Hr; simplify_eq/=.
      eapply Forall_lookup_1 in Hall; eauto.
  - intros v row Hv Hrow Hbefore.
    rewrite (imap_pair_split conn v row Hv).
    rewrite run_gen_first_face; try done.
    + rewrite length_imap, length_take_le; [done|]. apply lookup_lt_Some in Hv. lia.
    + apply Forall_forall. intros [i r] Hin.
      apply list_elem_of_lookup in Hin as [k Hk].
      rewrite list_lookup_imap in Hk.
      destruct (take v conn !! k) as [r'|] eqn:Hr; simplify_eq/=.
      apply lookup_take_Some in Hr as [Hr Hlt].
      rewrite Hbefore in Hr by done. by simplify_eq.
Qed.

(** C8 (counterexample).  On a mesh of one vertex and no face, [patches]
    with granularity 2 yields [None] and ends without an error. *)
Lemma patches_lone_vertex_no_error :
  patches lone_vertex None 2 = mkGen [None] None.
Proof. reflexivity. Qed.

Lemma patches_unsupported_granularity_witness :
  connected offset_triangle = Ok [[]; [(0, 1)]; [(0, 1)]; [(0, 1)]] ∧
  Qeq_bool 2 1 = false ∧ Qeq_bool 2 (1 # 2) = false ∧
  patches offset_triangle None 2 = mkGen [None] (Some ValueError).
Proof.
  split_and!; [reflexivity..|].
  refine (proj2 (patches_unsupported_granularity offset_triangle None 2 _ _ _ _)
                1 [(0, 1)] _ _ _); try reflexivity; try done.
  intros u Hu. by replace u with 0 by lia.
Defined.

(** ** [Surface.smooth] *)

Lemma sum_perm (l l' : vector) : l ≡ₚ l' → F.sum l = F.sum l'.
Proof.
  induction 1 as [|x l l' _ IH|x y l|l l' l'' _ IH1 _ IH2]; simpl.
  - done.
  - by rewrite IH.
  - by rewrite !FFacts.add_assoc, (FFacts.add_comm y x).
  - by rewrite IH1.
Qed.

Lemma polys_lookup_in_range self f p v :
  well_formed self → polys self !! f = Some p → v ∈ face_verts p →
  v < length (pts self).
Proof.
  intros Hwf Hf Hv. eapply Forall_lookup_1 in Hwf; [|done].
  unfold face_in_range in Hwf. by eapply Forall_forall in Hwf.
Qed.

Lemma getpts_in_range self conn n pt q :
  well_formed self → q ∈ getpts self conn n pt → q < length (pts self).
Proof.
  intros Hwf. revert pt q. induction n as [|n IH]; intros pt q; simpl.
  - intros (f & Hq & _)%list_elem_of_bind.
    apply list_elem_of_bind in Hq as (w & Hq & Hw).
    apply list_elem_of_singleton in Hq as ->.
    destruct (polys self !! f) as [p|] eqn:Hp; simpl in Hw; [|by apply elem_of_nil in Hw].
    by eapply polys_lookup_in_range.
  - intros (f & Hq & _)%list_elem_of_bind.
    apply list_elem_of_bind in Hq as (w & Hq & Hw). by eapply IH.
Qed.

Lemma traverse_getitem_Ok {A} (d : A) (l : list A) (js : list nat) :
  Forall (λ j, j < length l) js →
  traverse (getitem l) js = Ok (map (λ j, default d (l !! j)) js).
Proof.
  intros Hjs. apply traverse_all_Ok. eapply Forall_impl; [done|].
  intros j [x Hx]%lookup_lt_is_Some. simpl. unfold getitem. by rewrite Hx.
Qed.

Lemma zip_with_map_l {A B C} (f : B → A → C) (g : A → B) (l : list A) :
  zip_with f (map g l) l = map (λ x, f (g x) x) l.
Proof. induction l; simpl; congruence. Qed.

Section smooth_facts.
Context (self : Surface) (set_iter : gset nat → list nat).
Context (Hiter : set_order_spec set_iter).
Context (Hwf : well_formed self).

Lemma gathered_in_range nb i j : j ∈ gathered self nb i → j < length (pts self).
Proof.
  unfold gathered. rewrite elem_of_list_to_set. by apply getpts_in_range.
Qed.

Lemma smooth_at_Ok scalars nb bw i val :
  length scalars = length (pts self) →
  scalars !! i = Some val →
  smooth_at self set_iter scalars nb bw i =
    Ok (match elements (gathered self nb i) with
        | [] => F.zero
        | _ => mean_of_weighted val bw
                 (map (λ j, default F.zero (scalars !! j)) (elements (gathered self nb i)))
        end).
Proof.
  intros Hlen Hval. unfold smooth_at.
  rewrite (proj2 (getitem_Ok scalars i val) Hval). simpl.
  rewrite (connected_Ok self Hwf). simpl. fold (conn_rows self). fold (gathered self nb i).
  pose proof (Hiter (gathered self nb i)) as Hperm.
  destruct (set_iter (gathered self nb i)) as [|a L] eqn:HL.
  { apply Permutation_nil_l in Hperm. by rewrite <- Hperm. }
  destruct (elements (gathered self nb i)) as [|b N] eqn:HN.
  { by apply Permutation_nil_r in Hperm. }
  rewrite <- HL, <- HN in *. clear a L HL b N HN.
  rewrite (traverse_getitem_Ok F.zero).
  2:{ apply Forall_forall. intros j Hj. rewrite Hlen. apply (gathered_in_range nb i).
      rewrite Hperm in Hj. by apply elem_of_elements in Hj. }
  simpl. f_equal. unfold F.mean, mean_of_weighted.
  rewrite zip_with_map_l, !length_map.
  f_equal.
  - apply sum_perm. by rewrite Hperm.
  - by rewrite Hperm.
Qed.

End smooth_facts.

Lemma smooth_Ok self set_iter scalars nb bw :
  set_order_spec set_iter → well_formed self →
  length scalars = length (pts self) →
  ∃ out, smooth self set_iter scalars nb bw = Ok out ∧
         length out = length scalars ∧
         ∀ i val, scalars !! i = Some val →
           out !! i =
             Some (match elements (gathered self nb i) with
                   | [] => F.zero
                   | _ => mean_of_weighted val bw
                            (map (λ j, default F.zero (scalars !! j))
                                 (elements (gathered self nb i)))
                   end).
Proof.
  intros Hiter Hwf Hlen. unfold smooth. rewrite decide_True by done.
  eexists. split_and!.
  - apply (traverse_all_Ok _
      (λ i, match elements (gathered self nb i) with
            | [] => F.zero
            | _ => mean_of_weighted (default F.zero (scalars !! i)) bw
                     (map (λ j, default F.zero (scalars !! j))
                          (elements (gathered self nb i)))
            end)).
    apply Forall_forall. intros i Hi. apply elem_of_seq in Hi as [_ Hi]. simpl in Hi.
    destruct (lookup_lt_is_Some_2 scalars i Hi) as [val Hval].
    rewrite Hval. simpl. by apply smooth_at_Ok.
  - by rewrite length_map, length_seq.
  - intros i val Hval. rewrite list_lookup_fmap.
    rewrite lookup_seq_lt by (by eapply lookup_lt_Some). simpl. by rewrite Hval.
Qed.

Lemma gauss_fin v bw s :
  bw ≠ 0%R →
  gauss (Fin v) bw (Fin s) = Fin (exp (- ((s - v) * (s - v)) / (2 * bw ^ 2))).
Proof.
  intros Hbw. unfold gauss. cbn [F.sub F.neg F.add F.sq F.mul].
  rewrite (div_fin_eq _ _ (- ((s - v) * (s - v)) / (2 * bw ^ 2))); [done| |].
  - assert (0 < bw ^ 2)%R by (simpl; nra). lra.
  - done.
Qed.

Lemma gathered_unit_triangle : elements (gathered unit_triangle 2 0) = [2; 1; 0].
Proof. vm_compute. reflexivity. Qed.

Lemma elements_order_spec : set_order_spec elements.
Proof. by intros X. Qed.

Lemma unit_triangle_well_formed : well_formed unit_triangle.
Proof. by vm_compute; repeat constructor. Qed.

(** C2 (counterexample).  On the unit triangle with the values 0, 0, 1 and
    the default parameters, the value [smooth] returns at vertex 0, which
    gathers the three vertices, is not the weighted mean of their values. *)
Lemma smooth_not_weighted_mean :
  ∃ out x,
    smooth unit_triangle elements [Fin 0; Fin 0; Fin 1] 2 8 = Ok out ∧
    out !! 0 = Some x ∧
    elements (gathered unit_triangle 2 0) = [2; 1; 0] ∧
    x ≠ weighted_mean (Fin 0) 8 [Fin 1; Fin 0; Fin 0].
Proof.
  destruct (smooth_Ok unit_triangle elements [Fin 0; Fin 0; Fin 1] 2 8)
    as (out & Hout & _ & Hval); [apply elements_order_spec|apply unit_triangle_well_formed|done|].
  specialize (Hval 0 (Fin 0) eq_refl). rewrite gathered_unit_triangle in Hval.
  cbn [map lookup list_lookup default from_option] in Hval.
  unfold Datatypes.id in Hval.
  eexists _, _. split_and!; [exact Hout|exact Hval|apply gathered_unit_triangle|].
  unfold mean_of_weighted, weighted_mean. cbn [map length F.sum foldr].
  rewrite !gauss_fin by lra.
  set (e1 := exp _). set (e0 := exp _).
  assert (e0 = 1%R) as He0.
  { subst e0. transitivity (exp 0); [|apply exp_0]. f_equal. simpl. lra. }
  assert (0 < e1 < 1)%R as He1.
  { subst e1. split; [apply exp_pos|].
    apply Rlt_le_trans with (exp 0); [|rewrite exp_0; lra].
    apply exp_increasing. simpl. lra. }
  unfold F.zero, F.of_nat. cbn [F.mul F.add].
  rewrite (div_fin_eq _ (INR 3) (e1 / 3)) by (simpl; lra).
  rewrite (div_fin_eq _ _ (e1 / (e1 + 2))); [|lra|f_equal; lra].
  intros [= H].
  assert (e1 / 3 < e1 / (e1 + 2))%R; [|lra].
  unfold Rdiv. apply Rmult_lt_compat_l; [lra|].
  apply Rinv_lt_contravar; nra.
Qed.

(** C2 (amended).  For a scalar field as long as the vertex list, [smooth]
    returns, at each vertex that gathers at least one neighbour, the sum of
    Gaussian weight times value over the gathered neighbours divided by their
    number, and 0 at a vertex that gathers none. *)
Theorem smooth_mean_of_weighted self set_iter scalars nb bw :
  set_order_spec set_iter → well_formed self →
  length scalars = length (pts self) →
  ∃ out, smooth self set_iter scalars nb bw = Ok out ∧
         length out = length scalars ∧
         ∀ i val, scalars !! i = Some val →
           out !! i =
             Some (match elements (gathered self nb i) with
                   | [] => F.zero
                   | _ => mean_of_weighted val bw
                            (map (λ j, default F.zero (scalars !! j))
                                 (elements (gathered self nb i)))
                   end).
Proof. apply smooth_Ok. Qed.

Lemma smooth_mean_of_weighted_witness :
  set_order_spec elements ∧ well_formed unit_triangle ∧
  length [Fin 0; Fin 0; Fin 1] = length (pts unit_triangle) ∧
  ∃ out, smooth unit_triangle elements [Fin 0; Fin 0; Fin 1] 2 8 = Ok out ∧
         length out = 3 ∧
         ∀ i val, [Fin 0; Fin 0; Fin 1] !! i = Some val →
           out !! i =
             Some (match elements (gathered unit_triangle 2 i) with
                   | [] => F.zero
                   | _ => mean_of_weighted val 8
                            (map (λ j, default F.zero ([Fin 0; Fin 0; Fin 1] !! j))
                                 (elements (gathered unit_triangle 2 i)))
                   end).
Proof.
  split_and!; [apply elements_order_spec|apply unit_triangle_well_formed|reflexivity|].
  apply (smooth_mean_of_weighted unit_triangle elements [Fin 0; Fin 0; Fin 1] 2 8);
    [apply elements_order_spec|apply unit_triangle_well_formed|reflexivity].
Defined.

(** ** [Surface.geodesic_distance] *)

Lemma col_sums_lookup n M j :
  j < n → col_sums n M !! j = Some (col_sum n M j).
Proof.
  intros Hj. unfold col_sums. rewrite list_lookup_fmap, lookup_seq_lt by done. done.
Qed.

Lemma good_rows_spec n lfac j :
  j ∈ good_rows n lfac ↔ j < n ∧ F.eqb (col_sum n lfac j) F.zero = false.
Proof.
  unfold good_rows. rewrite list_elem_of_filter, elem_of_seq. split.
  - intros [He [_ Hj]]. simpl in Hj. split; [done|].
    by rewrite col_sums_lookup in He.
  - intros [Hj He]. rewrite col_sums_lookup by done. simpl. split; [done|lia].
Qed.

Lemma foldr_insert_length {A B} (f : B → nat * A) (base : list A) (l : list B) :
  length (foldr (λ b x, <[(f b).1 := (f b).2]> x) base l) = length base.
Proof. induction l; simpl; [done|]. by rewrite length_insert. Qed.

Lemma foldr_insert_outside {A B} (f : B → nat * A) (base : list A) (l : list B) j :
  Forall (λ b, (f b).1 ≠ j) l →
  foldr (λ b x, <[(f b).1 := (f b).2]> x) base l !! j = base !! j.
Proof.
  induction 1 as [|b l Hb _ IH]; simpl; [done|].
  by rewrite list_lookup_insert_ne.
Qed.

Lemma put_rows_length n rows vals x :
  put_rows n rows vals = Ok x → length x = n.
Proof.
  unfold put_rows. destruct (decide _).
  - intros [= <-]. by rewrite (foldr_insert_length (λ iv, iv)), length_replicate.
  - destruct vals as [|v [|]]; try done. intros [= <-].
    by rewrite (foldr_insert_length (λ i, (i, v))), length_replicate.
Qed.

Lemma put_rows_outside n rows vals x j :
  put_rows n rows vals = Ok x → j ∉ rows → j < n → x !! j = Some F.zero.
Proof.
  unfold put_rows. intros Hx Hj Hn. destruct (decide _).
  - injection Hx as <-. rewrite (foldr_insert_outside (λ iv, iv)).
    + by apply lookup_replicate_2.
    + apply Forall_forall. intros [i v] Hin Heq. simpl in Heq. subst i.
      apply Hj. apply elem_of_zip_l in Hin. done.
  - destruct vals as [|v [|]]; try done. injection Hx as <-.
    rewrite (foldr_insert_outside (λ i, (i, v))).
    + by apply lookup_replicate_2.
    + apply Forall_forall. intros i Hin Heq. simpl in Heq. by subst i.
Qed.

Lemma put_rows_Ok n rows vals :
  length vals = length rows → ∃ x, put_rows n rows vals = Ok x.
Proof. intros Hl. unfold put_rows. rewrite decide_True by done. by eexists. Qed.

Lemma min_Ok_nonempty l lo : F.min l = Ok lo → l ≠ [].
Proof. by destruct l. Qed.

(** What a returning [heat_solve] says about the rows left out. *)
Lemma heat_solve_excluded self goodrows rlfac nlc verts phi :
  heat_solve self goodrows rlfac nlc verts = Ok phi →
  goodrows ≠ [] ∧ length phi = length (pts self) ∧
  ∀ j, j < length (pts self) → j ∉ goodrows → phi !! j = Some F.zero.
Proof.
  unfold heat_solve.
  intros (u0 & _ & H)%bind_Ok. apply bind_Ok in H as (u & _ & H).
  apply bind_Ok in H as (pp & _ & H). apply bind_Ok in H as (fnorms & _ & H).
  apply bind_Ok in H as (areas & _ & H). apply bind_Ok in H as (pu & _ & H).
  apply bind_Ok in H as ([[c1 c2] c3] & _ & H).
  destruct (decide (length (pts self) = 1)); [done|].
  apply bind_Ok in H as (lo & Hlo & H).
  split_and!.
  - apply min_Ok_nonempty in Hlo. intros ->.
    apply Hlo. apply nil_length_inv. by rewrite solve_shape.
  - by eapply put_rows_length.
  - intros j Hj Hout. by eapply put_rows_outside.
Qed.

(** With no good row at all the call cannot return. *)
Lemma heat_solve_all_excluded self rlfac nlc verts :
  ∃ e, heat_solve self [] rlfac nlc verts = Raise e.
Proof.
  destruct (heat_solve self [] rlfac nlc verts) as [phi|e] eqn:H; [|by eexists].
  by apply heat_solve_excluded in H as [? _].
Qed.

Lemma cache_get_hit d m h : cache_get ((m, h) :: d) m = Some h.
Proof. simpl. by destruct (Req_dec_T m m). Qed.

Lemma cache_get_miss d m h m' : m' ≠ m → cache_get ((m, h) :: d) m' = cache_get d m'.
Proof. intros. simpl. by destruct (Req_dec_T m' m). Qed.

Section geodesic_facts.
Context (self : Surface) (factorized : dense → res handle).

(** How a returning call came about: both handles in use are factorisations
    of the restricted matrices, and the caches stay well-formed. *)
Lemma geodesic_distance_Ok c verts m phi c' :
  cache_ok self factorized c →
  geodesic_distance self factorized c verts m = (Ok phi, c') →
  ∃ lfac nLC goodrows rlfac nlc,
    heat_system self m = Ok (lfac, nLC, goodrows) ∧
    factorized (submatrix lfac goodrows) = Ok rlfac ∧
    factorized (submatrix nLC goodrows) = Ok nlc ∧
    heat_solve self goodrows rlfac nlc verts = Ok phi ∧
    cache_ok self factorized c'.
Proof.
  intros Hc. unfold geodesic_distance.
  destruct (heat_system self m) as [[[lfac nLC] goodrows]|e] eqn:Hsys; [|done].
  destruct (cache_get (rlfac_solvers c) m) as [h1|] eqn:Hg1.
  - (* the first handle is cached *)
    destruct (cache_get (nLC_solvers c) m) as [h2|] eqn:Hg2.
    + rewrite Hg1, Hg2. intros [= Hphi <-].
      destruct (proj1 (Hc m h1) Hg1) as (l1 & n1 & g1 & Hs1 & Hf1).
      destruct (proj2 (Hc m h2) Hg2) as (l2 & n2 & g2 & Hs2 & Hf2).
      rewrite Hsys in Hs1, Hs2. injection Hs1 as <- <- <-. injection Hs2 as <- <- <-.
      exists lfac, nLC, goodrows, h1, h2. split_and!; done.
    + destruct (factorized (submatrix nLC goodrows)) as [h2|e] eqn:Hf2; [|done].
      cbn [mbind res_bind rlfac_solvers nLC_solvers]. rewrite Hg1, cache_get_hit.
      intros [= Hphi <-].
      destruct (proj1 (Hc m h1) Hg1) as (l1 & n1 & g1 & Hs1 & Hf1).
      rewrite Hsys in Hs1. injection Hs1 as <- <- <-. exists lfac, nLC, goodrows, h1, h2. split_and!; try done.
      intros m' h'. cbn [rlfac_solvers nLC_solvers]. split; [apply Hc|].
      destruct (Req_dec_T m' m) as [->|Hm].
      * rewrite cache_get_hit. intros [= <-]. by exists lfac, nLC, goodrows.
      * rewrite cache_get_miss by done. apply Hc.
  - destruct (factorized (submatrix lfac goodrows)) as [h1|e] eqn:Hf1; [|done].
    cbn [mbind res_bind rlfac_solvers nLC_solvers]. destruct (cache_get (nLC_solvers c) m) as [h2|] eqn:Hg2.
    + rewrite cache_get_hit. rewrite Hg2.
      intros [= Hphi <-].
      destruct (proj2 (Hc m h2) Hg2) as (l2 & n2 & g2 & Hs2 & Hf2).
      rewrite Hsys in Hs2. injection Hs2 as <- <- <-. exists lfac, nLC, goodrows, h1, h2. split_and!; try done.
      intros m' h'. cbn [rlfac_solvers nLC_solvers]. split; [|apply Hc].
      destruct (Req_dec_T m' m) as [->|Hm].
      * rewrite cache_get_hit. intros [= <-]. by exists lfac, nLC, goodrows.
      * rewrite cache_get_miss by done. apply Hc.
    + destruct (factorized (submatrix nLC goodrows)) as [h2|e] eqn:Hf2; [|done].
      cbn [mbind res_bind rlfac_solvers nLC_solvers]. rewrite !cache_get_hit.
      intros [= Hphi <-].
      exists lfac, nLC, goodrows, h1, h2. split_and!; try done.
      intros m' h'. cbn [rlfac_solvers nLC_solvers].
      destruct (Req_dec_T m' m) as [->|Hm].
      * rewrite !cache_get_hit. split; intros [= <-]; by exists lfac, nLC, goodrows.
      * rewrite !cache_get_miss by done. apply Hc.
Qed.

Lemma geodesic_distance_all_excluded c verts m lfac nLC :
  heat_system self m = Ok (lfac, nLC, []) →
  ∃ e, (geodesic_distance self factorized c verts m).1 = Raise e.
Proof.
  intros Hsys. unfold geodesic_distance. rewrite Hsys.
  destruct (match cache_get (rlfac_solvers c) m with
            | Some _ => _ | None => _ end) as [d1|e]; [|by eexists].
  destruct (match cache_get (nLC_solvers c) m with
            | Some _ => _ | None => _ end) as [d2|e]; [|by eexists].
  destruct (cache_get d1 m) as [h1|]; [|by eexists].
  destruct (cache_get d2 m) as [h2|]; [|by eexists].
  apply heat_solve_all_excluded.
Qed.

End geodesic_facts.

Lemma empty_cache_ok self factorized : cache_ok self factorized empty_cache.
Proof. intros m h. split; intros [=]. Qed.

Lemma div_zero_fin b : b ≠ 0%R → F.div F.zero (Fin b) = F.zero.
Proof. intros. apply div_fin_eq; [done|]. by field. Qed.

Lemma sub_zero_zero : F.sub F.zero F.zero = F.zero.
Proof. unfold F.zero. simpl. f_equal. lra. Qed.

Lemma sum_cons x l : F.sum (x :: l) = F.add x (F.sum l).
Proof. done. Qed.

Lemma sum_zeros {A} (l : list A) : F.sum (map (λ _, F.zero) l) = F.zero.
Proof.
  induction l as [|a l IH]; [done|].
  by rewrite map_cons, sum_cons, IH, FFacts.add_zero_r.
Qed.

Lemma stored_zero : stored F.zero = false.
Proof. unfold stored, F.zero. by rewrite FFacts.eqb_refl_fin. Qed.

Section no_faces.
Context (ps : list vec3).

Lemma laplace_operator_no_faces :
  ∃ D W V, laplace_operator (mkSurface ps []) = Ok (D, W, V) ∧
           Forall (λ x, x = F.zero) D ∧ Forall (λ x, x = F.zero) V ∧
           ∀ i j, W i j = F.zero.
Proof.
  unfold laplace_operator, connected, face_areas, face_normals, cotangent_weights, ppts.
  rewrite decide_True by constructor. cbn [pts polys take_faces traverse mbind res_bind map].
  do 3 eexists. split; [reflexivity|].
  assert (∀ i j, adjacency (mkSurface ps []) [] [] [] i j = F.zero) as HW.
  { intros i j. unfold adjacency, scatter, coo_get.
    cbn [polys zip_with coo_T map filter list_filter F.sum foldr].
    rewrite !FFacts.add_zero_r. apply div_zero_fin. lra. }
  split_and!.
  - apply Forall_forall. intros x (row & -> & Hrow)%list_elem_of_fmap.
    apply list_elem_of_fmap in Hrow as (v & -> & _).
    unfold connected_row, row_dot.
    cbn [polys imap filter list_filter map F.sum foldr]. apply div_zero_fin. lra.
  - apply Forall_forall. intros x (j & -> & _)%list_elem_of_fmap.
    erewrite map_ext; [apply sum_zeros|]. intros i. apply HW.
  - exact HW.
Qed.

End no_faces.

Lemma filter_none {A} (P : A → Prop) `{∀ x, Decision (P x)} (l : list A) :
  Forall (λ x, ¬ P x) l → filter P l = [].
Proof.
  induction 1 as [|x l Hx _ IH]; [done|]. by rewrite filter_cons_False.
Qed.

Lemma diag_zeros d i j : Forall (λ x, x = F.zero) d → diag d i j = F.zero.
Proof.
  intros Hd. unfold diag. case_decide; [|done].
  destruct (d !! i) as [x|] eqn:Hx; [|done]. simpl.
  by eapply Forall_lookup_1 in Hd.
Qed.

Lemma mean_nil : F.mean [] = NaN.
Proof.
  unfold F.mean, F.of_nat, F.div. simpl.
  destruct (Req_dec_T 0 0); [|done].
  unfold F.inf_times. by repeat (destruct (Rlt_dec _ _); try lra).
Qed.

Lemma col_sum_all_zero n D t W V j :
  Forall (λ x, x = F.zero) D → Forall (λ x, x = F.zero) V →
  (∀ i j, W i j = F.zero) →
  col_sum n (backward_euler D t (neg_laplace W V)) j = F.zero.
Proof.
  intros HD HV HW. unfold col_sum. erewrite map_ext; [apply sum_zeros|].
  intros i. unfold backward_euler, msub, scale, neg_laplace, msub.
  rewrite HW, !diag_zeros by done. by rewrite sub_zero_zero, stored_zero, sub_zero_zero.
Qed.

Lemma heat_system_no_faces ps m :
  ∃ lfac nLC, heat_system (mkSurface ps []) m = Ok (lfac, nLC, []).
Proof.
  destruct (laplace_operator_no_faces ps) as (D & W & V & HL & HD & HV & HW).
  unfold heat_system, avg_edge_length. rewrite HL. cbn [mbind res_bind].
  rewrite filter_none.
  2:{ apply Forall_forall. intros [i j] _ [_ Hs]. simpl in Hs.
      by rewrite HW, stored_zero in Hs. }
  cbn [traverse mbind res_bind]. do 2 eexists. do 2 f_equal.
  apply filter_none, Forall_forall. intros j Hj%elem_of_seq Hz.
  rewrite col_sums_lookup in Hz by lia.
  rewrite col_sum_all_zero in Hz by done.
  unfold F.zero in Hz. simpl in Hz. by destruct (Req_dec_T 0 0).
Qed.

Lemma laplace_operator_Ok self :
  well_formed self → ∃ D W V, laplace_operator self = Ok (D, W, V).
Proof.
  intros Hwf. destruct (ppts_Ok self Hwf) as [pp Hpp].
  unfold laplace_operator, cotangent_weights.
  rewrite (connected_Ok self Hwf), (face_areas_Ok self pp Hpp), Hpp. simpl.
  by do 3 eexists.
Qed.

Lemma avg_edge_length_Ok self :
  well_formed self → ∃ avg, avg_edge_length self = Ok avg.
Proof.
  intros Hwf. destruct (laplace_operator_Ok self Hwf) as (D & W & V & HL).
  unfold avg_edge_length. rewrite HL. cbn [mbind res_bind].
  set (tadj := filter _ _).
  assert (Forall (λ e : nat * nat, e.1 < length (pts self) ∧ e.2 < length (pts self)) tadj)
    as Hin.
  { apply Forall_forall. intros [i j] [_ Hij]%list_elem_of_filter.
    apply list_elem_of_bind in Hij as (i' & Hij & Hi%elem_of_seq).
    apply list_elem_of_bind in Hij as (j' & Hij & Hj%elem_of_seq).
    apply list_elem_of_singleton in Hij as [= -> ->]. simpl. lia. }
  clearbody tadj.
  assert (∃ l, traverse (λ e : nat * nat, a ← getitem (pts self) e.1;
                                        b ← getitem (pts self) e.2;
                                        Ok (magnitude (vsub a b))) tadj = Ok l) as [l ->].
  { induction Hin as [|[i j] tadj [Hi Hj] _ [l IH]]; simpl; [by eexists|].
    simpl in Hi, Hj.
    apply getitem_lt in Hi as [a ->], Hj as [b ->]. simpl. rewrite IH. simpl. by eexists. }
  simpl. by eexists.
Qed.

Lemma heat_system_Ok self m :
  well_formed self → ∃ lfac nLC goodrows, heat_system self m = Ok (lfac, nLC, goodrows).
Proof.
  intros Hwf. destruct (laplace_operator_Ok self Hwf) as (D & W & V & HL).
  destruct (avg_edge_length_Ok self Hwf) as [avg Havg].
  unfold heat_system. rewrite HL. cbn [mbind res_bind]. rewrite Havg. simpl.
  by do 3 eexists.
Qed.

Lemma indicator_Ok n verts :
  Forall (λ v, v < n) verts → ∃ u0, indicator n verts = Ok u0.
Proof. intros. unfold indicator. rewrite decide_True by done. by eexists. Qed.

Lemma length_take_rows x rows : length (take_rows x rows) = length rows.
Proof. unfold take_rows. by rewrite length_map. Qed.

Lemma traverse_Ok_exists {A B} (f : A → res B) (l : list A) :
  Forall (λ x, ∃ y, f x = Ok y) l → ∃ r, traverse f l = Ok r.
Proof.
  induction 1 as [|x l [y Hy] _ [r IH]]; simpl; [by eexists|].
  rewrite Hy. simpl. rewrite IH. simpl. by eexists.
Qed.

Lemma heat_solve_Ok self goodrows rlfac nlc verts :
  well_formed self → Forall (λ v, v < length (pts self)) verts →
  length (pts self) ≠ 1 → goodrows ≠ [] →
  ∃ phi, heat_solve self goodrows rlfac nlc verts = Ok phi.
Proof.
  intros Hwf Hverts Hn Hgood. unfold heat_solve.
  destruct (indicator_Ok _ _ Hverts) as [u0 ->]. cbn [mbind res_bind].
  destruct (put_rows_Ok (length (pts self)) goodrows
              (solve rlfac (take_rows u0 goodrows))) as [u Hu].
  { by rewrite solve_shape, length_take_rows. }
  rewrite Hu. cbn [mbind res_bind].
  destruct (ppts_Ok self Hwf) as [pp Hpp].
  unfold face_areas, face_normals, cotangent_weights. rewrite Hpp. cbn [mbind res_bind].
  destruct (traverse_Ok_exists
              (λ p : face, let '(a, b, c) := p in
                 ua ← getitem u a; ub ← getitem u b; uc ← getitem u c; Ok (ua, ub, uc))
              (polys self)) as [pu Hpu].
  { eapply Forall_impl; [exact Hwf|]. intros [[a b] c] Hf.
    unfold face_in_range in Hf. simpl in Hf.
    apply Forall_cons in Hf as [Ha Hf]. apply Forall_cons in Hf as [Hb Hf].
    apply Forall_cons in Hf as [Hc _].
    rewrite <- (put_rows_length _ _ _ _ Hu) in Ha, Hb, Hc.
    apply getitem_lt in Ha as [ua ->], Hb as [ub ->], Hc as [uc ->]. simpl. by eexists. }
  rewrite Hpu. cbn [mbind res_bind].
  rewrite decide_False by done.
  set (goodphi := solve nlc _).
  assert (length goodphi = length goodrows) as Hlen.
  { subst goodphi. by rewrite solve_shape, length_take_rows. }
  clearbody goodphi.
  destruct goodphi as [|x goodphi]; [by destruct goodrows|].
  cbn [F.min mbind res_bind].
  apply put_rows_Ok. by rewrite length_map.
Qed.

Lemma offset_triangle_well_formed : well_formed offset_triangle.
Proof. by vm_compute; repeat constructor. Qed.

Lemma offset_triangle_cots :
  cotangent_weights offset_triangle = Ok ([Fin 0], [Fin 1], [Fin 1]).
Proof.
  unfold cotangent_weights, ppts, take_faces, offset_triangle.
  cbn [pts polys traverse getitem lookup list_lookup mbind res_bind map].
  unfold cot_at. cbn [cross vsub dot sumsq F.sq F.mul F.sub F.add F.neg].
  rewrite !(sqrt_fin_eq _ 1) by lra.
  repeat f_equal; apply div_fin_eq; lra.
Qed.

Lemma offset_triangle_areas : face_areas offset_triangle = Ok [Fin 1].
Proof.
  unfold face_areas, face_normals, ppts, take_faces, offset_triangle.
  cbn [pts polys traverse getitem lookup list_lookup mbind res_bind map].
  unfold magnitude. cbn [cross vsub dot sumsq F.sq F.mul F.sub F.add F.neg].
  by rewrite !(sqrt_fin_eq _ 1) by lra.
Qed.

Lemma offset_triangle_laplace :
  laplace_operator offset_triangle =
    Ok (map (λ row, F.div (row_dot [Fin 1] row) (Fin 3)) (conn_rows offset_triangle),
        adjacency offset_triangle [Fin 0] [Fin 1] [Fin 1],
        col_sums 4 (adjacency offset_triangle [Fin 0] [Fin 1] [Fin 1])).
Proof.
  unfold laplace_operator.
  rewrite (connected_Ok _ offset_triangle_well_formed), offset_triangle_areas,
    offset_triangle_cots.
  reflexivity.
Qed.

Lemma offset_triangle_W_col1 :
  let W := adjacency offset_triangle [Fin 0] [Fin 1] [Fin 1] in
  W 0 1 = F.zero ∧ W 1 1 = F.zero ∧ W 2 1 = Fin (1 / 2) ∧ W 3 1 = Fin (1 / 2).
Proof.
  unfold adjacency, scatter, coo_get, coo_T, offset_triangle.
  cbn [polys zip_with map fst snd].
  rewrite !filter_cons, !filter_nil. cbn [fst snd].
  repeat (case_decide; simplify_eq/=).
  destruct (Req_dec_T 2 0); [lra|].
  unfold F.zero. split_and!; f_equal; lra.
Qed.

Lemma stored_fin_ne r : r ≠ 0%R → stored (Fin r) = true.
Proof. intros. unfold stored, F.zero. simpl. by destruct (Req_dec_T r 0). Qed.

Lemma diag_off d i j : i ≠ j → diag d i j = F.zero.
Proof. intros. unfold diag. by rewrite decide_False. Qed.

(** Whatever the diffusion time, the column of vertex 1 of the offset
    triangle does not sum to zero. *)
Lemma offset_triangle_col1 (t : fl) :
  let D := map (λ row, F.div (row_dot [Fin 1] row) (Fin 3)) (conn_rows offset_triangle) in
  let W := adjacency offset_triangle [Fin 0] [Fin 1] [Fin 1] in
  let V := col_sums 4 W in
  F.eqb (col_sum 4 (backward_euler D t (neg_laplace W V)) 1) F.zero = false.
Proof.
  intros D W V.
  destruct offset_triangle_W_col1 as (HW0 & HW1 & HW2 & HW3). fold W in HW0, HW1, HW2, HW3.
  assert (diag V 1 1 = Fin 1) as HV.
  { unfold diag, V. rewrite decide_True by done.
    change (col_sums 4 W !! 1) with (Some (col_sum 4 W 1)).
    unfold col_sum. cbn [seq map default from_option Datatypes.id].
    rewrite !sum_cons, HW0, HW1, HW2, HW3. unfold F.zero. simpl. f_equal. lra. }
  assert (diag D 1 1 = Fin (1 / 3)) as HD.
  { unfold diag, D. rewrite decide_True by done.
    change (conn_rows offset_triangle) with [[]; [(0, 1)]; [(0, 1)]; [(0, 1)]].
    cbn [map lookup list_lookup default from_option Datatypes.id].
    unfold row_dot, F.of_nat.
    cbn [map fst snd lookup list_lookup default from_option Datatypes.id F.sum foldr
         INR F.mul F.add F.zero].
    apply div_fin_eq; lra. }
  unfold col_sum. cbn [seq map]. rewrite !sum_cons.
  unfold backward_euler, msub, neg_laplace, msub, scale.
  rewrite HW0, HW1, HW2, HW3, HV, HD.
  rewrite !diag_off by done.
  rewrite sub_zero_zero, stored_zero, sub_zero_zero.
  cbn [F.sub F.neg F.add F.zero].
  rewrite !stored_fin_ne by lra.
  destruct t as [r| | |]; cbn [F.mul F.neg F.add F.sum foldr F.zero F.eqb].
  - destruct (Req_dec_T _ _); [lra|done].
  - unfold F.inf_times.
    repeat match goal with
           | |- context [Rlt_dec ?a ?b] => destruct (Rlt_dec a b); try lra
           end.
    done.
  - unfold F.inf_times.
    repeat match goal with
           | |- context [Rlt_dec ?a ?b] => destruct (Rlt_dec a b); try lra
           end.
    done.
  - done.
Qed.

Lemma heat_system_good_rows self m lfac nLC goodrows :
  heat_system self m = Ok (lfac, nLC, goodrows) →
  goodrows = good_rows (length (pts self)) lfac.
Proof.
  unfold heat_system. intros ([[D W] V] & _ & H)%bind_Ok.
  apply bind_Ok in H as (avg & _ & H). by injection H as <- <- <-.
Qed.

Lemma offset_triangle_good_rows m lfac nLC goodrows :
  heat_system offset_triangle m = Ok (lfac, nLC, goodrows) → 1 ∈ goodrows.
Proof.
  unfold heat_system. rewrite offset_triangle_laplace. cbn [mbind res_bind].
  intros (avg & _ & H)%bind_Ok. injection H as <- <- <-.
  apply good_rows_spec. split; [simpl; lia|]. apply offset_triangle_col1.
Qed.

Lemma offset_triangle_returns :
  ∃ phi c', geodesic_distance offset_triangle stub_factorized empty_cache [1] 1
            = (Ok phi, c').
Proof.
  destruct (heat_system_Ok offset_triangle 1 offset_triangle_well_formed)
    as (lfac & nLC & goodrows & Hsys).
  destruct (heat_solve_Ok offset_triangle goodrows identity_handle identity_handle [1])
    as [phi Hphi].
  - apply offset_triangle_well_formed.
  - repeat constructor; simpl; lia.
  - simpl. lia.
  - apply offset_triangle_good_rows in Hsys. intros ->. by apply elem_of_nil in Hsys.
  - unfold geodesic_distance. rewrite Hsys. unfold empty_cache, stub_factorized.
    cbn [rlfac_solvers nLC_solvers cache_get mbind res_bind].
    destruct (Req_dec_T 1 1); [|done]. rewrite Hphi. by eexists _, _.
Qed.

(** C5 (counterexample).  On a mesh of two vertices and no face every
    column of [lfac] sums to zero, no good row is left, and the call fails
    whatever the solver does. *)
Lemma geodesic_distance_two_points_fails :
  ∃ lfac nLC,
    heat_system two_points 1 = Ok (lfac, nLC, []) ∧
    (∀ j, j < 2 → F.eqb (col_sum 2 lfac j) F.zero = true) ∧
    ∀ factorized c,
      ∃ e, (geodesic_distance two_points factorized c [0] 1).1 = Raise e.
Proof.
  destruct (heat_system_no_faces (pts two_points) 1) as (lfac & nLC & Hsys).
  change (mkSurface (pts two_points) []) with two_points in Hsys.
  exists lfac, nLC. split_and!; [done| |].
  - intros j Hj. pose proof (heat_system_good_rows _ _ _ _ _ Hsys) as Hrows.
    destruct (F.eqb (col_sum 2 lfac j) F.zero) eqn:E; [done|].
    assert (j ∈ good_rows (length (pts two_points)) lfac) as Hin
      by (by apply good_rows_spec).
    rewrite <- Hrows in Hin. by apply elem_of_nil in Hin.
  - intros factorized c.
    by apply (geodesic_distance_all_excluded two_points factorized c [0] 1 lfac nLC).
Qed.

(** C5 (amended).  When [geodesic_distance] returns, the two handles it
    solved with are factorisations of [lfac] and [nLC] restricted to the good
    rows; every vertex whose column of [lfac] sums to exactly zero is outside
    the good rows and has distance exactly 0 in the result; and some good row
    exists: with none the call fails instead. *)
Theorem geodesic_distance_excluded_rows self factorized c verts m phi c' :
  cache_ok self factorized c →
  geodesic_distance self factorized c verts m = (Ok phi, c') →
  ∃ lfac nLC goodrows rlfac nlc,
    heat_system self m = Ok (lfac, nLC, goodrows) ∧
    factorized (submatrix lfac goodrows) = Ok rlfac ∧
    factorized (submatrix nLC goodrows) = Ok nlc ∧
    heat_solve self goodrows rlfac nlc verts = Ok phi ∧
    goodrows ≠ [] ∧
    cache_ok self factorized c' ∧
    ∀ j, j < length (pts self) →
         F.eqb (col_sum (length (pts self)) lfac j) F.zero = true →
         (j ∉ goodrows) ∧ phi !! j = Some F.zero.
Proof.
  intros Hc Hcall.
  destruct (geodesic_distance_Ok self factorized c verts m phi c' Hc Hcall)
    as (lfac & nLC & goodrows & rlfac & nlc & Hsys & Hf1 & Hf2 & Hsolve & Hc').
  exists lfac, nLC, goodrows, rlfac, nlc.
  destruct (heat_solve_excluded _ _ _ _ _ _ Hsolve) as (Hne & _ & Hout).
  split_and!; try done.
  intros j Hj Hz.
  assert (j ∉ goodrows) as Hnot.
  { rewrite (heat_system_good_rows _ _ _ _ _ Hsys), good_rows_spec.
    intros [_ Hz']. congruence. }
  split; [done|]. by apply Hout.
Qed.

Lemma geodesic_distance_excluded_rows_witness :
  cache_ok offset_triangle stub_factorized empty_cache ∧
  ∃ phi c',
    geodesic_distance offset_triangle stub_factorized empty_cache [1] 1 = (Ok phi, c') ∧
    ∃ lfac nLC goodrows rlfac nlc,
      heat_system offset_triangle 1 = Ok (lfac, nLC, goodrows) ∧
      stub_factorized (submatrix lfac goodrows) = Ok rlfac ∧
      stub_factorized (submatrix nLC goodrows) = Ok nlc ∧
      heat_solve offset_triangle goodrows rlfac nlc [1] = Ok phi ∧
      goodrows ≠ [] ∧
      cache_ok offset_triangle stub_factorized c' ∧
      ∀ j, j < length (pts offset_triangle) →
           F.eqb (col_sum (length (pts offset_triangle)) lfac j) F.zero = true →
           (j ∉ goodrows) ∧ phi !! j = Some F.zero.
Proof.
  split; [apply empty_cache_ok|].
  destruct offset_triangle_returns as (phi & c' & Hcall).
  exists phi, c'. split; [exact Hcall|].
  exact (geodesic_distance_excluded_rows offset_triangle stub_factorized empty_cache
           [1] 1 phi c' (empty_cache_ok _ _) Hcall).
Defined.

(** ** Closed cycles *)

Lemma joins_sym e a b : joins e a b → joins e b a.
Proof. unfold joins. tauto. Qed.

Lemma chain_end_nil a : chain_end a [] = a.
Proof. done. Qed.

Lemma chain_end_snoc a steps s : chain_end a (steps ++ [s]) = s.2.
Proof. unfold chain_end. by rewrite last_snoc. Qed.

Lemma chain_end_cons a s steps : chain_end a (s :: steps) = chain_end s.2 steps.
Proof.
  unfold chain_end. destruct steps as [|s' steps] using rev_ind; [done|].
  by rewrite app_comm_cons, !last_snoc.
Qed.

Lemma chain_end_app a s1 s2 : chain_end a (s1 ++ s2) = chain_end (chain_end a s1) s2.
Proof.
  revert a. induction s1 as [|s s1 IH]; intros a; [done|].
  by rewrite <- app_comm_cons, !chain_end_cons, IH.
Qed.

Lemma chain_app edges a s1 s2 :
  chain edges a (s1 ++ s2) ↔ chain edges a s1 ∧ chain edges (chain_end a s1) s2.
Proof.
  revert a. induction s1 as [|s s1 IH]; intros a.
  - simpl. rewrite chain_end_nil. tauto.
  - rewrite <- app_comm_cons. cbn [chain]. rewrite IH, chain_end_cons. tauto.
Qed.

(** The vertex a non-empty walk ends at is one of the vertices it reaches. *)
Lemma chain_end_elem_of a steps : steps ≠ [] → chain_end a steps ∈ steps.*2.
Proof.
  destruct steps as [|s steps] using rev_ind; [done|]. intros _.
  rewrite chain_end_snoc, fmap_app. set_solver.
Qed.

Lemma rev_chain_app a s1 s2 :
  rev_chain a (s1 ++ s2) = rev_chain (chain_end a s1) s2 ++ rev_chain a s1.
Proof.
  revert a. induction s1 as [|s s1 IH]; intros a.
  - by rewrite chain_end_nil, app_nil_r.
  - rewrite <- app_comm_cons. cbn [rev_chain]. by rewrite IH, chain_end_cons, app_assoc.
Qed.

Lemma rev_chain_chain edges a steps :
  chain edges a steps →
  chain edges (chain_end a steps) (rev_chain a steps) ∧
  chain_end (chain_end a steps) (rev_chain a steps) = a.
Proof.
  revert a. induction steps as [|s steps IH]; intros a; [done|].
  cbn [chain rev_chain]. intros [(e & He & Hj) Hrest].
  destruct (IH _ Hrest) as [IH1 IH2].
  rewrite chain_end_cons, chain_app, chain_end_snoc. split_and!; try done.
  simpl. rewrite IH2. split; [|done]. exists e. split; [done|]. by apply joins_sym.
Qed.

Lemma rev_chain_indices a steps : (rev_chain a steps).*1 = reverse steps.*1.
Proof.
  revert a. induction steps as [|s steps IH]; intros a; [done|].
  cbn [rev_chain]. rewrite fmap_app, IH. cbn [fmap list_fmap fst].
  by rewrite reverse_cons.
Qed.

Lemma rev_chain_vertices a steps :
  (rev_chain a steps).*2 ++ [chain_end a steps] ≡ₚ a :: steps.*2.
Proof.
  revert a. induction steps as [|s steps IH]; intros a; [done|].
  cbn [rev_chain]. rewrite fmap_app, chain_end_cons, fmap_cons. cbn [fmap list_fmap snd].
  rewrite <- app_assoc, (Permutation_app_comm [a]), app_assoc, IH.
  by rewrite <- Permutation_cons_append.
Qed.

Lemma rev_chain_nil a steps : rev_chain a steps = [] → steps = [].
Proof. destruct steps as [|s steps]; [done|]. simpl. by destruct (rev_chain _ _). Qed.

(** A closed cycle can be walked in the other direction. *)
Lemma closed_cycle_reverse edges a steps :
  closed_cycle edges a steps → closed_cycle edges a (rev_chain a steps).
Proof.
  intros (Hne & Hchain & Hend & Hnd & Hperm).
  destruct (rev_chain_chain edges a steps Hchain) as [Hc He].
  rewrite Hend in Hc, He. split_and!; try done.
  - intros H%rev_chain_nil. done.
  - pose proof (rev_chain_vertices a steps) as Hv. rewrite Hend in Hv.
    rewrite <- Permutation_cons_append in Hv. apply Permutation_cons_inv in Hv.
    by rewrite Hv.
  - by rewrite rev_chain_indices, reverse_Permutation.
Qed.

(** A closed cycle can be started at any of its vertices. *)
Lemma closed_cycle_rotate edges a s1 s2 :
  closed_cycle edges a (s1 ++ s2) →
  closed_cycle edges (chain_end a s1) (s2 ++ s1).
Proof.
  intros (Hne & Hchain & Hend & Hnd & Hperm).
  apply chain_app in Hchain as [Hc1 Hc2]. rewrite chain_end_app in Hend.
  split_and!.
  - intros [-> ->]%app_eq_nil. done.
  - apply chain_app. rewrite Hend. done.
  - by rewrite chain_end_app, Hend.
  - rewrite fmap_app, Permutation_app_comm, <- fmap_app. done.
  - rewrite fmap_app, Permutation_app_comm, <- fmap_app. done.
Qed.

(** A closed cycle can be started along any of its edges, in the direction
    the edge is written. *)
Lemma closed_cycle_start edges a steps i x y :
  closed_cycle edges a steps → edges !! i = Some (x, y) →
  ∃ rest, closed_cycle edges x ((i, y) :: rest).
Proof.
  intros Hcyc Hi.
  assert (i ∈ steps.*1) as Hin.
  { destruct Hcyc as (_ & _ & _ & _ & Hperm). rewrite Hperm.
    apply elem_of_seq. apply lookup_lt_Some in Hi. lia. }
  apply list_elem_of_fmap in Hin as ([i' b] & Heq & Hin). simpl in Heq. subst i'.
  apply list_elem_of_split in Hin as (pre & post & ->).
  pose proof Hcyc as (_ & Hchain & Hend & _ & _).
  apply chain_app in Hchain as [_ Hchain]. cbn [chain] in Hchain.
  destruct Hchain as [(e & He & Hj) _]. simpl in He, Hj.
  rewrite Hi in He. injection He as <-.
  destruct Hj as [[= -> ->]|[= -> ->]].
  - (* written in the direction of the walk *)
    exists (post ++ pre). by apply (closed_cycle_rotate edges a pre ((i, b) :: post)).
  - (* written against the walk: turn round at [b] *)
    pose proof (closed_cycle_rotate edges a (pre ++ [(i, b)]) post) as Hrot.
    rewrite <- app_assoc in Hrot. specialize (Hrot Hcyc).
    rewrite chain_end_snoc in Hrot. simpl in Hrot.
    apply closed_cycle_reverse in Hrot.
    rewrite app_assoc, rev_chain_app in Hrot. cbn [rev_chain app] in Hrot.
    simpl in Hrot.
    assert (chain_end b (post ++ pre) = chain_end a pre) as Hc.
    { rewrite chain_end_app. f_equal.
      rewrite chain_end_app, chain_end_cons in Hend. done. }
    rewrite Hc in Hrot. by eexists.
Qed.

(** ** The dictionary [idx] *)

Lemma edge_index_fold (l : list (nat * nat)) (k : nat) (idx0 : gmap nat (gset nat)) v X0 :
  idx0 !! v = Some X0 →
  ∃ X,
    foldl (λ (idx : gmap nat (gset nat)) (ie : nat * (nat * nat)),
             alter (union {[ie.1]}) ie.2.2 (alter (union {[ie.1]}) ie.2.1 idx))
          idx0 (imap (λ i e, (k + i, e)) l) !! v = Some X ∧
    ∀ j, j ∈ X ↔ j ∈ X0 ∨ ∃ i e, l !! i = Some e ∧ j = k + i ∧ (e.1 = v ∨ e.2 = v).
Proof.
  revert k idx0 X0. induction l as [|[x y] l IH]; intros k idx0 X0 H0.
  - exists X0. split; [done|]. intros j. split; [auto|]. by intros [?|(i & e & ? & _)].
  - rewrite imap_cons. cbn [foldl fst snd].
    rewrite (imap_ext _ (λ i e, (S k + i, e))) by (intros; simpl; f_equal; lia).
    set (idx1 := alter _ y _).
    assert (∃ X1, idx1 !! v = Some X1 ∧
                  ∀ j, j ∈ X1 ↔ j ∈ X0 ∨ (j = k + 0 ∧ (x = v ∨ y = v)))
      as (X1 & H1 & HX1).
    { subst idx1. rewrite !lookup_alter.
      destruct (decide (y = v)) as [->|Hy], (decide (x = v)) as [->|Hx];
        rewrite ?H0; simpl; eexists; (split; [done|]); intros j; set_solver. }
    destruct (IH (S k) idx1 X1 H1) as (X & HX & HXspec).
    exists X. split; [done|]. intros j. rewrite HXspec, HX1. split.
    + intros [[?|[-> Hxy]]|(i & e & Hi & -> & He)]; [by left| |].
      * right. exists 0, (x, y). done.
      * right. exists (S i), e. split_and!; [done|lia|done].
    + intros [?|(i & e & Hi & -> & He)]; [by left; left|].
      destruct i as [|i]; simpl in Hi.
      * injection Hi as <-. left. right. done.
      * right. exists i, e. split_and!; [done|lia|done].
Qed.

Lemma edge_index_spec edges v i0 e0 :
  edges !! i0 = Some e0 → e0.1 = v ∨ e0.2 = v →
  ∃ X, edge_index edges !! v = Some X ∧
       ∀ j, j ∈ X ↔ ∃ e, edges !! j = Some e ∧ (e.1 = v ∨ e.2 = v).
Proof.
  intros Hi0 Hv. unfold edge_index.
  rewrite (imap_ext _ (λ i e, (0 + i, e))) by done.
  destruct (edge_index_fold edges 0
              (gset_to_gmap ∅ (list_to_set (edges ≫= λ e, [e.1; e.2]))) v ∅)
    as (X & HX & HXspec).
  { apply lookup_gset_to_gmap_Some. split; [|done].
    apply elem_of_list_to_set, list_elem_of_bind. exists e0. split.
    - set_solver.
    - by eapply list_elem_of_lookup_2. }
  exists X. split; [done|]. intros j. rewrite HXspec. split.
  - intros [?|(i & e & Hi & -> & He)]; [set_solver|]. by exists e.
  - intros (e & He & Hev). right. by exists j, e.
Qed.

(** ** [trace_poly] on a closed cycle *)

Lemma last_vertices a (pre : list (nat * nat)) :
  last (a :: pre.*2) = Some (chain_end a pre).
Proof.
  rewrite last_cons, fmap_last. unfold chain_end. by destruct (last pre).
Qed.

Section cycle_facts.
Context (edges : list (nat * nat)) (a : nat) (pre post : list (nat * nat)).
Context (Hcyc : closed_cycle edges a (pre ++ post)) (Hpre : pre ≠ []).

Lemma cycle_apart v : v ∈ pre.*2 → v ∉ post.*2.
Proof.
  destruct Hcyc as (_ & _ & _ & Hnd & _). rewrite fmap_app in Hnd.
  apply NoDup_app in Hnd as (_ & Hd & _). apply Hd.
Qed.

Lemma cycle_here : chain_end a pre ∈ pre.*2.
Proof. by apply chain_end_elem_of. Qed.

Lemma cycle_not_home : post ≠ [] → chain_end a pre ≠ a.
Proof.
  intros Hpost Heq.
  pose proof cycle_here as Hhere. rewrite Heq in Hhere.
  apply (cycle_apart a Hhere).
  destruct Hcyc as (_ & _ & Hend & _ & _). rewrite chain_end_app, Heq in Hend.
  rewrite <- Hend at 1. by apply chain_end_elem_of.
Qed.

Lemma cycle_index_lt j : j ∈ (pre ++ post).*1 ↔ j < length edges.
Proof.
  destruct Hcyc as (_ & _ & _ & _ & Hperm). rewrite Hperm, elem_of_seq. lia.
Qed.

Lemma cycle_indices_apart j : j ∈ pre.*1 → j ∉ post.*1.
Proof.
  destruct Hcyc as (_ & _ & _ & _ & Hperm).
  assert (NoDup (pre ++ post).*1) as Hnd by (rewrite Hperm; apply NoDup_seq).
  rewrite fmap_app in Hnd. apply NoDup_app in Hnd as (_ & Hd & _). apply Hd.
Qed.

End cycle_facts.

(** At the vertex the walk has reached, the one edge not yet crossed is
    the next edge of the cycle. *)
Lemma cycle_next_unique edges a pre i b post j e :
  closed_cycle edges a (pre ++ (i, b) :: post) → pre ≠ [] →
  edges !! j = Some e → e.1 = chain_end a pre ∨ e.2 = chain_end a pre →
  j ∉ pre.*1 → j = i.
Proof.
  intros Hcyc Hpre Hj He Hnot.
  assert (j ∈ (pre ++ (i, b) :: post).*1) as Hin.
  { eapply cycle_index_lt; [done|]. by eapply lookup_lt_Some. }
  rewrite fmap_app, elem_of_app in Hin. destruct Hin as [?|Hin]; [done|].
  rewrite fmap_cons in Hin. apply elem_of_cons in Hin as [?|Hin]; [done|].
  exfalso.
  apply list_elem_of_fmap in Hin as ([j' b'] & Heq & Hin). simpl in Heq. subst j'.
  apply list_elem_of_split in Hin as (p1 & p2 & ->).
  pose proof Hcyc as (_ & Hchain & _ & _ & _).
  apply chain_app in Hchain as [_ Hchain].
  rewrite app_comm_cons in Hchain. apply chain_app in Hchain as [_ Hchain].
  cbn [chain] in Hchain. destruct Hchain as [(e' & He' & Hjoin) _].
  simpl in He', Hjoin. rewrite Hj in He'. injection He' as <-.
  pose proof (cycle_here a pre Hpre) as Hhere.
  pose proof (cycle_apart edges a pre _ Hcyc _ Hhere) as Hapart.
  apply Hapart. rewrite fmap_cons, fmap_app, fmap_cons. simpl.
  assert (chain_end (chain_end a pre) ((i, b) :: p1) ∈ ((i, b) :: p1).*2) as Hc'
    by (by apply chain_end_elem_of).
  rewrite fmap_cons in Hc'. simpl in Hc'.
  destruct Hjoin as [->| ->]; simpl in He; destruct He as [He|He]; rewrite <- He.
  - rewrite app_comm_cons. apply elem_of_app. by left.
  - set_solver.
  - set_solver.
  - rewrite app_comm_cons. apply elem_of_app. by left.
Qed.

Section walk.
Context (set_iter : gset nat → list nat) (Hiter : set_order_spec set_iter).

Lemma head_set_iter X x : head (set_iter X) = Some x → x ∈ X.
Proof.
  intros Hx. apply elem_of_elements. rewrite <- (Hiter X).
  by apply head_Some_elem_of.
Qed.

Lemma head_set_iter_is_Some X x : x ∈ X → is_Some (head (set_iter X)).
Proof.
  intros Hx. destruct (set_iter X) as [|y l] eqn:E; [|by eexists].
  apply elem_of_elements in Hx. rewrite <- (Hiter X), E in Hx.
  by apply elem_of_nil in Hx.
Qed.

Lemma walk_cycle edges a post : ∀ pre fuel,
  closed_cycle edges a (pre ++ post) → pre ≠ [] → length post < fuel →
  walk set_iter fuel edges (edge_index edges) (a :: pre.*2)
       (list_to_set pre.*1)
       (list_to_set (seq 0 (length edges)) ∖ list_to_set pre.*1)
  = Some (Ok (a :: (pre ++ post).*2, ∅)).
Proof.
  induction post as [|[i b] post IH]; intros pre fuel Hcyc Hpre Hfuel.
  - destruct fuel as [|fuel]; [simpl in Hfuel; lia|].
    rewrite app_nil_r in *. cbn [walk head].
    rewrite last_vertices.
    destruct Hcyc as (_ & _ & Hend & _ & Hperm). rewrite Hend.
    rewrite decide_False.
    2:{ intros [?|Hlen]; [done|]. destruct pre; [done|]. simpl in Hlen. lia. }
    do 3 f_equal. apply set_eq. intros j.
    rewrite elem_of_difference, !elem_of_list_to_set, Hperm. set_solver.
  - destruct fuel as [|fuel]; [simpl in Hfuel; lia|].
    cbn [walk head]. rewrite last_vertices.
    set (c := chain_end a pre).
    assert (c ≠ a) as Hca by (by eapply cycle_not_home).
    rewrite decide_True by (by left).
    pose proof Hcyc as (_ & Hchain & _ & _ & _).
    apply chain_app in Hchain as [_ Hchain]. cbn [chain] in Hchain.
    destruct Hchain as [(e & He & Hjoin) _]. simpl in He, Hjoin. fold c in Hjoin.
    assert (e.1 = c ∨ e.2 = c) as Hinc by (destruct Hjoin as [->| ->]; simpl; auto).
    destruct (edge_index_spec edges c i e He Hinc) as (around & -> & Haround).
    assert (i ∈ (pre ++ (i, b) :: post).*1) as Hi_in by (rewrite fmap_app; set_solver).
    assert (i ∉ pre.*1) as Hi_new.
    { intros Hin. eapply cycle_indices_apart; [exact Hcyc|exact Hin|]. set_solver. }
    assert (i ∈ around ∖ list_to_set pre.*1) as Hi_diff.
    { apply elem_of_difference. split; [apply Haround; by exists e|].
      by rewrite elem_of_list_to_set. }
    destruct (head_set_iter_is_Some _ _ Hi_diff) as [next Hnext]. rewrite Hnext.
    assert (next = i) as ->.
    { apply head_set_iter in Hnext.
      apply elem_of_difference in Hnext as [Hn1 Hn2].
      apply Haround in Hn1 as (e' & He' & Hinc').
      rewrite elem_of_list_to_set in Hn2.
      by eapply (cycle_next_unique edges a pre i b post next e'). }
    rewrite decide_True.
    2:{ apply elem_of_difference. split; [|by rewrite elem_of_list_to_set].
        apply elem_of_list_to_set, elem_of_seq. apply lookup_lt_Some in He. lia. }
    rewrite He.
    assert (b ≠ c) as Hbc.
    { intros Hb. apply (cycle_apart edges a pre ((i, b) :: post) Hcyc c).
      - by apply cycle_here.
      - rewrite fmap_cons. simpl. rewrite Hb. by left. }
    assert (list_to_set (pre ++ [(i, b)]).*1 = ({[i]} ∪ list_to_set pre.*1 : gset nat))
      as Hstack.
    { rewrite fmap_app, list_to_set_app_L. simpl. set_solver. }
    assert (list_to_set (seq 0 (length edges)) ∖ ({[i]} ∪ list_to_set pre.*1) =
            ((list_to_set (seq 0 (length edges)) ∖ list_to_set pre.*1) ∖ {[i]} : gset nat))
      as Heset.
    { apply set_eq. intros j. rewrite !elem_of_difference, elem_of_union. tauto. }
    assert (a :: (pre ++ [(i, b)]).*2 = (a :: pre.*2) ++ [b]) as Hpoly.
    { by rewrite fmap_app. }
    specialize (IH (pre ++ [(i, b)]) fuel).
    rewrite <- app_assoc in IH. cbn [app] in IH.
    rewrite Hstack, Heset, Hpoly in IH.
    assert (pre ++ [(i, b)] ≠ []) as Hne by (by destruct pre).
    simpl in Hfuel.
    destruct Hjoin as [->| ->].
    + rewrite decide_True by done. apply IH; [done|done|lia].
    + rewrite decide_False by done. rewrite decide_True by done.
      apply IH; [done|done|lia].
Qed.

End walk.

Lemma closed_cycle_length edges a steps :
  closed_cycle edges a steps → length steps = length edges ∧ 0 < length edges.
Proof.
  intros (Hne & _ & _ & _ & Hperm). apply Permutation_length in Hperm.
  rewrite length_fmap, length_seq in Hperm. split; [done|].
  destruct steps; [done|]. simpl in Hperm. lia.
Qed.

(** C9.  When the edge list is a single closed cycle, [trace_poly] yields
    exactly one polygon and ends; the polygon is the vertex sequence of a
    walk round the cycle that crosses every input edge exactly once, and its
    first and last vertex are the same. *)
Theorem trace_poly_cycle set_iter set_pop edges a steps :
  set_order_spec set_iter → set_pop_spec set_pop →
  closed_cycle edges a steps →
  ∃ x walked,
    closed_cycle edges x walked ∧
    trace_poly set_iter set_pop edges = Some (mkGen [x :: walked.*2] None) ∧
    head (x :: walked.*2) = Some x ∧ last (x :: walked.*2) = Some x.
Proof.
  intros Hiter Hpop Hcyc.
  destruct (closed_cycle_length _ _ _ Hcyc) as [_ Hn].
  unfold trace_poly. cbn [trace].
  set (eset := list_to_set (seq 0 (length edges)) : gset nat).
  assert (set_pop eset ∈ eset) as Hin.
  { apply Hpop. intros Heq. assert (0 ∈ eset) as H0.
    { apply elem_of_list_to_set, elem_of_seq. lia. }
    rewrite Heq in H0. by apply not_elem_of_empty in H0. }
  rewrite decide_True.
  2:{ assert (size eset ≠ 0); [|lia].
      apply size_non_empty_iff. intros Heq. apply (Heq (set_pop eset)) in Hin.
      by apply not_elem_of_empty in Hin. }
  set (eidx := set_pop eset) in *.
  assert (eidx < length edges) as Hlt.
  { apply elem_of_list_to_set, elem_of_seq in Hin. lia. }
  destruct (lookup_lt_is_Some_2 edges eidx Hlt) as [[x y] He]. rewrite He.
  destruct (closed_cycle_start edges a steps eidx x y Hcyc He) as [rest Hstart].
  destruct (closed_cycle_length _ _ _ Hstart) as [Hlen _]. simpl in Hlen.
  pose proof (walk_cycle set_iter Hiter edges x rest [(eidx, y)] (length edges))
    as Hwalk.
  cbn [app fmap list_fmap fst snd list_to_set] in Hwalk.
  assert (({[eidx]} ∪ ∅ : gset nat) = {[eidx]}) as Hone.
  { apply set_eq. intros j. rewrite elem_of_union, elem_of_empty. tauto. }
  rewrite Hone in Hwalk.
  fold eset in Hwalk. rewrite Hwalk; [|done|done|lia].
  destruct (length edges) as [|n] eqn:En; [lia|].
  cbn [trace mbind option_bind]. rewrite decide_False by (rewrite size_empty; lia).
  cbn [yields raised].
  exists x, ((eidx, y) :: rest). split_and!; try done.
  rewrite last_vertices. f_equal. by destruct Hstart as (_ & _ & Hend & _).
Qed.

Lemma first_element_spec : set_pop_spec first_element.
Proof.
  intros X HX. unfold first_element. apply elem_of_elements.
  destruct (elements X) as [|x l] eqn:E.
  - apply elements_empty_iff in E. by apply leibniz_equiv in E.
  - simpl. by left.
Qed.

Lemma triangle_edges_cycle : closed_cycle triangle_edges 5 [(0, 7); (2, 9); (1, 5)].
Proof.
  split_and!; try done.
  - cbn. split_and!; try done; eexists; (split; [reflexivity|]); by left.
  - cbn. repeat constructor; set_solver.
  - cbn. apply perm_skip, perm_swap.
Qed.

Lemma trace_poly_cycle_witness :
  set_order_spec elements ∧ set_pop_spec first_element ∧
  closed_cycle triangle_edges 5 [(0, 7); (2, 9); (1, 5)] ∧
  ∃ x walked,
    closed_cycle triangle_edges x walked ∧
    trace_poly elements first_element triangle_edges
      = Some (mkGen [x :: walked.*2] None) ∧
    head (x :: walked.*2) = Some x ∧ last (x :: walked.*2) = Some x.
Proof.
  split_and!; [apply elements_order_spec|apply first_element_spec|
               apply triangle_edges_cycle|].
  exact (trace_poly_cycle elements first_element triangle_edges 5 _
           elements_order_spec first_element_spec triangle_edges_cycle).
Defined.

(** ** [Surface.geodesic_distance]: the minimum shift *)

Lemma foldl_min2_finite l : ∀ x,
  Forall finite (x :: l) →
  ∃ r, foldl F.min2 x l = Fin r ∧ Fin r ∈ x :: l ∧
       Forall (λ y, ∃ s, y = Fin s ∧ (r <= s)%R) (x :: l).
Proof.
  induction l as [|y l IH]; intros x Hfin.
  - apply Forall_cons in Hfin as [[r ->] _]. exists r. simpl. split_and!; [done|set_solver|].
    constructor; [|done]. exists r. split; [done|lra].
  - apply Forall_cons in Hfin as [[a ->] Hfin].
    pose proof Hfin as [[b ->] Hl]%Forall_cons.
    cbn [foldl F.min2 F.ltb].
    destruct (Rlt_dec b a) as [Hlt|Hge].
    + destruct (IH (Fin b) Hfin) as (r & -> & Hin & Hall). exists r.
      split_and!; [done|set_solver|].
      pose proof Hall as [(s & [= <-] & Hs) _]%Forall_cons.
      constructor; [|done]. exists a. split; [done|lra].
    + destruct (IH (Fin a) (Forall_cons_2 _ _ _ (ex_intro _ a eq_refl) Hl))
        as (r & -> & Hin & Hall). exists r.
      apply Forall_cons in Hall as [(s & [= <-] & Hs) Hall].
      split_and!; [done|set_solver|].
      constructor; [exists a; split; [done|lra]|].
      constructor; [exists b; split; [done|lra]|done].
Qed.

Lemma min_finite l lo :
  Forall finite l → F.min l = Ok lo →
  lo ∈ l ∧ Forall (λ x, nonneg (F.sub x lo)) l.
Proof.
  destruct l as [|x l]; [done|]. intros Hfin [= <-].
  destruct (foldl_min2_finite l x Hfin) as (r & -> & Hin & Hall). split; [done|].
  eapply Forall_impl; [exact Hall|]. intros y (s & -> & Hs).
  exists (s + - r)%R. split; [done|lra].
Qed.

Lemma foldr_insert_Forall {A B} (P : A → Prop) (f : B → nat * A) (base : list A)
    (l : list B) :
  Forall P base → Forall (λ b, P (f b).2) l →
  Forall P (foldr (λ b x, <[(f b).1 := (f b).2]> x) base l).
Proof.
  intros Hbase. induction 1 as [|b l Hb _ IH]; simpl; [done|].
  by apply Forall_insert.
Qed.

Lemma put_rows_Forall (P : fl → Prop) n rows vals x :
  put_rows n rows vals = Ok x → P F.zero → Forall P vals → Forall P x.
Proof.
  unfold put_rows. intros Hx Hz Hvals. destruct (decide _).
  - injection Hx as <-. apply (foldr_insert_Forall P (λ iv, iv)).
    + by apply Forall_replicate.
    + apply Forall_forall. intros [i v] Hin%elem_of_zip_r. simpl.
      by eapply Forall_forall in Hvals.
  - destruct vals as [|v [|]]; try done. injection Hx as <-.
    apply Forall_cons in Hvals as [Hv _].
    apply (foldr_insert_Forall P (λ i, (i, v))).
    + by apply Forall_replicate.
    + by apply Forall_forall.
Qed.

(** Whatever the solver, as long as its answer to the Poisson system is
    finite: a returning call gives no negative distance, because the
    smallest solved value is taken off every solved value and the rows left
    out stay at zero.  Which rows end at zero is the solver's doing. *)
Lemma heat_solve_nonneg self goodrows rlfac nlc verts phi :
  (∀ b, Forall finite (solve nlc b)) →
  heat_solve self goodrows rlfac nlc verts = Ok phi →
  Forall nonneg phi.
Proof.
  intros Hfin. unfold heat_solve.
  intros (u0 & _ & H)%bind_Ok. apply bind_Ok in H as (u & _ & H).
  apply bind_Ok in H as (pp & _ & H). apply bind_Ok in H as (fnorms & _ & H).
  apply bind_Ok in H as (areas & _ & H). apply bind_Ok in H as (pu & _ & H).
  apply bind_Ok in H as ([[c1 c2] c3] & _ & H).
  destruct (decide (length (pts self) = 1)); [done|].
  apply bind_Ok in H as (lo & Hlo & H).
  eapply put_rows_Forall; [exact H| |].
  - exists 0%R. split; [done|lra].
  - apply min_finite in Hlo as [_ Hall]; [|apply Hfin].
    apply Forall_fmap. exact Hall.
Qed.

(** ** [Surface.extract_chunk]: the breadth-first loop *)

Lemma incidence_pos v p : 0 < incidence v p ↔ v ∈ face_verts p.
Proof.
  unfold incidence. destruct p as [[a b] c]. cbn [face_verts].
  rewrite !filter_cons, filter_nil.
  rewrite !elem_of_cons, elem_of_nil.
  repeat case_decide; simpl; split; intros; try lia; naive_solver.
Qed.

Lemma elem_of_indices_row self v f :
  f ∈ indices (connected_row self v) ↔
  ∃ p, polys self !! f = Some p ∧ v ∈ face_verts p.
Proof.
  unfold indices, connected_row. rewrite list_elem_of_fmap. split.
  - intros ([f' m] & -> & [Hm Hin]%list_elem_of_filter). simpl in *.
    apply list_elem_of_lookup in Hin as [i Hi].
    rewrite list_lookup_imap in Hi.
    destruct (polys self !! i) as [p|] eqn:Hp; simplify_eq/=.
    exists p. split; [done|]. by apply incidence_pos.
  - intros (p & Hp & Hv). exists (f, incidence v p). split; [done|].
    apply list_elem_of_filter. split; [by apply incidence_pos|].
    apply list_elem_of_lookup. exists f. by rewrite list_lookup_imap, Hp.
Qed.

Lemma conn_rows_lookup self v :
  v < length (pts self) → conn_rows self !! v = Some (connected_row self v).
Proof.
  intros Hv. unfold conn_rows. by rewrite list_lookup_fmap, lookup_seq_lt.
Qed.

Lemma grows_refl q V : grows q V q V.
Proof.
  exists []. rewrite app_nil_r. split_and!; [done|constructor|by intros ? ?%elem_of_nil|].
  apply set_eq. intros v. rewrite elem_of_union, elem_of_list_to_set, elem_of_nil. tauto.
Qed.

Lemma grows_trans q V q1 V1 q2 V2 :
  grows q V q1 V1 → grows q1 V1 q2 V2 → grows q V q2 V2.
Proof.
  intros (n1 & -> & Hnd1 & Hnew1 & ->) (n2 & -> & Hnd2 & Hnew2 & ->).
  exists (n1 ++ n2). split_and!.
  - by rewrite app_assoc.
  - apply NoDup_app. split_and!; [done| |done].
    intros v Hv1 Hv2. apply (Hnew2 v Hv2).
    apply elem_of_union. right. by apply elem_of_list_to_set.
  - intros v [Hv|Hv]%elem_of_app; [by apply Hnew1|].
    intros HV. apply (Hnew2 v Hv). apply elem_of_union. by left.
  - apply set_eq. intros v.
    rewrite !elem_of_union, !elem_of_list_to_set, elem_of_app. tauto.
Qed.

Lemma visit_list_grows (l : list nat) (q : list nat) (V : gset nat) :
  ∃ q' V',
    foldl (λ (st : list nat * gset nat) pt,
             if decide (pt ∈ st.2) then st else (st.1 ++ [pt], {[pt]} ∪ st.2))
          (q, V) l = (q', V') ∧
    grows q V q' V' ∧ V' = V ∪ list_to_set l.
Proof.
  revert q V. induction l as [|x l IH]; intros q V.
  - exists q, V. split_and!; [done|apply grows_refl|].
    apply set_eq. intros v. rewrite elem_of_union, elem_of_list_to_set, elem_of_nil. tauto.
  - cbn [foldl fst snd]. destruct (decide (x ∈ V)) as [Hx|Hx].
    + destruct (IH q V) as (q' & V' & Hf & Hg & HV). exists q', V'.
      split_and!; [done|done|]. rewrite HV. apply set_eq. intros v.
      rewrite !elem_of_union, !elem_of_list_to_set, elem_of_cons.
      split; [tauto|]. intros [?|[->|?]]; tauto.
    + destruct (IH (q ++ [x]) ({[x]} ∪ V)) as (q' & V' & Hf & Hg & HV).
      exists q', V'. split_and!; [done| |].
      * eapply grows_trans; [|exact Hg]. exists [x]. split_and!; [done| | |].
        -- apply NoDup_singleton.
        -- by intros v ->%list_elem_of_singleton.
        -- apply set_eq. intros v.
           rewrite !elem_of_union, elem_of_list_to_set, list_elem_of_singleton,
             elem_of_singleton. tauto.
      * rewrite HV. apply set_eq. intros v.
        rewrite !elem_of_union, !elem_of_list_to_set, elem_of_cons, elem_of_singleton.
        tauto.
Qed.

Section bfs_facts.
Context (self : Surface) (seed : nat) (Hwf : well_formed self).

Lemma face_verts_in_range f p v :
  polys self !! f = Some p → v ∈ face_verts p → v < length (pts self).
Proof.
  intros Hf Hv. eapply Forall_lookup_1 in Hwf; [|done].
  unfold face_in_range in Hwf. by eapply Forall_forall in Hwf.
Qed.

Lemma visit_pts_inv node f p q F V :
  polys self !! f = Some p → node ∈ face_verts p →
  rtc (adjacent self) seed node →
  bfs_inv self seed q F V →
  ∃ q' V', visit_pts self f (q, V) = (q', V') ∧
           bfs_inv self seed q' ({[f]} ∪ F) V' ∧ grows q V q' V'.
Proof.
  intros Hf Hnode Hreach [Hseed Hr HF Hnd Hq].
  unfold visit_pts. rewrite Hf. simpl.
  destruct (visit_list_grows (face_verts p) q V) as (q' & V' & Hfold & Hg & HV).
  exists q', V'. split_and!; [done| |done].
  destruct Hg as (new & -> & Hnew_nd & Hnew & HV').
  split.
  - rewrite HV. apply elem_of_union. by left.
  - intros v. rewrite HV, elem_of_union, elem_of_list_to_set.
    intros [Hv|Hv]; [by apply Hr|]. split.
    + eapply rtc_r; [exact Hreach|]. by exists f, p.
    + by eapply face_verts_in_range.
  - intros g [->%elem_of_singleton|Hg]%elem_of_union.
    + exists p. split; [done|]. intros v Hv. rewrite HV.
      apply elem_of_union. right. by apply elem_of_list_to_set.
    + destruct (HF g Hg) as (pg & Hpg & Hvs). exists pg. split; [done|].
      intros v Hv. rewrite HV. apply elem_of_union. left. by apply Hvs.
  - apply NoDup_app. split_and!; [done| |done].
    intros v Hv1 Hv2. by apply (Hnew v Hv2), Hq.
  - intros v [Hv|Hv]%elem_of_app; rewrite HV'; apply elem_of_union.
    + left. by apply Hq.
    + right. by apply elem_of_list_to_set.
Qed.

Lemma visit_faces_inv node row : ∀ q F V,
  (∀ f, f ∈ row → ∃ p, polys self !! f = Some p ∧ node ∈ face_verts p) →
  rtc (adjacent self) seed node →
  bfs_inv self seed q F V →
  ∃ q' F' V', visit_faces self row (q, F, V) = (q', F', V') ∧
              bfs_inv self seed q' F' V' ∧ grows q V q' V' ∧
              F' = F ∪ list_to_set row.
Proof.
  unfold visit_faces.
  induction row as [|f row IH]; intros q F V Hrow Hreach Hinv.
  - exists q, F, V. split_and!; [done|done|apply grows_refl|].
    apply set_eq. intros v. rewrite elem_of_union, elem_of_list_to_set, elem_of_nil. tauto.
  - cbn [foldl]. destruct (decide (f ∈ F)) as [Hf|Hf].
    + destruct (IH q F V) as (q' & F' & V' & Hfold & Hinv' & Hg & HF');
        [set_solver|done|done|].
      exists q', F', V'. split_and!; [done|done|done|].
      rewrite HF'. apply set_eq. intros v.
      rewrite !elem_of_union, !elem_of_list_to_set, elem_of_cons.
      split; [tauto|]. intros [?|[->|?]]; tauto.
    + destruct (Hrow f) as (p & Hp & Hnode); [set_solver|].
      destruct (visit_pts_inv node f p q F V Hp Hnode Hreach Hinv)
        as (q1 & V1 & Hvisit & Hinv1 & Hg1).
      rewrite Hvisit.
      destruct (IH q1 ({[f]} ∪ F) V1) as (q' & F' & V' & Hfold & Hinv' & Hg & HF');
        [set_solver|done|done|].
      exists q', F', V'. split_and!; [done|done|by eapply grows_trans|].
      rewrite HF'. apply set_eq. intros v.
      rewrite !elem_of_union, !elem_of_list_to_set, elem_of_cons, elem_of_singleton.
      tauto.
Qed.

End bfs_facts.

Lemma grows_size q V q' V' :
  grows q V q' V' →
  length q' = length q + (size V' - size V) ∧ size V ≤ size V'.
Proof.
  intros (new & -> & Hnd & Hnew & ->).
  rewrite size_union.
  2:{ intros v Hv Hv'. apply elem_of_list_to_set in Hv'. by apply (Hnew v). }
  rewrite size_list_to_set by done. rewrite length_app. lia.
Qed.

Lemma size_in_range (V : gset nat) n : (∀ v, v ∈ V → v < n) → size V ≤ n.
Proof.
  intros HV. transitivity (size (list_to_set (seq 0 n) : gset nat)).
  - apply subseteq_size. intros v Hv. apply elem_of_list_to_set, elem_of_seq.
    specialize (HV v Hv). lia.
  - rewrite size_list_to_set by apply NoDup_seq. by rewrite length_seq.
Qed.

Lemma full_of_size (F : gset nat) n :
  (∀ f, f ∈ F → f < n) → n ≤ size F → ∀ f, f < n → f ∈ F.
Proof.
  intros HF Hsize f Hf.
  assert (F = list_to_set (seq 0 n)) as ->.
  { apply set_subseteq_size_eq.
    - intros v Hv. apply elem_of_list_to_set, elem_of_seq. specialize (HF v Hv). lia.
    - rewrite size_list_to_set by apply NoDup_seq. by rewrite length_seq. }
  apply elem_of_list_to_set, elem_of_seq. lia.
Qed.

Section bfs_loop.
Context (self : Surface) (seed nfaces : nat).
Context (Hwf : well_formed self) (Hnfaces : length (polys self) ≤ nfaces).

(** The faces collected are faces that can be reached. *)
Lemma collected_reached q F V f :
  bfs_inv self seed q F V → f ∈ F → face_reached self seed f.
Proof.
  intros [_ Hr HF _ _] Hf. destruct (HF f Hf) as (p & Hp & Hvs).
  destruct p as [[a b] c]. exists (a, b, c), a. split_and!; [done|by left|].
  apply Hr, Hvs. by left.
Qed.

(** Once every visited vertex is processed, every face that can be reached
    has been collected. *)
Lemma closed_reached F V f :
  bfs_inv self seed [] F V → (∀ v, v ∈ V → processed self F v) →
  face_reached self seed f → f ∈ F.
Proof.
  intros [Hseed _ HF _ _] Hdone (p & v & Hp & Hv & Hreach).
  assert (v ∈ V) as HvV.
  { eapply (rtc_ind_r (λ w, w ∈ V)); [exact Hseed| |exact Hreach].
    intros u w Hu (g & pg & Hg & Hug & Hwg) IH.
    destruct (HF g) as (pg' & Hpg' & Hvs); [by eapply Hdone|].
    rewrite Hg in Hpg'. injection Hpg' as <-. by apply Hvs. }
  by eapply Hdone.
Qed.

Lemma bfs_reached : ∀ fuel q F V,
  bfs_inv self seed q F V →
  (∀ v, v ∈ V → v ∈ q ∨ processed self F v) →
  length q + (length (pts self) - size V) < fuel →
  ∃ F', bfs self fuel nfaces q F V = Some (Ok F') ∧
        ∀ f, f ∈ F' ↔ face_reached self seed f.
Proof.
  induction fuel as [|fuel IH]; intros q F V Hinv Hdone Hfuel; [lia|].
  cbn [bfs]. destruct (decide (size F < nfaces)) as [Hsize|Hsize].
  - destruct q as [|node q].
    + exists F. split; [done|]. intros f. split.
      * by eapply collected_reached.
      * apply closed_reached with V; [done|]. intros v Hv.
        destruct (Hdone v Hv) as [?%elem_of_nil|?]; done.
    + pose proof Hinv as [Hseed Hr HF Hnd Hq].
      assert (node ∈ V) as HnodeV by (apply Hq; by left).
      destruct (Hr node HnodeV) as [Hreach Hlt].
      rewrite (connected_Ok self Hwf). cbn [mbind res_bind].
      fold (conn_rows self). unfold getitem. rewrite conn_rows_lookup by done.
      destruct (visit_faces_inv self seed Hwf node (indices (connected_row self node))
                  q F V) as (q' & F' & V' & Hvisit & Hinv' & Hg & HF').
      { intros f Hf. by apply elem_of_indices_row. }
      { done. }
      { apply NoDup_cons in Hnd as [_ Hnd]. split; try done.
        intros v Hv. apply Hq. by right. }
      rewrite Hvisit.
      apply IH; [done| |].
      * intros v Hv. pose proof Hg as (new & -> & _ & _ & ->).
        apply elem_of_union in Hv as [Hv|Hv].
        -- destruct (Hdone v Hv) as [[->|Hin]%elem_of_cons|Hp].
           ++ right. intros f p Hp Hvp. rewrite HF'. apply elem_of_union. right.
              apply elem_of_list_to_set, elem_of_indices_row. by exists p.
           ++ left. apply elem_of_app. by left.
           ++ right. intros f p Hfp Hvp. rewrite HF'. apply elem_of_union. left.
              by eapply Hp.
        -- left. apply elem_of_app. right. by apply elem_of_list_to_set in Hv.
      * destruct (grows_size _ _ _ _ Hg) as [Hlen Hle].
        assert (size V' ≤ length (pts self)) as Hbound.
        { apply size_in_range. intros v Hv. by apply (inv_reach _ _ _ _ _ Hinv'). }
        simpl in Hfuel. lia.
  - exists F. split; [done|]. intros f. split.
    + by eapply collected_reached.
    + intros (p & _ & Hp & _). apply (full_of_size F (length (polys self))).
      * intros g Hg. destruct (inv_faces _ _ _ _ _ Hinv g Hg) as (pg & Hpg & _).
        by eapply lookup_lt_Some.
      * lia.
      * by eapply lookup_lt_Some.
Qed.

(** The loop as [extract_chunk] starts it: it ends within its fuel, with
    exactly the faces that can be reached from the start vertex. *)
Lemma bfs_from_seed :
  seed < length (pts self) →
  ∃ F, bfs self (S (length (pts self))) nfaces [seed] ∅ {[seed]} = Some (Ok F) ∧
       ∀ f, f ∈ F ↔ face_reached self seed f.
Proof.
  intros Hseed. apply bfs_reached.
  - split.
    + by apply elem_of_singleton.
    + intros v ->%elem_of_singleton. split; [apply rtc_refl|done].
    + by intros f ?%not_elem_of_empty.
    + apply NoDup_singleton.
    + intros v ->%list_elem_of_singleton. by apply elem_of_singleton.
  - intros v ->%elem_of_singleton. left. by apply list_elem_of_singleton.
  - rewrite size_singleton. simpl. lia.
Qed.

End bfs_loop.

(** ** [Surface.extract_chunk]: the renumbering loop *)

Section renumbering.
Context (self : Surface) (auxpts : option (list vec3)).
Context (Haux : ∀ a, auxpts = Some a → length (pts self) ≤ length a).

Lemma renumbered_length order st :
  renumbered self auxpts order st → length (new_pts st) = length order.
Proof. intros [_ _ Hpts _]. symmetry. by eapply Forall2_length. Qed.

Lemma number_pt_spec order st pt :
  renumbered self auxpts order st → pt < length (pts self) →
  ∃ st' order',
    number_pt self auxpts st pt = Ok st' ∧
    renumbered self auxpts order' st' ∧
    order `prefix_of` order' ∧ pt ∈ order' ∧
    (∀ v, v ∈ order' → v ∈ order ∨ v = pt) ∧
    new_polys st' = new_polys st.
Proof.
  intros Hren Hpt. unfold number_pt.
  destruct (ptmap st !! pt) as [k|] eqn:Hk.
  - exists st, order. split_and!; try done.
    + apply (ren_ptmap _ _ _ _ Hren) in Hk. by eapply list_elem_of_lookup_2.
    + auto.
  - destruct (getitem_lt (pts self) pt Hpt) as [p Hp]. rewrite Hp. cbn [mbind res_bind].
    assert (pt ∉ order) as Hfresh.
    { intros [k Hin]%list_elem_of_lookup. apply (ren_ptmap _ _ _ _ Hren) in Hin. congruence. }
    pose proof (renumbered_length order st Hren) as Hlen.
    assert (∃ aux', match auxpts with
                    | Some a => q ← getitem a pt; Ok (new_aux st ++ [q])
                    | None => Ok (new_aux st)
                    end = Ok aux' ∧
                    ∀ a, auxpts = Some a →
                         Forall2 (λ v q, a !! v = Some q) (order ++ [pt]) aux')
      as (aux' & -> & Haux').
    { destruct auxpts as [a|] eqn:Ea.
      - destruct (getitem_lt a pt) as [q Hq]; [specialize (Haux a eq_refl); lia|].
        rewrite Hq. cbn [mbind res_bind]. eexists. split; [done|].
        intros a' [= <-]. apply Forall2_app; [by apply (ren_aux _ _ _ _ Hren)|].
        repeat constructor. by apply getitem_Ok.
      - eexists. split; [done|]. by intros a' [=]. }
    cbn [mbind res_bind]. eexists _, (order ++ [pt]). split_and!; try done.
    + split; cbn [ptmap new_pts new_aux].
      * intros v k. destruct (decide (v = pt)) as [->|Hne].
        -- rewrite lookup_insert_eq, Hlen. split.
           ++ intros [= <-]. by rewrite lookup_app_r, Nat.sub_diag.
           ++ intros Hin. f_equal. destruct (decide (k < length order)) as [Hlt|Hge].
              ** rewrite lookup_app_l in Hin by done.
                 exfalso. apply Hfresh. by eapply list_elem_of_lookup_2.
              ** apply lookup_lt_Some in Hin. rewrite length_app in Hin. simpl in Hin. lia.
        -- rewrite lookup_insert_ne by done. rewrite (ren_ptmap _ _ _ _ Hren). split.
           ++ intros Hin. by apply lookup_app_l_Some.
           ++ intros Hin. apply lookup_app_Some in Hin as [?|[_ Hin]]; [done|].
              apply list_lookup_singleton_Some in Hin as [_ ?]. congruence.
      * apply NoDup_app. split_and!; [by apply (ren_nodup _ _ _ _ Hren)| |apply NoDup_singleton].
        by intros v Hv ->%list_elem_of_singleton.
      * apply Forall2_app; [by apply (ren_pts _ _ _ _ Hren)|].
        repeat constructor. by apply getitem_Ok.
      * done.
    + by exists [pt].
    + apply elem_of_app. right. by apply list_elem_of_singleton.
    + intros v [?| ->%list_elem_of_singleton]%elem_of_app; auto.
Qed.

Lemma number_pts_spec l : ∀ order st,
  renumbered self auxpts order st → Forall (λ v, v < length (pts self)) l →
  ∃ st' order',
    number_pts self auxpts st l = Ok st' ∧
    renumbered self auxpts order' st' ∧
    order `prefix_of` order' ∧ (∀ v, v ∈ l → v ∈ order') ∧
    (∀ v, v ∈ order' → v ∈ order ∨ v ∈ l) ∧
    new_polys st' = new_polys st.
Proof.
  induction l as [|pt l IH]; intros order st Hren Hl.
  - exists st, order. split_and!; try done; [by intros v ?%elem_of_nil|auto].
  - apply Forall_cons in Hl as [Hpt Hl]. cbn [number_pts].
    destruct (number_pt_spec order st pt Hren Hpt)
      as (st1 & order1 & -> & Hren1 & Hpre1 & Hin1 & Hsub1 & Hp1).
    cbn [mbind res_bind].
    destruct (IH order1 st1 Hren1 Hl)
      as (st' & order' & Hn & Hren' & Hpre' & Hin' & Hsub' & Hp').
    exists st', order'. split_and!; try done.
    + by etrans.
    + intros v [->|Hv]%elem_of_cons; [|by apply Hin'].
      destruct Hpre' as [ext ->]. apply elem_of_app. by left.
    + intros v Hv. destruct (Hsub' v Hv) as [Hv1|Hv1].
      * destruct (Hsub1 v Hv1) as [?| ->]; [by left|]. right. by left.
      * right. by right.
    + congruence.
Qed.

Lemma renumbered_face_prefix order order' f row :
  order `prefix_of` order' →
  renumbered_face self order f row → renumbered_face self order' f row.
Proof.
  intros [ext ->] (p & Hp & Hrow). exists p. split; [done|].
  eapply Forall2_impl; [exact Hrow|]. intros v k Hk. by apply lookup_app_l_Some.
Qed.

Context (Hwf : well_formed self).

Lemma number_face_spec order st f p :
  renumbered self auxpts order st → polys self !! f = Some p →
  ∃ st' order' row,
    number_face self auxpts st f = Ok st' ∧
    renumbered self auxpts order' st' ∧
    order `prefix_of` order' ∧
    (∀ v, v ∈ order' ↔ v ∈ order ∨ v ∈ face_verts p) ∧
    new_polys st' = new_polys st ++ [row] ∧
    renumbered_face self order' f row.
Proof.
  intros Hren Hp. unfold number_face.
  rewrite (proj2 (getitem_Ok _ _ _) Hp). cbn [mbind res_bind].
  destruct (number_pts_spec (face_verts p) order st Hren)
    as (st1 & order1 & -> & Hren1 & Hpre1 & Hin1 & Hsub1 & Hp1).
  { eapply Forall_lookup_1 in Hwf; [|done]. exact Hwf. }
  cbn [mbind res_bind].
  assert (∃ row, traverse (λ v, match ptmap st1 !! v with
                                | Some k => Ok k
                                | None => Raise KeyError
                                end) (face_verts p) = Ok row ∧
                 Forall2 (λ v k, order1 !! k = Some v) (face_verts p) row)
    as (row & -> & Hrow).
  { revert Hin1. generalize (face_verts p). intros l Hl.
    induction l as [|v l IH]; [by exists []|].
    destruct (proj1 (list_elem_of_lookup _ _) (Hl v ltac:(by left))) as [k Hk].
    apply (ren_ptmap _ _ _ _ Hren1) in Hk as Hk'.
    destruct IH as (row & Hrow & Hall); [intros w Hw; apply Hl; by right|].
    exists (k :: row). cbn [traverse]. rewrite Hk', Hrow. split; [done|].
    by constructor. }
  cbn [mbind res_bind]. eexists. exists order1, row. split_and!; try done.
  - destruct Hren1 as [H1 H2 H3 H4]. by split.
  - intros v. split; [apply Hsub1|]. intros [Hv|Hv]; [|by apply Hin1].
    destruct Hpre1 as [ext ->]. apply elem_of_app. by left.
  - cbn [new_polys]. by rewrite Hp1.
  - by exists p.
Qed.

Lemma number_faces_spec L : ∀ order st,
  renumbered self auxpts order st → Forall (λ f, f < length (polys self)) L →
  ∃ st' order' rows,
    number_faces self auxpts st L = Ok st' ∧
    renumbered self auxpts order' st' ∧
    order `prefix_of` order' ∧
    (∀ v, v ∈ order' ↔
          v ∈ order ∨ ∃ f p, f ∈ L ∧ polys self !! f = Some p ∧ v ∈ face_verts p) ∧
    new_polys st' = new_polys st ++ rows ∧
    Forall2 (renumbered_face self order') L rows.
Proof.
  induction L as [|f L IH]; intros order st Hren HL.
  - exists st, order, []. rewrite app_nil_r. split_and!; try done.
    intros v. split; [auto|]. intros [?|(f & p & ?%elem_of_nil & _)]; done.
  - apply Forall_cons in HL as [Hf HL]. cbn [number_faces].
    destruct (lookup_lt_is_Some_2 _ _ Hf) as [p Hp].
    destruct (number_face_spec order st f p Hren Hp)
      as (st1 & order1 & row & -> & Hren1 & Hpre1 & Hin1 & Hp1 & Hrow).
    cbn [mbind res_bind].
    destruct (IH order1 st1 Hren1 HL)
      as (st' & order' & rows & Hn & Hren' & Hpre' & Hin' & Hp' & Hrows).
    exists st', order', (row :: rows). split_and!; try done.
    + by etrans.
    + intros v. rewrite Hin', Hin1. split.
      * intros [[?|Hv]|(g & pg & Hg & Hpg & Hv)]; [by left| |].
        -- right. exists f, p. split_and!; [by left|done|done].
        -- right. exists g, pg. split_and!; [by right|done|done].
      * intros [?|(g & pg & [->|Hg]%elem_of_cons & Hpg & Hv)]; [by left; left| |].
        -- rewrite Hp in Hpg. injection Hpg as <-. left. by right.
        -- right. by exists g, pg.
    + rewrite Hp', Hp1, <- app_assoc. done.
    + constructor; [|done]. by eapply renumbered_face_prefix.
Qed.

End renumbering.

(** ** [Surface.extract_chunk]: the sub-mesh returned *)

Lemma renumbered_init self auxpts : renumbered self auxpts [] (mkChunk ∅ [] [] []).
Proof.
  split; cbn [ptmap new_pts new_aux].
  - intros v k. by rewrite lookup_empty, lookup_nil.
  - constructor.
  - constructor.
  - intros a _. constructor.
Qed.

Lemma face_reached_lt self seed f : face_reached self seed f → f < length (polys self).
Proof. intros (p & v & Hp & _). by eapply lookup_lt_Some. Qed.

Lemma extract_chunk_spec self set_iter nfaces seed rnd auxpts :
  set_order_spec set_iter → well_formed self →
  length (polys self) ≤ nfaces →
  start_node self seed rnd < length (pts self) →
  (∀ a, auxpts = Some a → length (pts self) ≤ length a) →
  ∃ faces order new_pts new_aux new_polys,
    extract_chunk self set_iter nfaces seed rnd auxpts
      = Some (Ok (new_pts, new_aux, new_polys)) ∧
    NoDup faces ∧
    (∀ f, f ∈ faces ↔ face_reached self (start_node self seed rnd) f) ∧
    NoDup order ∧
    (∀ v, v ∈ order ↔ ∃ f p, f ∈ faces ∧ polys self !! f = Some p ∧ v ∈ face_verts p) ∧
    Forall2 (λ v p, pts self !! v = Some p) order new_pts ∧
    (∀ a, auxpts = Some a →
          ∃ qs, new_aux = Some qs ∧ Forall2 (λ v q, a !! v = Some q) order qs) ∧
    (auxpts = None → new_aux = None) ∧
    Forall2 (renumbered_face self order) faces new_polys.
Proof.
  intros Hiter Hwf Hn Hstart Haux. unfold extract_chunk.
  set (node := start_node self seed rnd) in *.
  assert (match seed with
          | Some s => Ok s
          | None => if decide (length (pts self) = 0) then Raise ValueError
                    else Ok (rnd `mod` length (pts self))
          end = Ok node) as ->.
  { subst node. unfold start_node in *. destruct seed as [s|]; [done|]. simpl in *.
    rewrite decide_False by lia. done. }
  destruct (bfs_from_seed self node nfaces Hwf Hn Hstart) as (F & -> & HF).
  cbn [mbind option_bind res_bind].
  assert (∀ f, f ∈ set_iter F ↔ face_reached self node f) as Hfaces.
  { intros f. by rewrite (Hiter F), elem_of_elements. }
  destruct (number_faces_spec self auxpts Haux Hwf (set_iter F) []
              (mkChunk ∅ [] [] []) (renumbered_init self auxpts))
    as (st & order & rows & -> & Hren & _ & Horder & Hrows & Hall).
  { apply Forall_forall. intros f Hf%Hfaces. by eapply face_reached_lt. }
  cbn [mbind res_bind new_polys app] in *.
  exists (set_iter F), order, (new_pts st), ((λ _, new_aux st) <$> auxpts), rows.
  rewrite Hrows. split_and!; try done.
  - rewrite (Hiter F). apply NoDup_elements.
  - by apply (ren_nodup _ _ _ _ Hren).
  - intros v. rewrite Horder. split; [|by right].
    by intros [?%elem_of_nil|?].
  - by apply (ren_pts _ _ _ _ Hren).
  - intros a ->. exists (new_aux st). split; [done|]. by apply (ren_aux _ _ _ _ Hren).
  - by intros ->.
Qed.

(** C6 (counterexample).  The offset triangle has four vertices and one
    face.  Asked for one face from vertex 1, [extract_chunk] returns the face
    and its three corners; vertex 0, which no face holds, is not in the
    result. *)
Lemma extract_chunk_drops_unused_vertex :
  length (pts offset_triangle) = 4 ∧ length (polys offset_triangle) = 1 ∧
  extract_chunk offset_triangle elements 1 (Some 1) 0 None
    = Some (Ok (drop 1 (pts offset_triangle), None, [[0; 1; 2]])).
Proof. split_and!; [done|done|]. vm_compute. reflexivity. Qed.

(** C6 (amended).  With a target of at least the total face count,
    [extract_chunk] returns the sub-mesh of the faces that can be reached from
    the start vertex through shared faces: [faces] lists exactly those faces,
    [order] exactly their corners, the new vertex [k] is the old vertex
    [order[k]] with its point (and auxiliary point), and the new face array
    is [faces] with every corner renumbered.  So the sub-mesh is the whole
    mesh when every face can be reached and every vertex is a corner of a
    face. *)
Theorem extract_chunk_reached self set_iter nfaces seed rnd auxpts :
  set_order_spec set_iter → well_formed self →
  length (polys self) ≤ nfaces →
  start_node self seed rnd < length (pts self) →
  (∀ a, auxpts = Some a → length (pts self) ≤ length a) →
  ∃ faces order new_pts new_aux new_polys,
    extract_chunk self set_iter nfaces seed rnd auxpts
      = Some (Ok (new_pts, new_aux, new_polys)) ∧
    NoDup faces ∧
    (∀ f, f ∈ faces ↔ face_reached self (start_node self seed rnd) f) ∧
    NoDup order ∧
    (∀ v, v ∈ order ↔ ∃ f p, f ∈ faces ∧ polys self !! f = Some p ∧ v ∈ face_verts p) ∧
    Forall2 (λ v p, pts self !! v = Some p) order new_pts ∧
    (∀ a, auxpts = Some a →
          ∃ qs, new_aux = Some qs ∧ Forall2 (λ v q, a !! v = Some q) order qs) ∧
    (auxpts = None → new_aux = None) ∧
    Forall2 (renumbered_face self order) faces new_polys ∧
    ((∀ f, f < length (polys self) → face_reached self (start_node self seed rnd) f) →
     (∀ v, v < length (pts self) →
           ∃ f p, polys self !! f = Some p ∧ v ∈ face_verts p) →
     faces ≡ₚ seq 0 (length (polys self)) ∧ order ≡ₚ seq 0 (length (pts self))).
Proof.
  intros Hiter Hwf Hn Hstart Haux.
  destruct (extract_chunk_spec self set_iter nfaces seed rnd auxpts Hiter Hwf Hn Hstart Haux)
    as (faces & order & new_pts & new_aux & new_polys & Hcall & Hnd & Hfaces & Hndo &
        Horder & Hpts & Hauxs & Hnone & Hpolys).
  exists faces, order, new_pts, new_aux, new_polys. split_and!; try done.
  intros Hall Hused. split.
  - apply NoDup_Permutation; [done|apply NoDup_seq|].
    intros f. rewrite Hfaces, elem_of_seq. split.
    + intros Hf%face_reached_lt. lia.
    + intros [_ Hf]. apply Hall. simpl in Hf. lia.
  - apply NoDup_Permutation; [done|apply NoDup_seq|].
    intros v. rewrite Horder, elem_of_seq. split.
    + intros (f & p & _ & Hp & Hv). split; [lia|]. simpl.
      eapply Forall_lookup_1 in Hwf; [|done]. unfold face_in_range in Hwf.
      by eapply Forall_forall in Hwf.
    + intros [_ Hv]. simpl in Hv. destruct (Hused v Hv) as (f & p & Hp & Hvp).
      exists f, p. split_and!; [|done|done]. apply Hfaces, Hall. by eapply lookup_lt_Some.
Qed.

Lemma extract_chunk_reached_witness :
  set_order_spec elements ∧ well_formed offset_triangle ∧
  length (polys offset_triangle) ≤ 1 ∧
  start_node offset_triangle (Some 1) 0 < length (pts offset_triangle) ∧
  ∃ faces order new_pts new_aux new_polys,
    extract_chunk offset_triangle elements 1 (Some 1) 0 None
      = Some (Ok (new_pts, new_aux, new_polys)) ∧
    NoDup faces ∧
    (∀ f, f ∈ faces ↔ face_reached offset_triangle 1 f) ∧
    NoDup order ∧
    (∀ v, v ∈ order ↔
          ∃ f p, f ∈ faces ∧ polys offset_triangle !! f = Some p ∧ v ∈ face_verts p) ∧
    Forall2 (λ v p, pts offset_triangle !! v = Some p) order new_pts ∧
    new_aux = None ∧
    Forall2 (renumbered_face offset_triangle order) faces new_polys.
Proof.
  assert (start_node offset_triangle (Some 1) 0 < length (pts offset_triangle)) as Hs
    by (simpl; lia).
  assert (length (polys offset_triangle) ≤ 1) as Hn by (simpl; lia).
  split_and!; [apply elements_order_spec|apply offset_triangle_well_formed|done|done|].
  destruct (extract_chunk_reached offset_triangle elements 1 (Some 1) 0 None
              elements_order_spec offset_triangle_well_formed Hn Hs
              ltac:(by intros a [=]))
    as (faces & order & new_pts & new_aux & new_polys & Hcall & Hnd & Hfaces & Hndo &
        Horder & Hpts & _ & Hnone & Hpolys & _).
  exists faces, order, new_pts, new_aux, new_polys. split_and!; try done. by apply Hnone.
Defined.

(** ** [sort_polys]: rows turned to their smallest entry *)

Lemma sort_polys_row (a b c : nat) :
  sort_polys [(a, b, c)] =
    [if decide (a ≤ b ∧ a ≤ c) then (a, b, c)
     else if decide (b ≤ c) then (b, c, a) else (c, a, b)].
Proof.
  unfold sort_polys, argmin. cbn [map face_verts argmin_from].
  repeat (case_decide; cbn [argmin_from]); try lia; reflexivity.
Qed.

Lemma sort_polys_cons p polys :
  sort_polys (p :: polys) = sort_polys [p] ++ sort_polys polys.
Proof. done. Qed.

(** X22.  Every row of [sort_polys] is the input row turned, so with its corners in
    the same cyclic order, and its first entry is the smallest of them. *)
Theorem sort_polys_rotates polys :
  Forall2 (λ p q, q ∈ rotations p ∧ Forall (λ v, q.1.1 ≤ v) (face_verts p))
          polys (sort_polys polys).
Proof.
  induction polys as [|[[a b] c] polys IH]; [constructor|].
  rewrite sort_polys_cons, sort_polys_row. cbn [app]. constructor; [|exact IH].
  unfold rotations. cbn [face_verts].
  repeat case_decide; (split; [set_solver|]); repeat constructor; simpl; lia.
Qed.

(** X23.  Rows that [sort_polys] has turned are left as they are by a second
    [sort_polys]. *)
Theorem sort_polys_idempotent polys :
  sort_polys (sort_polys polys) = sort_polys polys.
Proof.
  induction polys as [|[[a b] c] polys IH]; [done|].
  rewrite sort_polys_cons, sort_polys_row. cbn [app].
  rewrite sort_polys_cons, IH. f_equal.
  repeat case_decide; rewrite sort_polys_row; repeat case_decide; try lia; reflexivity.
Qed.

(** X24.  Of a face with three different corners every rotation is turned into the
    same row. *)
Theorem sort_polys_canonical p q :
  q ∈ rotations p → NoDup (face_verts p) → sort_polys [q] = sort_polys [p].
Proof.
  destruct p as [[a b] c]. unfold rotations. cbn [face_verts].
  intros Hq Hnd.
  assert (a ≠ b ∧ a ≠ c ∧ b ≠ c) as (? & ? & ?).
  { apply NoDup_cons in Hnd as [Ha Hnd]. apply NoDup_cons in Hnd as [Hb _].
    set_solver. }
  assert (q = (a, b, c) ∨ q = (b, c, a) ∨ q = (c, a, b)) as [-> | [-> | ->]] by set_solver;
    rewrite !sort_polys_row; repeat case_decide; try lia; reflexivity.
Qed.

Lemma sort_polys_canonical_witness :
  (2, 0, 1) ∈ rotations (0, 1, 2) ∧ NoDup (face_verts (0, 1, 2)) ∧
  sort_polys [(2, 0, 1)] = sort_polys [(0, 1, 2)].
Proof.
  assert ((2, 0, 1) ∈ rotations (0, 1, 2)) as H1 by (unfold rotations; set_solver).
  assert (NoDup (face_verts (0, 1, 2))) as H2 by (simpl; repeat constructor; set_solver).
  split_and!; [exact H1|exact H2|exact (sort_polys_canonical (0, 1, 2) (2, 0, 1) H1 H2)].
Defined.

(** ** [boundary_edges]: the dictionary of edges *)

Lemma edges_get_append edges key i k :
  edges_get (edges_append edges key i) k =
    if decide (k = key) then Some (default [] (edges_get edges key) ++ [i])
    else edges_get edges k.
Proof.
  induction edges as [|[k' faces] rest IH]; simpl.
  - destruct (decide (key = k)), (decide (k = key)); congruence.
  - destruct (decide (k' = key)) as [->|Hne]; simpl.
    + destruct (decide (key = k)), (decide (k = key)); congruence.
    + rewrite IH. destruct (decide (k' = k)), (decide (k = key)); congruence.
Qed.

Lemma edges_append_keys edges key i :
  (edges_append edges key i).*1 =
    if decide (key ∈ edges.*1) then edges.*1 else edges.*1 ++ [key].
Proof.
  induction edges as [|[k faces] rest IH].
  - cbn [edges_append fmap list_fmap fst]. rewrite decide_False by set_solver. done.
  - cbn [edges_append]. destruct (decide (k = key)) as [->|Hne].
    + cbn [fmap list_fmap fst]. rewrite decide_True by set_solver. done.
    + cbn [fmap list_fmap fst] in *. rewrite IH.
      destruct (decide (key ∈ rest.*1)).
      * rewrite decide_True by set_solver. done.
      * rewrite decide_False by set_solver. done.
Qed.

Lemma edges_append_NoDup edges key i :
  NoDup edges.*1 → NoDup (edges_append edges key i).*1.
Proof.
  intros Hnd. rewrite edges_append_keys. case_decide; [done|].
  apply NoDup_app. split_and!; [done| |apply NoDup_singleton].
  intros k Hk ->%list_elem_of_singleton. done.
Qed.

Lemma edges_get_elem edges k faces :
  NoDup edges.*1 → (k, faces) ∈ edges ↔ edges_get edges k = Some faces.
Proof.
  induction edges as [|[k' faces'] rest IH]; simpl; intros Hnd.
  - split; [by intros ?%elem_of_nil|done].
  - apply NoDup_cons in Hnd as [Hk' Hnd]. rewrite elem_of_cons, (IH Hnd).
    destruct (decide (k' = k)) as [->|Hne].
    + split.
      * intros [[= ->]|Hget]; [done|]. exfalso. apply Hk'.
        apply (IH Hnd) in Hget. apply list_elem_of_fmap. by exists (k, faces).
      * intros [= ->]. by left.
    + split; [|by right]. intros [[= ? ?]|?]; [congruence|done].
Qed.

Lemma inserted_snoc ins key i k :
  inserted (ins ++ [(key, i)]) k =
    if decide (k = key) then inserted ins k ++ [i] else inserted ins k.
Proof.
  unfold inserted. rewrite filter_app, fmap_app. simpl.
  rewrite filter_cons, filter_nil. simpl.
  destruct (decide (key = k)), (decide (k = key)); try congruence; simpl.
  - done.
  - by rewrite app_nil_r.
Qed.

(** What the dictionary holds after the insertions [ins]. *)
Lemma edges_after ins :
  let edges := foldl (λ edges (x : nat * nat * nat), edges_append edges x.1 x.2) [] ins in
  NoDup edges.*1 ∧
  ∀ k, edges_get edges k = if decide (inserted ins k = []) then None
                           else Some (inserted ins k).
Proof.
  induction ins as [|[key i] ins IH] using rev_ind; simpl.
  - split; [constructor|]. intros k. done.
  - rewrite foldl_app. simpl. destruct IH as [Hnd Hget]. split.
    + by apply edges_append_NoDup.
    + intros k. rewrite edges_get_append, inserted_snoc.
      destruct (decide (k = key)) as [->|Hne]; [|apply Hget].
      rewrite (decide_False (P := inserted ins key ++ [i] = []))
        by (by intros [_ ?]%app_eq_nil).
      rewrite Hget. destruct (decide (inserted ins key = [])) as [->|]; done.
Qed.

Lemma foldl_insertions (l : list (nat * face)) : ∀ edges,
  foldl (λ edges (ip : nat * face),
           foldl (λ edges key, edges_append edges key ip.1) edges
                 (row_keys (sort_row ip.2))) edges l
  = foldl (λ edges (x : nat * nat * nat), edges_append edges x.1 x.2) edges
          (l ≫= λ ip, (λ k, (k, ip.1)) <$> row_keys (sort_row ip.2)).
Proof.
  induction l as [|ip l IH]; intros edges; [done|].
  cbn [foldl mbind list_bind]. rewrite foldl_app, <- IH. f_equal.
  generalize (row_keys (sort_row ip.2)). intros keys. revert edges.
  induction keys as [|k keys IHk]; intros edges; [done|]. simpl. by rewrite IHk.
Qed.

Lemma boundary_edges_inserted polys :
  NoDup (boundary_edges polys) ∧
  ∀ e, e ∈ boundary_edges polys ↔ length (inserted (insertions polys) e) = 1.
Proof.
  unfold boundary_edges. rewrite foldl_insertions.
  pose proof (edges_after (insertions polys)) as [Hnd Hget]. simpl in Hnd, Hget.
  fold (insertions polys).
  set (edges := foldl _ [] (insertions polys)) in *.
  split.
  - clearbody edges. clear Hget. induction edges as [|[k faces] rest IH]; [constructor|].
    apply NoDup_cons in Hnd as [Hk Hnd]. rewrite filter_cons.
    case_decide; [|by apply IH]. simpl. apply NoDup_cons. split; [|by apply IH].
    intros Hin. apply Hk. apply list_elem_of_fmap in Hin as [[k' f'] [-> Hin]].
    apply list_elem_of_filter in Hin as [_ Hin]. apply list_elem_of_fmap. by exists (k', f').
  - intros e. rewrite list_elem_of_fmap. split.
    + intros [[k faces] [-> [Hlen Hin]%list_elem_of_filter]]. simpl in *.
      apply (edges_get_elem _ _ _ Hnd) in Hin. rewrite Hget in Hin.
      case_decide; [done|]. by simplify_eq.
    + intros Hlen. exists (e, inserted (insertions polys) e). split; [done|].
      apply list_elem_of_filter. split; [done|].
      apply (edges_get_elem _ _ _ Hnd). rewrite Hget.
      rewrite decide_False; [done|]. intros Heq. by rewrite Heq in Hlen.
Qed.

Lemma row_keys_sorted p e :
  NoDup (face_verts p) →
  e ∈ row_keys (sort_row p) ↔ e.1 < e.2 ∧ e.1 ∈ face_verts p ∧ e.2 ∈ face_verts p.
Proof.
  destruct p as [[a b] c], e as [u v]. cbn [face_verts fst snd]. intros Hnd.
  assert (a ≠ b ∧ a ≠ c ∧ b ≠ c) as (? & ? & ?).
  { apply NoDup_cons in Hnd as [Ha Hnd]. apply NoDup_cons in Hnd as [Hb _].
    set_solver. }
  unfold sort_row.
  repeat (case_decide; try lia); cbn [row_keys];
    rewrite !elem_of_cons, !elem_of_nil; split.
  all: try (intros [[= -> ->]|[[= -> ->]|[[= -> ->]|[]]]]; split_and!; (lia || tauto)).
  all: intros (Hlt & [->|[->|[->|[]]]] & [->|[->|[->|[]]]]); try lia; tauto.
Qed.

Lemma insertions_snoc polys p :
  insertions (polys ++ [p]) =
    insertions polys ++ ((λ k, (k, length polys)) <$> row_keys (sort_row p)).
Proof.
  unfold insertions. rewrite imap_app, bind_app. f_equal.
  cbn [imap mbind list_bind fst snd]. rewrite app_nil_r, Nat.add_0_r. done.
Qed.

Lemma inserted_app ins1 ins2 e :
  inserted (ins1 ++ ins2) e = inserted ins1 e ++ inserted ins2 e.
Proof. unfold inserted. by rewrite filter_app, fmap_app. Qed.

Lemma inserted_row p n e :
  NoDup (face_verts p) →
  inserted ((λ k, (k, n)) <$> row_keys (sort_row p)) e =
    if decide (e ∈ row_keys (sort_row p)) then [n] else [].
Proof.
  intros Hnd.
  assert (NoDup (row_keys (sort_row p))) as Hkeys.
  { pose proof (row_keys_sorted p) as Hs.
    destruct (sort_row p) as [[x y] z] eqn:Hrow. cbn [row_keys] in *.
    pose proof (proj1 (Hs (x, y) Hnd) ltac:(set_solver)) as [? _].
    pose proof (proj1 (Hs (y, z) Hnd) ltac:(set_solver)) as [? _].
    simpl in *. repeat constructor; rewrite ?elem_of_cons, ?elem_of_nil;
      intros ?; destruct_or?; simplify_eq; lia. }
  destruct (sort_row p) as [[x y] z]. cbn [row_keys] in *.
  apply NoDup_cons in Hkeys as [H1 Hkeys]. apply NoDup_cons in Hkeys as [H2 _].
  unfold inserted. cbn [fmap list_fmap]. rewrite !filter_cons, filter_nil. cbn [fst].
  repeat case_decide; simplify_eq; cbn [fmap list_fmap snd]; try done; set_solver.
Qed.

(** With three different corners on every face, the faces inserted for an
    edge are the faces that hold it, each once. *)
Lemma inserted_faces polys e :
  Forall (λ p, NoDup (face_verts p)) polys →
  NoDup (inserted (insertions polys) e) ∧
  ∀ i, i ∈ inserted (insertions polys) e ↔ e.1 < e.2 ∧ on_face polys e i.
Proof.
  induction polys as [|p polys IH] using rev_ind; intros Hall.
  - split; [constructor|]. intros i. split; [by intros ?%elem_of_nil|].
    intros [_ (p & Hp & _)]. done.
  - apply Forall_app in Hall as [Hall [Hp _]%Forall_cons].
    destruct (IH Hall) as [Hnd Hin].
    rewrite insertions_snoc, inserted_app, (inserted_row _ _ _ Hp). split.
    + case_decide; [|by rewrite app_nil_r].
      apply NoDup_app. split_and!; [done| |apply NoDup_singleton].
      intros i [_ (q & Hq & _)]%Hin ->%list_elem_of_singleton.
      apply lookup_lt_Some in Hq. lia.
    + intros i. rewrite elem_of_app, Hin. unfold on_face. split.
      * intros [[Hlt (q & Hq & Hv)]|Hi].
        -- split; [done|]. exists q. split; [|done]. by apply lookup_app_l_Some.
        -- case_decide as Hkey; [|by apply elem_of_nil in Hi].
           apply list_elem_of_singleton in Hi as ->.
           apply (row_keys_sorted _ _ Hp) in Hkey as (? & ? & ?).
           split; [done|]. exists p. by rewrite list_lookup_middle.
      * intros [Hlt (q & Hq & Hv)].
        destruct (decide (i < length polys)) as [Hi|Hi].
        -- left. split; [done|]. exists q. split; [|done].
           by rewrite lookup_app_l in Hq.
        -- right. assert (i = length polys) as ->.
           { apply lookup_lt_Some in Hq. rewrite length_app in Hq. simpl in Hq. lia. }
           rewrite list_lookup_middle in Hq by done. simplify_eq.
           rewrite decide_True; [set_solver|].
           apply (row_keys_sorted _ _ Hp). done.
Qed.

Lemma length_one_unique (l : list nat) :
  NoDup l → length l = 1 ↔ ∃ i, i ∈ l ∧ ∀ j, j ∈ l → j = i.
Proof.
  intros Hnd. split.
  - destruct l as [|i [|]]; try done. intros _. exists i. set_solver.
  - intros (i & Hi & Huniq). destruct l as [|x [|y l]]; [by apply elem_of_nil in Hi|done|].
    exfalso. apply NoDup_cons in Hnd as [Hx _]. apply Hx.
    rewrite (Huniq x), <- (Huniq y); set_solver.
Qed.

(** X25.  On a mesh whose faces have three different corners each,
    [boundary_edges] returns every edge once, lower end first, that lies on
    exactly one face, and nothing else. *)
Theorem boundary_edges_one_face polys :
  Forall (λ p, NoDup (face_verts p)) polys →
  NoDup (boundary_edges polys) ∧
  ∀ a b, (a, b) ∈ boundary_edges polys ↔
         a < b ∧ ∃ i, on_face polys (a, b) i ∧ ∀ j, on_face polys (a, b) j → j = i.
Proof.
  intros Hall. destruct (boundary_edges_inserted polys) as [Hnd Hin]. split; [done|].
  intros a b. rewrite Hin.
  destruct (inserted_faces polys (a, b) Hall) as [Hnd' Hin'].
  rewrite (length_one_unique _ Hnd'). split.
  - intros (i & [Hlt Hi]%Hin' & Huniq). split; [done|]. exists i. split; [done|].
    intros j Hj. apply Huniq, Hin'. done.
  - intros (Hlt & i & Hi & Huniq). exists i. split; [by apply Hin'|].
    intros j [_ Hj]%Hin'. by apply Huniq.
Qed.

Lemma boundary_edges_one_face_witness :
  Forall (λ p, NoDup (face_verts p)) [(0, 1, 2); (2, 1, 3)] ∧
  NoDup (boundary_edges [(0, 1, 2); (2, 1, 3)]) ∧
  ((1, 2) ∈ boundary_edges [(0, 1, 2); (2, 1, 3)] ↔
   1 < 2 ∧ ∃ i, on_face [(0, 1, 2); (2, 1, 3)] (1, 2) i ∧
                ∀ j, on_face [(0, 1, 2); (2, 1, 3)] (1, 2) j → j = i).
Proof.
  assert (Forall (λ p, NoDup (face_verts p)) [(0, 1, 2); (2, 1, 3)]) as Hall.
  { repeat constructor; set_solver. }
  split; [exact Hall|].
  destruct (boundary_edges_one_face [(0, 1, 2); (2, 1, 3)] Hall) as [Hnd Hin].
  split; [exact Hnd|exact (Hin 1 2)].
Defined.

(** ** [make_cube]: a closed surface *)

(** X26.  The cube of [make_cube], whatever its center and size: eight points and
    twelve faces in range of them, no edge on one face only, and every side
    run through once in each direction. *)
Theorem make_cube_closed center size :
  let '(pts, polys) := make_cube center size in
  length pts = 8 ∧ length polys = 12 ∧
  well_formed (mkSurface pts polys) ∧
  boundary_edges polys = [] ∧
  NoDup (directed_edges polys) ∧
  Forall (λ e, (e.2, e.1) ∈ directed_edges polys) (directed_edges polys).
Proof.
  unfold make_cube. cbv zeta.
  split_and!.
  - by rewrite !length_map.
  - done.
  - unfold well_formed. cbn [pts polys]. rewrite !length_map.
    apply (bool_decide_unpack _). vm_compute. exact I.
  - vm_compute. done.
  - apply (bool_decide_unpack _). vm_compute. exact I.
  - apply (bool_decide_unpack _). vm_compute. exact I.
Qed.

(** ** [_ptset]: numbering points *)

Lemma eqb_eq x y : F.eqb x y = true → x = y.
Proof.
  destruct x, y; simpl; try done. destruct (Req_dec_T r r0); [by subst|done].
Qed.

Lemma vec_eqb_eq a b : vec_eqb a b = true → a = b.
Proof.
  destruct a as [[a1 a2] a3], b as [[b1 b2] b3]. unfold vec_eqb. simpl.
  intros [[H1%eqb_eq H2%eqb_eq]%andb_prop H3%eqb_eq]%andb_prop. by subst.
Qed.

Lemma ptset_find_app s1 s2 key :
  ptset_find (s1 ++ s2) key =
    match ptset_find s1 key with Some v => Some v | None => ptset_find s2 key end.
Proof.
  induction s1 as [|[k v] s1 IH]; simpl; [done|]. by destruct (vec_eqb k key).
Qed.

Lemma ptset_find_Some s key v :
  ptset_find s key = Some v → ∃ k, (k, v) ∈ s ∧ vec_eqb k key = true.
Proof.
  induction s as [|[k w] s IH]; simpl; [done|].
  destruct (vec_eqb k key) eqn:E.
  - intros [= ->]. exists k. split; [left|done].
  - intros (k' & Hin & Hk')%IH. exists k'. split; [by right|done].
Qed.

Lemma ptset_after_snoc keys key :
  ptset_after (keys ++ [key]) = (ptset_getitem (ptset_after keys) key).2.
Proof. unfold ptset_after. by rewrite foldl_app. Qed.

(** In a set that grew from the empty one the values count the keys. *)
Lemma ptset_after_values keys : (ptset_after keys).*2 = seq 0 (length (ptset_after keys)).
Proof.
  induction keys as [|key keys IH] using rev_ind; [done|].
  rewrite ptset_after_snoc. generalize dependent (ptset_after keys). intros s IH.
  unfold ptset_getitem. destruct (ptset_find s key); simpl; [done|].
  rewrite fmap_app, length_app, IH. simpl. by rewrite seq_app.
Qed.

Lemma ptset_value_lookup (s : ptset) k v :
  s.*2 = seq 0 (length s) → (k, v) ∈ s → s !! v = Some (k, v).
Proof.
  intros Hval [i Hi]%list_elem_of_lookup.
  assert (s.*2 !! i = Some v) as Hv by (by rewrite list_lookup_fmap, Hi).
  rewrite Hval in Hv. apply lookup_seq in Hv as [-> _]. done.
Qed.

(** X13.  Looking a point up gives its position in [points], and looking it up
    again gives the same number and adds nothing. *)
Theorem ptset_getitem_round_trip keys key :
  vec_eqb key key = true →
  let s := ptset_after keys in
  let '(i, s') := ptset_getitem s key in
  points s' !! i = Some key ∧
  ptset_getitem s' key = (i, s') ∧
  s' = ptset_after (keys ++ [key]) ∧
  (key ∈ points s → s' = s).
Proof.
  intros Hkey s. pose proof (ptset_after_values keys) as Hval. fold s in Hval.
  assert (ptset_after (keys ++ [key]) = (ptset_getitem s key).2) as Hafter
    by apply ptset_after_snoc.
  destruct (ptset_getitem s key) as [i s'] eqn:Hget. simpl in Hafter.
  unfold ptset_getitem in Hget. destruct (ptset_find s key) as [v|] eqn:Hfind.
  - injection Hget as <- <-. split_and!; [| |done|done].
    + apply ptset_find_Some in Hfind as (k & Hin & ->%vec_eqb_eq).
      unfold points. rewrite list_lookup_fmap.
      by rewrite (ptset_value_lookup s _ v Hval Hin).
    + unfold ptset_getitem. by rewrite Hfind.
  - injection Hget as <- <-. split_and!; [| |done|].
    + unfold points. rewrite fmap_app. by rewrite lookup_app_r, length_fmap, Nat.sub_diag by (by rewrite length_fmap).
    + unfold ptset_getitem. rewrite ptset_find_app, Hfind. simpl. by rewrite Hkey.
    + intros [[k v] [-> Hin]]%list_elem_of_fmap. exfalso. simpl in *.
      clear -Hfind Hin Hkey. induction s as [|[k' v'] s IH]; [by apply elem_of_nil in Hin|].
      simpl in Hfind. destruct (vec_eqb k' k) eqn:E; [done|].
      apply elem_of_cons in Hin as [[= <- <-]|Hin]; [congruence|]. by apply IH.
Qed.

Lemma ptset_getitem_round_trip_witness :
  vec_eqb (Fin 1, Fin 2, Fin 3) (Fin 1, Fin 2, Fin 3) = true ∧
  points (ptset_getitem (ptset_after [(Fin 0, Fin 0, Fin 0)]) (Fin 1, Fin 2, Fin 3)).2
    !! 1 = Some (Fin 1, Fin 2, Fin 3).
Proof.
  assert (vec_eqb (Fin 1, Fin 2, Fin 3) (Fin 1, Fin 2, Fin 3) = true) as H.
  { unfold vec_eqb. cbn [fst snd]. by rewrite !FFacts.eqb_refl_fin. }
  split; [exact H|].
  pose proof (ptset_getitem_round_trip [(Fin 0, Fin 0, Fin 0)] (Fin 1, Fin 2, Fin 3) H) as Hrt.
  cbv zeta in Hrt.
  assert (ptset_getitem (ptset_after [(Fin 0, Fin 0, Fin 0)]) (Fin 1, Fin 2, Fin 3)
          = (1, [((Fin 0, Fin 0, Fin 0), 0); ((Fin 1, Fin 2, Fin 3), 1)])) as Hget.
  { unfold ptset_after, ptset_getitem.
    cbn [foldl ptset_find snd app length]. unfold vec_eqb. cbn [fst snd].
    rewrite (eqb_fin_ne 0 1) by lra. done. }
  rewrite Hget in Hrt |- *. exact (proj1 Hrt).
Defined.

(** ** [_quadset]: quads that cancel *)

Lemma quadset_after_snoc quads q :
  quadset_after (quads ++ [q]) = quadset_call (quadset_after quads) q.
Proof. unfold quadset_after. by rewrite foldl_app. Qed.

Lemma quadset_call_keys s q :
  (quadset_call s q).*1 =
    if decide (quad_key q ∈ s.*1) then filter (λ k, k ≠ quad_key q) s.*1
    else s.*1 ++ [quad_key q].
Proof.
  unfold quadset_call. case_decide.
  - clear. induction s as [|[k v] s IH]; [done|].
    cbn [fmap list_fmap fst]. rewrite !filter_cons. cbn [fst].
    case_decide; cbn [fmap list_fmap fst]; by rewrite IH.
  - by rewrite fmap_app.
Qed.

Lemma quadset_call_length s q :
  quad_key q ∉ s.*1 → length (quadset_call s q) = S (length s).
Proof.
  intros Hq. unfold quadset_call. rewrite decide_False by done.
  rewrite length_app. simpl. lia.
Qed.

(** X14.  After any run of calls the set holds a key once at most, it holds just
    the keys called an odd number of times, and [triangles] cuts each stored
    quad into two. *)
Theorem quadset_parity quads k :
  NoDup (quadset_after quads).*1 ∧
  (k ∈ (quadset_after quads).*1 ↔ Nat.odd (calls_with quads k) = true) ∧
  length (triangles (quadset_after quads)) = 2 * length (quadset_after quads).
Proof.
  split_and!.
  - induction quads as [|q quads IH] using rev_ind; [constructor|].
    rewrite quadset_after_snoc, quadset_call_keys. case_decide as Hin.
    + by apply NoDup_filter.
    + apply NoDup_app. split_and!; [done| |apply NoDup_singleton].
      by intros x Hx ->%list_elem_of_singleton.
  - induction quads as [|q quads IH] using rev_ind.
    { split; [by intros ?%elem_of_nil|done]. }
    rewrite quadset_after_snoc, quadset_call_keys. unfold calls_with in *.
    rewrite filter_app, length_app, filter_cons, filter_nil.
    destruct (decide (quad_key q = k)) as [Hk|Hk]; cbn [length].
    + rewrite Nat.add_1_r, Nat.odd_succ, <- Nat.negb_odd. subst k.
      case_decide as Hin.
      * rewrite list_elem_of_filter. apply IH in Hin as ->. split; [by intros [? _]|done].
      * rewrite elem_of_app, list_elem_of_singleton.
        destruct (Nat.odd _); [exfalso; by apply Hin, IH|]. split; [done|by right].
    + rewrite Nat.add_0_r, <- IH. case_decide as Hin.
      * rewrite list_elem_of_filter. split; [by intros [_ ?]|]. intros ?. split; [congruence|done].
      * rewrite elem_of_app, list_elem_of_singleton. split; [|by left].
        intros [?|?]; [done|congruence].
  - unfold triangles. generalize (quadset_after quads). intros s.
    induction s as [|[key [[[a b] c] d]] s IH]; [done|].
    cbn [fmap list_fmap snd mbind list_bind app length] in *. rewrite IH. lia.
Qed.

(** X15.  However the four corners of a quad are written, its key is the same;
    so a second call with the same corners undoes the first. *)
Theorem quadset_call_twice s q q' :
  quad_verts q' ≡ₚ quad_verts q → quad_key q ∉ s.*1 →
  quadset_call (quadset_call s q) q' = s.
Proof.
  intros Hperm Hq.
  assert (quad_key q' = quad_key q) as Hkey.
  { unfold quad_key. apply (Sorted_unique Nat.le); [apply Sorted_merge_sort; apply _..|].
    by rewrite !merge_sort_Permutation. }
  unfold quadset_call at 2. rewrite decide_False by done.
  unfold quadset_call. rewrite Hkey, fmap_app. rewrite decide_True by set_solver.
  rewrite filter_app, filter_cons, filter_nil. cbn [fst].
  rewrite decide_False by (intros ?; done). rewrite app_nil_r.
  clear -Hq. induction s as [|[k v] s IH]; [done|].
  rewrite filter_cons. cbn [fst]. rewrite decide_True by set_solver.
  f_equal. apply IH. set_solver.
Qed.

Lemma quadset_call_twice_witness :
  quad_verts (3, 2, 1, 0) ≡ₚ quad_verts (0, 1, 2, 3) ∧
  quadset_call (quadset_call [] (0, 1, 2, 3)) (3, 2, 1, 0) = [].
Proof.
  assert (quad_verts (3, 2, 1, 0) ≡ₚ quad_verts (0, 1, 2, 3)) as Hperm.
  { simpl. apply NoDup_Permutation.
    - apply (bool_decide_unpack _). vm_compute. exact I.
    - apply (bool_decide_unpack _). vm_compute. exact I.
    - intros x. set_solver. }
  split; [exact Hperm|].
  apply (quadset_call_twice [] (0, 1, 2, 3) (3, 2, 1, 0) Hperm).
  intros ?%elem_of_nil. done.
Defined.

(** ** [Surface.polyhedra]: the items yielded *)

Lemma ptset_getitem_counted s key i s' :
  counted s → ptset_getitem s key = (i, s') →
  counted s' ∧ i < length s' ∧ s `prefix_of` s'.
Proof.
  unfold counted, ptset_getitem. intros Hs. destruct (ptset_find s key) as [v|] eqn:Hfind.
  - intros [= <- <-]. split_and!; [done| |done].
    apply ptset_find_Some in Hfind as (k & Hin & _).
    assert (v ∈ s.*2) as Hv by (apply list_elem_of_fmap; by exists (k, v)).
    rewrite Hs in Hv. apply elem_of_seq in Hv. lia.
  - intros [= <- <-]. split_and!.
    + rewrite fmap_app, length_app, Hs. simpl. by rewrite seq_app.
    + rewrite length_app. simpl. lia.
    + by apply prefix_app_r.
Qed.

Lemma quads_below_mono n n' q : n ≤ n' → quads_below n q → quads_below n' q.
Proof.
  intros Hn Hq. eapply Forall_impl; [exact Hq|]. intros e He.
  eapply Forall_impl; [exact He|]. simpl. intros i. lia.
Qed.

Lemma quadset_call_below n q a b c d :
  quads_below n q → a < n → b < n → c < n → d < n →
  quads_below n (quadset_call q (a, b, c, d)).
Proof.
  intros Hq Ha Hb Hc Hd. unfold quadset_call. case_decide.
  - apply Forall_forall. intros e [_ He]%list_elem_of_filter.
    by eapply Forall_forall in Hq.
  - apply Forall_app. split; [done|]. repeat constructor; done.
Qed.

Lemma triangles_below n q :
  quads_below n q → Forall (λ t, length t = 3 ∧ Forall (λ i, i < n) t) (triangles q).
Proof.
  unfold triangles, quads_below. induction 1 as [|[key [[[a b] c] d]] q Hh _ IH]; [constructor|].
  cbn [fmap list_fmap snd mbind list_bind app quad_verts] in *.
  apply Forall_cons in Hh as [? Hh]. apply Forall_cons in Hh as [? Hh].
  apply Forall_cons in Hh as [? Hh]. apply Forall_cons in Hh as [? _].
  repeat (constructor; [split; [done|repeat constructor; done]|]). exact IH.
Qed.

Section polyhedra_facts.
Context (self : Surface) (wm : list vec3).

Lemma polyhedron_face_inv p s q face s' q' :
  counted s → 2 ≤ length s → quads_below (length s) q →
  polyhedron_face self wm p (s, q) face = Ok (s', q') →
  counted s' ∧ s `prefix_of` s' ∧ quads_below (length s') q'.
Proof.
  intros Hs H2 Hq. unfold polyhedron_face.
  intros (row & _ & H)%bind_Ok. apply bind_Ok in H as ([[p0 p1] p2] & _ & H).
  apply bind_Ok in H as (ka & _ & H).
  destruct (ptset_getitem s ka) as [a s1] eqn:Ha.
  apply bind_Ok in H as (kb & _ & H).
  destruct (ptset_getitem s1 kb) as [b s2] eqn:Hb.
  apply bind_Ok in H as (kc & _ & H).
  destruct (ptset_getitem s2 kc) as [c s3] eqn:Hc.
  apply bind_Ok in H as (kd & _ & H).
  destruct (ptset_getitem s3 kd) as [d s4] eqn:Hd.
  apply bind_Ok in H as (ke & _ & H).
  destruct (ptset_getitem s4 ke) as [e s5] eqn:He.
  apply bind_Ok in H as (kf & _ & H).
  destruct (ptset_getitem s5 kf) as [f s6] eqn:Hf.
  injection H as <- <-.
  apply (ptset_getitem_counted _ _ _ _ Hs) in Ha as (Hs1 & Ha & Hp1).
  apply (ptset_getitem_counted _ _ _ _ Hs1) in Hb as (Hs2 & Hb & Hp2).
  apply (ptset_getitem_counted _ _ _ _ Hs2) in Hc as (Hs3 & Hc & Hp3).
  apply (ptset_getitem_counted _ _ _ _ Hs3) in Hd as (Hs4 & Hd & Hp4).
  apply (ptset_getitem_counted _ _ _ _ Hs4) in He as (Hs5 & He & Hp5).
  apply (ptset_getitem_counted _ _ _ _ Hs5) in Hf as (Hs6 & Hf & Hp6).
  pose proof (prefix_length _ _ Hp1). pose proof (prefix_length _ _ Hp2).
  pose proof (prefix_length _ _ Hp3). pose proof (prefix_length _ _ Hp4).
  pose proof (prefix_length _ _ Hp5). pose proof (prefix_length _ _ Hp6).
  split_and!; [done|by repeat (etrans; [eassumption|])|].
  repeat apply quadset_call_below; try lia.
  eapply quads_below_mono; [|exact Hq]. lia.
Qed.

Lemma polyhedron_faces_inv p faces : ∀ s q s' q',
  counted s → 2 ≤ length s → quads_below (length s) q →
  polyhedron_faces self wm p (s, q) faces = Ok (s', q') →
  counted s' ∧ s `prefix_of` s' ∧ quads_below (length s') q'.
Proof.
  induction faces as [|face faces IH]; intros s q s' q' Hs H2 Hq.
  - intros [= <- <-]. done.
  - cbn [polyhedron_faces]. intros ([s1 q1] & Hstep & Hrest)%bind_Ok.
    apply (polyhedron_face_inv _ _ _ _ _ _ Hs H2 Hq) in Hstep as (Hs1 & Hp1 & Hq1).
    pose proof (prefix_length _ _ Hp1).
    apply IH in Hrest as (Hs' & Hp' & Hq'); [|done|lia|done].
    split_and!; [done|by etrans|done].
Qed.

(** What [polyhedra] yields for a vertex is a mesh of its own: every
    triangle has three corners and each is the number of a yielded point;
    if the vertex has a face, the first two points are its point on [wm]
    and its point on the surface. *)
Lemma polyhedron_indices p faces points' tris :
  polyhedron self wm p faces = inr (points', tris) →
  Forall (λ t, length t = 3 ∧ Forall (λ i, i < length points') t) tris ∧
  (faces ≠ [] →
   wm !! p = points' !! 0 ∧ pts self !! p = points' !! 1 ∧ 2 ≤ length points').
Proof.
  unfold polyhedron. destruct faces as [|face0 faces].
  { intros [= <- <-]. split; [constructor|done]. }
  destruct (_ ← getitem (polys self) face0; _) as [[poly wp]|] eqn:Hhead; [|done].
  apply bind_Ok in Hhead as (row & _ & Hhead). apply bind_Ok in Hhead as (poly' & _ & Hhead).
  apply bind_Ok in Hhead as (wp' & Hwp%getitem_Ok & [= <- <-]).
  destruct (ptset_getitem [] wp') as [i0 s0] eqn:H0.
  case_decide as Hi0; [|done].
  destruct (getitem (pts self) p) as [pp|] eqn:Hpp; [|done]. apply getitem_Ok in Hpp.
  destruct (ptset_getitem s0 pp) as [i1 s1] eqn:H1.
  case_decide as Hi1; [|done].
  destruct (_ ← polyhedron_start self wm s1 poly'; _) as [[s q]|] eqn:Hrest; [|done].
  intros [= <- <-].
  unfold ptset_getitem in H0. cbn [ptset_find length app] in H0. injection H0 as <- <-.
  assert (s1 = [(wp', 0); (pp, 1)]) as ->.
  { unfold ptset_getitem in H1. destruct (ptset_find _ pp) as [v|] eqn:Hfind.
    - injection H1 as <- <-. cbn [ptset_find] in Hfind.
      destruct (vec_eqb wp' pp); simplify_eq.
    - by injection H1 as <- <-. }
  apply bind_Ok in Hrest as (s2 & Hstart & Hrest).
  assert (counted s2 ∧ [(wp', 0); (pp, 1)] `prefix_of` s2) as [Hs2 Hp2].
  { unfold polyhedron_start in Hstart. destruct poly' as [[p0 p1] p2].
    apply bind_Ok in Hstart as (k & _ & Hstart).
    apply bind_Ok in Hstart as (k' & _ & [= <-]).
    destruct (ptset_getitem [(wp', 0); (pp, 1)] k) as [i s'] eqn:Hk.
    apply ptset_getitem_counted in Hk as (Hs' & _ & Hp'); [|done].
    cbn [snd]. destruct (ptset_getitem s' k') as [i' s''] eqn:Hk'.
    apply ptset_getitem_counted in Hk' as (Hs'' & _ & Hp''); [|done].
    split; [done|by etrans]. }
  pose proof (prefix_length _ _ Hp2) as Hl2. simpl in Hl2.
  apply polyhedron_faces_inv in Hrest as (Hs & Hp & Hq); [|done|lia|constructor].
  pose proof (prefix_length _ _ Hp) as Hl.
  split.
  - unfold points. rewrite length_fmap. by apply triangles_below.
  - intros _. assert ([(wp', 0); (pp, 1)] `prefix_of` s) as [rest ->] by (by etrans).
    unfold points. rewrite Hwp, Hpp. split_and!; [done|done|].
    rewrite length_fmap. lia.
Qed.

(** X11.  When the point of [p] on [wm] and its point on the surface are one and
    the same, the first lookup has taken number 0 and the second finds it
    again: [assert pts[self.pts[p]] == 1] fails.  It holds when they
    differ. *)
Theorem polyhedron_coinciding_points p face0 faces row x y :
  polys self !! face0 = Some row → p ∈ face_verts row →
  wm !! p = Some x → pts self !! p = Some y →
  polyhedron self wm p (face0 :: faces) = inl AssertionError ↔ vec_eqb x y = true.
Proof.
  intros Hrow Hp Hx Hy. unfold polyhedron, getitem. rewrite Hrow, Hx, Hy.
  cbn [mbind res_bind].
  assert (∃ poly, roll_to p row = Ok poly) as [poly ->].
  { destruct row as [[a b] c]. unfold roll_to. cbn [face_verts] in Hp.
    repeat case_decide; eauto. set_solver. }
  cbn [mbind res_bind]. unfold ptset_getitem at 1. cbn [ptset_find length app].
  rewrite decide_True by done.
  unfold ptset_getitem. cbn [ptset_find length app].
  destruct (vec_eqb x y).
  - by rewrite decide_False by done.
  - rewrite decide_True by done. split; [|done].
    destruct (_ ← polyhedron_start _ _ _ _; _) as [[s q]|]; done.
Qed.

End polyhedra_facts.

Lemma polyhedron_coinciding_points_witness :
  polys unit_triangle !! 0 = Some (0, 1, 2) ∧ 0 ∈ face_verts (0, 1, 2) ∧
  pts unit_triangle !! 0 = Some (Fin 0, Fin 0, Fin 0) ∧
  (polyhedron unit_triangle (pts unit_triangle) 0 [0] = inl AssertionError ↔
   vec_eqb (Fin 0, Fin 0, Fin 0) (Fin 0, Fin 0, Fin 0) = true).
Proof.
  assert (0 ∈ face_verts (0, 1, 2)) as Hin by (simpl; set_solver).
  split_and!; [reflexivity|exact Hin|reflexivity|].
  exact (polyhedron_coinciding_points unit_triangle (pts unit_triangle) 0 0 []
           (0, 1, 2) _ _ eq_refl Hin eq_refl eq_refl).
Defined.

Lemma eqb_fin_eq r s : r = s → F.eqb (Fin r) (Fin s) = true.
Proof. intros ->. apply FFacts.eqb_refl_fin. Qed.

Lemma div_fin_pos a b : (0 < b)%R → F.div (Fin a) (Fin b) = Fin (a / b).
Proof. intros Hb. apply div_fin_eq; [lra|done]. Qed.

Lemma polyhedron_unit_triangle :
  polyhedron unit_triangle lifted_triangle 0 [0] =
    inr ([(Fin 0, Fin 0, Fin 1); (Fin 0, Fin 0, Fin 0);
          (Fin ((0 + 1) / 2), Fin ((0 + 0) / 2), Fin ((1 + 1) / 2));
          (Fin ((0 + 1) / 2), Fin ((0 + 0) / 2), Fin ((0 + 0) / 2));
          (Fin ((0 + 1 + 0) / 3), Fin ((0 + 0 + 1) / 3), Fin ((1 + 1 + 1) / 3));
          (Fin ((0 + 1 + 0) / 3), Fin ((0 + 0 + 1) / 3), Fin ((0 + 0 + 0) / 3));
          (Fin ((0 + 0) / 2), Fin ((0 + 1) / 2), Fin ((1 + 1) / 2));
          (Fin ((0 + 0) / 2), Fin ((0 + 1) / 2), Fin ((0 + 0) / 2))],
         [[0; 6; 4]; [0; 4; 2]; [1; 3; 5]; [1; 5; 7]; [1; 7; 6]; [1; 6; 0];
          [1; 0; 2]; [1; 2; 3]; [3; 2; 4]; [3; 4; 5]; [7; 5; 4]; [7; 4; 6]]).
Proof.
  unfold polyhedron, polyhedron_start, polyhedron_faces, polyhedron_face,
    mean_at2, mean_at3, mean2, mean3, vdiv, vadd, unit_triangle, lifted_triangle, roll_to,
    getitem, ptset_getitem.
  repeat first
    [ progress cbn [lookup list_lookup mbind res_bind pts polys F.add ptset_find
                    length app fst snd andb]
    | rewrite decide_True by done
    | rewrite div_fin_pos by lra
    | progress unfold vec_eqb
    | match goal with
      | |- context [F.eqb (Fin ?a) (Fin ?b)] =>
        first [rewrite (eqb_fin_ne a b) by lra | rewrite (eqb_fin_eq a b) by lra]
      end ].
  apply (f_equal inr). apply f_equal2; [reflexivity|]. vm_compute. reflexivity.
Qed.

(** X10.  Every item [polyhedra] yields is a mesh of its own: each triangle has
    three corners and each corner is the number of a point of the item.
    There is at most one item per vertex, and one per vertex exactly when the
    generator runs to its end. *)
Theorem polyhedra_items_indexed self wm :
  Forall (λ item : list vec3 * list (list nat),
            Forall (λ t, length t = 3 ∧ Forall (λ i, i < length item.1) t) item.2)
         (polyhedra self wm).1 ∧
  length (polyhedra self wm).1 ≤ length (pts self) ∧
  ((polyhedra self wm).2 = None → length (polyhedra self wm).1 = length (pts self)).
Proof.
  unfold polyhedra. destruct (connected self) as [conn|e] eqn:Hconn.
  2: { split_and!; [constructor|simpl; lia|done]. }
  assert (length (imap pair conn) = length (pts self)) as <-.
  { rewrite length_imap. unfold connected in Hconn. case_decide; [|done].
    injection Hconn as <-. by rewrite length_map, length_seq. }
  generalize (imap pair conn). intros rows.
  induction rows as [|[p row] rows IH]; [split_and!; [constructor|done|done]|].
  cbn [polyhedra_from]. destruct (polyhedron self wm p (indices row)) as [e|[points' tris]] eqn:Hp.
  { split_and!; [constructor|simpl; lia|done]. }
  destruct (polyhedra_from self wm rows) as [items e]. cbn [fst snd length] in *.
  destruct IH as (Hall & Hlen & Hend). split_and!.
  - constructor; [|done]. by apply polyhedron_indices in Hp as [? _].
  - lia.
  - intros He. by rewrite Hend.
Qed.

(** ** [face_volume]: volumes and progress *)

Lemma tetra_vol_nonneg a b c d :
  vec_finite a → vec_finite b → vec_finite c → vec_finite d →
  ∃ v, tetra_vol [a; b; c; d] = Ok v ∧ nonneg v.
Proof.
  destruct a as [[a1 a2] a3], b as [[b1 b2] b3], c as [[c1 c2] c3], d as [[d1 d2] d3].
  unfold vec_finite. cbn [fst snd].
  intros ([? ->] & [? ->] & [? ->]) ([? ->] & [? ->] & [? ->])
         ([? ->] & [? ->] & [? ->]) ([? ->] & [? ->] & [? ->]).
  eexists. split.
  - unfold tetra_vol, getitem.
    cbn [lookup list_lookup mbind res_bind drop map vsub cross dot F.sub F.add F.neg F.mul fabs].
    rewrite (div_fin_eq _ 6 _ ltac:(lra) eq_refl). reflexivity.
  - eexists. split; [reflexivity|].
    apply Rmult_le_pos; [apply Rabs_pos|lra].
Qed.

Lemma nonneg_add x y : nonneg x → nonneg y → nonneg (F.add x y).
Proof.
  intros (a & -> & Ha) (b & -> & Hb). exists (a + b)%R. split; [done|lra].
Qed.

Lemma brick_vol_nonneg l :
  length l = 6 → Forall vec_finite l → ∃ v, brick_vol l = Ok v ∧ nonneg v.
Proof.
  intros Hlen Hfin.
  destruct l as [|p0 [|p1 [|p2 [|p3 [|p4 [|p5 [|]]]]]]]; try done.
  apply Forall_cons in Hfin as [H0 Hfin]. apply Forall_cons in Hfin as [H1 Hfin].
  apply Forall_cons in Hfin as [H2 Hfin]. apply Forall_cons in Hfin as [H3 Hfin].
  apply Forall_cons in Hfin as [H4 Hfin]. apply Forall_cons in Hfin as [H5 _].
  destruct (tetra_vol_nonneg p0 p1 p2 p4) as (va & Hva & Ha); try done.
  destruct (tetra_vol_nonneg p0 p2 p3 p4) as (vb & Hvb & Hb); try done.
  destruct (tetra_vol_nonneg p2 p3 p4 p5) as (vc & Hvc & Hc); try done.
  exists (F.add (F.add va vb) vc). split.
  - unfold brick_vol. cbn [traverse getitem lookup list_lookup mbind res_bind].
    rewrite Hva. cbn [mbind res_bind]. rewrite Hvb. cbn [mbind res_bind].
    by rewrite Hvc.
  - by repeat apply nonneg_add.
Qed.

Lemma traverse_getitem_face (pts : list vec3) p :
  face_in_range (length pts) p → Forall vec_finite pts →
  ∃ a, traverse (getitem pts) (face_verts p) = Ok a ∧ length a = 3 ∧ Forall vec_finite a.
Proof.
  destruct p as [[i j] k]. unfold face_in_range. cbn [face_verts].
  intros Hr Hfin.
  apply Forall_cons in Hr as [Hi Hr]. apply Forall_cons in Hr as [Hj Hr].
  apply Forall_cons in Hr as [Hk _].
  destruct (lookup_lt_is_Some_2 pts i Hi) as [a Ha].
  destruct (lookup_lt_is_Some_2 pts j Hj) as [b Hb].
  destruct (lookup_lt_is_Some_2 pts k Hk) as [c Hc].
  exists [a; b; c]. unfold traverse, getitem. rewrite Ha, Hb, Hc. split_and!; [done..|].
  repeat (apply Forall_cons; split; [by eapply Forall_lookup_1|]). constructor.
Qed.

Lemma face_volume_from_in_range pts1 pts2 polys : ∀ i,
  Forall (face_in_range (length pts1)) polys →
  Forall (face_in_range (length pts2)) polys →
  Forall vec_finite pts1 → Forall vec_finite pts2 →
  ∃ vols, face_volume_from pts1 pts2 i polys = (progress i (length polys), Ok vols) ∧
          length vols = length polys ∧ Forall nonneg vols.
Proof.
  induction polys as [|p polys IH]; intros i Hr1 Hr2 Hf1 Hf2.
  - exists []. split_and!; [done|done|constructor].
  - apply Forall_cons in Hr1 as [Hp1 Hr1]. apply Forall_cons in Hr2 as [Hp2 Hr2].
    destruct (traverse_getitem_face pts1 p Hp1 Hf1) as (a & Ha & Hla & Hfa).
    destruct (traverse_getitem_face pts2 p Hp2 Hf2) as (b & Hb & Hlb & Hfb).
    destruct (brick_vol_nonneg (a ++ b)) as (v & Hv & Hnn).
    { rewrite length_app. lia. }
    { by apply Forall_app. }
    destruct (IH (S i) Hr1 Hr2 Hf1 Hf2) as (vols & Hrest & Hlen & Hall).
    exists (v :: vols). cbn [face_volume_from]. rewrite Ha. cbn [mbind res_bind].
    rewrite Hb. cbn [mbind res_bind]. rewrite Hv, Hrest. cbn [mbind res_bind].
    split_and!; [|simpl; lia|by constructor].
    f_equal. unfold progress. cbn [length seq]. rewrite filter_cons. by case_decide.
Qed.

(** X20.  With every face in range of both sheets and all coordinates finite,
    [face_volume] returns one volume for each face, none of them negative,
    and prints the number of every thousandth face. *)
Theorem face_volume_in_range pts1 pts2 polys :
  Forall (face_in_range (length pts1)) polys →
  Forall (face_in_range (length pts2)) polys →
  Forall vec_finite pts1 → Forall vec_finite pts2 →
  ∃ vols, face_volume pts1 pts2 polys = (progress 0 (length polys), Ok vols) ∧
          length vols = length polys ∧ Forall nonneg vols.
Proof. apply face_volume_from_in_range. Qed.

Lemma face_volume_in_range_witness :
  Forall (face_in_range (length (pts unit_triangle))) [(0, 1, 2)] ∧
  Forall vec_finite (pts unit_triangle) ∧
  ∃ vols, face_volume (pts unit_triangle)
            [(Fin 0, Fin 0, Fin 1); (Fin 1, Fin 0, Fin 1); (Fin 0, Fin 1, Fin 1)]
            [(0, 1, 2)] = ([0], Ok vols) ∧
          length vols = 1 ∧ Forall nonneg vols.
Proof.
  assert (Forall (face_in_range 3) [(0, 1, 2)]) as Hr.
  { repeat constructor; simpl; lia. }
  assert (∀ z, Forall vec_finite
               [(Fin 0, Fin 0, Fin z); (Fin 1, Fin 0, Fin z); (Fin 0, Fin 1, Fin z)]) as Hf.
  { intros z. repeat constructor; eexists; reflexivity. }
  split; [exact Hr|]. split; [exact (Hf 0%R)|].
  exact (face_volume_in_range (pts unit_triangle)
           [(Fin 0, Fin 0, Fin 1); (Fin 1, Fin 0, Fin 1); (Fin 0, Fin 1, Fin 1)]
           [(0, 1, 2)] Hr Hr (Hf 0%R) (Hf 1%R)).
Defined.

Lemma tetra_vol_Ok a b c d : ∃ v, tetra_vol [a; b; c; d] = Ok v.
Proof. by eexists. Qed.

Lemma brick_vol_Ok l : length l = 6 → ∃ v, brick_vol l = Ok v.
Proof.
  intros Hlen. destruct l as [|p0 [|p1 [|p2 [|p3 [|p4 [|p5 [|]]]]]]]; try done.
  by eexists.
Qed.

Lemma traverse_getitem_face_Ok (pts : list vec3) p :
  face_in_range (length pts) p →
  ∃ a, traverse (getitem pts) (face_verts p) = Ok a ∧ length a = 3.
Proof.
  destruct p as [[i j] k]. unfold face_in_range. cbn [face_verts]. intros Hr.
  apply Forall_cons in Hr as [Hi Hr]. apply Forall_cons in Hr as [Hj Hr].
  apply Forall_cons in Hr as [Hk _].
  destruct (lookup_lt_is_Some_2 pts i Hi) as [a Ha].
  destruct (lookup_lt_is_Some_2 pts j Hj) as [b Hb].
  destruct (lookup_lt_is_Some_2 pts k Hk) as [c Hc].
  exists [a; b; c]. unfold traverse, getitem. by rewrite Ha, Hb, Hc.
Qed.

Lemma traverse_getitem_face_fail (pts : list vec3) p :
  ¬ face_in_range (length pts) p →
  traverse (getitem pts) (face_verts p) = Raise IndexError.
Proof.
  destruct p as [[i j] k]. unfold face_in_range. cbn [face_verts]. intros Hr.
  unfold traverse, getitem.
  destruct (pts !! i) as [a|] eqn:Ha; [|done].
  destruct (pts !! j) as [b|] eqn:Hb; [|done].
  destruct (pts !! k) as [c|] eqn:Hc; [|done].
  exfalso. apply Hr. repeat (apply Forall_cons; split; [by eapply lookup_lt_Some|]).
  constructor.
Qed.

Lemma face_volume_from_bad_face pts1 pts2 polys : ∀ i n p,
  polys !! i = Some p →
  (∀ j q, j < i → polys !! j = Some q →
          face_in_range (length pts1) q ∧ face_in_range (length pts2) q) →
  ¬ (face_in_range (length pts1) p ∧ face_in_range (length pts2) p) →
  face_volume_from pts1 pts2 n polys = (progress n i, Raise IndexError).
Proof.
  induction polys as [|q polys IH]; intros i n p Hp Hbefore Hbad; [done|].
  cbn [face_volume_from]. destruct i as [|i].
  - injection Hp as ->. clear Hbefore.
    destruct (decide (face_in_range (length pts1) p)) as [H1|H1].
    + destruct (traverse_getitem_face_Ok pts1 p H1) as (a & -> & _).
      cbn [mbind res_bind]. rewrite (traverse_getitem_face_fail pts2) by tauto. done.
    + by rewrite (traverse_getitem_face_fail pts1) by done.
  - destruct (Hbefore 0 q ltac:(lia) eq_refl) as [H1 H2].
    destruct (traverse_getitem_face_Ok pts1 q H1) as (a & -> & Hla).
    destruct (traverse_getitem_face_Ok pts2 q H2) as (b & -> & Hlb).
    cbn [mbind res_bind].
    destruct (brick_vol_Ok (a ++ b)) as [v ->]; [rewrite length_app; lia|].
    rewrite (IH i (S n) p Hp); [|intros j q' Hj Hq'; apply (Hbefore (S j)); [lia|done]|done].
    cbn [mbind res_bind]. f_equal.
    unfold progress. cbn [seq]. rewrite filter_cons. by case_decide.
Qed.

(** X21.  When face [i] is the first with a corner out of range of one of the
    sheets, [face_volume] raises [IndexError] there, after printing the
    number of every thousandth face before it. *)
Theorem face_volume_bad_face pts1 pts2 polys i p :
  polys !! i = Some p →
  (∀ j q, j < i → polys !! j = Some q →
          face_in_range (length pts1) q ∧ face_in_range (length pts2) q) →
  ¬ (face_in_range (length pts1) p ∧ face_in_range (length pts2) p) →
  face_volume pts1 pts2 polys = (progress 0 i, Raise IndexError).
Proof. apply face_volume_from_bad_face. Qed.

Lemma face_volume_bad_face_witness :
  face_volume (pts unit_triangle) (pts unit_triangle) [(0, 1, 2); (0, 1, 3)]
    = ([0], Raise IndexError).
Proof.
  apply (face_volume_bad_face (pts unit_triangle) (pts unit_triangle)
           [(0, 1, 2); (0, 1, 3)] 1 (0, 1, 3) eq_refl).
  - intros j q Hj Hq. replace j with 0 in Hq by lia. injection Hq as <-.
    split; repeat constructor; simpl; lia.
  - intros [H _]. unfold face_in_range in H. cbn [face_verts] in H.
    apply Forall_cons in H as [_ H]. apply Forall_cons in H as [_ H].
    apply Forall_cons in H as [H _]. simpl in H. lia.
Defined.

(** ** [Surface.vertex_normals]: finite normals *)

Lemma nan_to_num_finite x : finite (F.nan_to_num x).
Proof. destruct x; by eexists. Qed.

Lemma div_zero_zero : F.div F.zero F.zero = NaN.
Proof.
  unfold F.div, F.zero, F.inf_times. destruct (Req_dec_T 0 0) as [_|?]; [|done].
  destruct (Rlt_dec 0 0) as [?|_]; [lra|done].
Qed.

Lemma connected_row_nil self v :
  (∀ f p, polys self !! f = Some p → v ∉ face_verts p) → connected_row self v = [].
Proof.
  intros Hnone. destruct (connected_row self v) as [|[f m] row] eqn:Hrow; [done|].
  exfalso. assert (f ∈ indices (connected_row self v)) as Hf.
  { rewrite Hrow. unfold indices. simpl. left. }
  apply elem_of_indices_row in Hf as (p & Hp & Hv). by eapply Hnone.
Qed.

(** X2.  On a well-formed mesh [vertex_normals] returns one vector for each
    vertex, with finite coordinates whatever the faces are, and the zero
    vector at a vertex that no face holds. *)
Theorem vertex_normals_finite self :
  well_formed self →
  ∃ vn, vertex_normals self = Ok vn ∧ length vn = length (pts self) ∧
        Forall vec_finite vn ∧
        ∀ v, v < length (pts self) →
             (∀ f p, polys self !! f = Some p → v ∉ face_verts p) →
             vn !! v = Some (F.zero, F.zero, F.zero).
Proof.
  intros Hwf. destruct (ppts_Ok self Hwf) as [pp Hpp].
  unfold vertex_normals, face_normals. rewrite (connected_Ok self Hwf), Hpp.
  cbn [mbind res_bind]. eexists. split; [reflexivity|]. split_and!.
  - by rewrite !length_map, length_seq.
  - apply Forall_forall. intros n (row & -> & _)%list_elem_of_fmap.
    destruct (vdiv _ _) as [[x y] z]. split_and!; apply nan_to_num_finite.
  - intros v Hv Hnone. rewrite list_lookup_fmap, list_lookup_fmap, lookup_seq_lt by done.
    cbn [fmap option_fmap option_map Nat.add]. rewrite (connected_row_nil self v Hnone).
    unfold row_dot, vdiv. cbn [map F.sum foldr]. by rewrite div_zero_zero.
Qed.

Lemma vertex_normals_finite_witness :
  well_formed unit_triangle ∧
  ∃ vn, vertex_normals unit_triangle = Ok vn ∧ length vn = 3 ∧ Forall vec_finite vn.
Proof.
  split; [exact unit_triangle_well_formed|].
  destruct (vertex_normals_finite unit_triangle unit_triangle_well_formed)
    as (vn & Hvn & Hlen & Hfin & _).
  exists vn. split; [exact Hvn|]. split; [exact Hlen|exact Hfin].
Defined.

Lemma default_lookup_map {A} (g : A → fl) (l : list A) i a :
  l !! i = Some a → default F.zero (map g l !! i) = g a.
Proof.
  intros Ha. change (map g l) with (g <$> l). by rewrite list_lookup_fmap, Ha.
Qed.

(** X3.  At a vertex that lies on one face only, as one corner of it, the vertex
    normal is the normal of that face. *)
Theorem vertex_normals_single_face self v f ns x y z :
  well_formed self → v < length (pts self) →
  connected_row self v = [(f, 1)] →
  face_normals self = Ok ns → ns !! f = Some (Fin x, Fin y, Fin z) →
  ∃ vn, vertex_normals self = Ok vn ∧ vn !! v = Some (Fin x, Fin y, Fin z).
Proof.
  intros Hwf Hv Hrow Hns Hf. unfold vertex_normals.
  rewrite (connected_Ok self Hwf), Hns. cbn [mbind res_bind].
  eexists. split; [reflexivity|].
  rewrite list_lookup_fmap, list_lookup_fmap, lookup_seq_lt by done.
  cbn [fmap option_fmap option_map Nat.add]. rewrite Hrow.
  unfold row_dot. cbn [map F.sum foldr fst snd].
  rewrite !(default_lookup_map _ _ _ _ Hf). cbn [fst snd].
  unfold F.of_nat, F.zero, vdiv. cbn [F.mul F.add INR].
  rewrite !(div_fin_eq _ (1 + 0) _ ltac:(lra) eq_refl).
  cbn [F.nan_to_num]. do 2 f_equal; [f_equal|]; f_equal; field.
Qed.

Lemma vertex_normals_single_face_witness :
  well_formed unit_triangle ∧
  connected_row unit_triangle 0 = [(0, 1)] ∧
  face_normals unit_triangle
    = Ok [(Fin (0 * 0 + - (0 * 1)), Fin (0 * 0 + - (1 * 0)), Fin (1 * 1 + - (0 * 0)))] ∧
  ∃ vn, vertex_normals unit_triangle = Ok vn ∧
        vn !! 0 = Some (Fin (0 * 0 + - (0 * 1)), Fin (0 * 0 + - (1 * 0)),
                        Fin (1 * 1 + - (0 * 0))).
Proof.
  assert (face_normals unit_triangle
    = Ok [(Fin (0 * 0 + - (0 * 1)), Fin (0 * 0 + - (1 * 0)), Fin (1 * 1 + - (0 * 0)))]) as Hns.
  { unfold face_normals, ppts, take_faces, unit_triangle.
    cbn [traverse getitem lookup list_lookup mbind res_bind map pts polys
         cross vsub F.sub F.add F.neg F.mul].
    repeat f_equal; lra. }
  split; [exact unit_triangle_well_formed|]. split; [reflexivity|]. split; [exact Hns|].
  exact (vertex_normals_single_face unit_triangle 0 0 _ _ _ _
           unit_triangle_well_formed ltac:(simpl; lia) eq_refl Hns eq_refl).
Defined.

(** ** [Distortion.metric]: the graph and the distances *)

Lemma add_neighbor_lookup G u v x :
  add_neighbor G u v !! x =
    if decide (x = u) then
      Some (let l := default [] (G !! u) in if decide (v ∈ l) then l else l ++ [v])
    else G !! x.
Proof.
  unfold add_neighbor. destruct (decide (x = u)) as [->|Hx].
  - by rewrite lookup_insert_eq.
  - by rewrite lookup_insert_ne.
Qed.

Lemma graph_of_snoc edges G e :
  graph_of edges G → graph_of (edges ++ [e]) (add_edge G e).
Proof.
  destruct e as [a b]. intros [Hnodes Hadj]. unfold add_edge. cbn [fst snd]. split.
  - intros u w [Hin|[= -> ->]%list_elem_of_singleton]%elem_of_app.
    + destruct (Hnodes u w Hin) as [Hu Hw].
      rewrite !add_neighbor_lookup. repeat case_decide; eauto.
    + rewrite !add_neighbor_lookup. repeat case_decide; eauto; done.
  - intros u l.
    assert (∀ n o (l0 : list nat),
      (l0 = [] ∨ (l0 ≠ [] ∧ ∀ w, w ∈ l0 → (n, w) ∈ edges ++ [(a, b)] ∨ (w, n) ∈ edges ++ [(a, b)])) →
      ((n, o) ∈ edges ++ [(a, b)] ∨ (o, n) ∈ edges ++ [(a, b)]) →
      let l' := if decide (o ∈ l0) then l0 else l0 ++ [o] in
      l' ≠ [] ∧ ∀ w, w ∈ l' → (n, w) ∈ edges ++ [(a, b)] ∨ (w, n) ∈ edges ++ [(a, b)]) as Hstep.
    { intros n o l0 Hl0 Hno. cbv zeta. case_decide as Ho.
      - destruct Hl0 as [->|Hl0]; [by apply elem_of_nil in Ho|done].
      - split; [by destruct l0|]. intros w [Hw| ->%list_elem_of_singleton]%elem_of_app; [|done].
        destruct Hl0 as [->|[_ Hl0]]; [by apply elem_of_nil in Hw|by apply Hl0]. }
    assert (∀ n l0, G !! n = Some l0 →
      l0 ≠ [] ∧ ∀ w, w ∈ l0 → (n, w) ∈ edges ++ [(a, b)] ∨ (w, n) ∈ edges ++ [(a, b)]) as Hold.
    { intros n l0 [Hne Hl0]%Hadj. split; [done|]. intros w Hw.
      rewrite !elem_of_app. destruct (Hl0 w Hw); auto. }
    assert (∀ n, default [] (G !! n) = [] ∨
      (default [] (G !! n) ≠ [] ∧ ∀ w, w ∈ default [] (G !! n) →
         (n, w) ∈ edges ++ [(a, b)] ∨ (w, n) ∈ edges ++ [(a, b)])) as Hdef.
    { intros n. destruct (G !! n) as [l0|] eqn:Hn; [|by left]. right. by apply Hold. }
    assert ((a, b) ∈ edges ++ [(a, b)]) as Hab by (apply elem_of_app; right; left).
    rewrite add_neighbor_lookup. destruct (decide (u = b)) as [->|Hub].
    + intros [= <-]. rewrite add_neighbor_lookup.
      destruct (decide (b = a)) as [->|Hba]; cbn [default].
      * apply Hstep; [|by left]. right. apply Hstep; [apply Hdef|by left].
      * apply Hstep; [apply Hdef|by right].
    + rewrite add_neighbor_lookup. destruct (decide (u = a)) as [->|Hua].
      * intros [= <-]. apply Hstep; [apply Hdef|by left].
      * apply Hold.
Qed.

Lemma graph_of_make tris : graph_of (iter_surfedges tris) (make_surface_graph tris).
Proof.
  unfold make_surface_graph. generalize (iter_surfedges tris). intros edges.
  induction edges as [|e edges IH] using rev_ind.
  - split; [by intros u w ?%elem_of_nil|]. intros u l. cbn [foldl]. by rewrite lookup_empty.
  - rewrite foldl_app. by apply graph_of_snoc.
Qed.

Lemma elem_of_unique ids v : v ∈ unique ids ↔ v ∈ ids.
Proof.
  unfold unique. rewrite list_elem_of_filter, elem_of_seq. split; [by intros [? _]|].
  intros Hv. split; [done|]. split; [lia|]. simpl.
  induction ids as [|w ids IH]; [by apply elem_of_nil in Hv|].
  cbn [foldr]. apply elem_of_cons in Hv as [->|Hv]; [lia|]. specialize (IH Hv). lia.
Qed.

Lemma elem_of_surfedges tris u w :
  (u, w) ∈ iter_surfedges tris →
  ∃ p, p ∈ tris ∧ u ∈ face_verts p ∧ w ∈ face_verts p.
Proof.
  unfold iter_surfedges. intros ([[a b] c] & Hin & Hp)%list_elem_of_bind.
  exists (a, b, c). split; [done|]. cbn [face_verts]. set_solver.
Qed.

Lemma surfedges_node tris p v :
  p ∈ tris → v ∈ face_verts p → ∃ w, (v, w) ∈ iter_surfedges tris ∨ (w, v) ∈ iter_surfedges tris.
Proof.
  intros Hp Hv. destruct p as [[a b] c]. cbn [face_verts] in Hv.
  assert (∀ e, e ∈ [(a, b); (b, c); (a, c)] → e ∈ iter_surfedges tris) as Hin.
  { intros e He. unfold iter_surfedges. apply list_elem_of_bind. by exists (a, b, c). }
  assert (v = a ∨ v = b ∨ v = c) as [->|[->| ->]] by set_solver.
  - exists b. left. apply Hin. set_solver.
  - exists c. left. apply Hin. set_solver.
  - exists a. right. apply Hin. set_solver.
Qed.


Lemma vsub_finite a b : vec_finite a → vec_finite b → vec_finite (vsub a b).
Proof.
  destruct a as [[a1 a2] a3], b as [[b1 b2] b3]. unfold vec_finite. cbn [fst snd].
  intros ([? ->] & [? ->] & [? ->]) ([? ->] & [? ->] & [? ->]).
  cbn [vsub fst snd]. split_and!; by eexists.
Qed.

(** The distances from a vertex of a face to its neighbours: there is at
    least one neighbour, and the neighbours and the vertex are points of
    [pts]. *)
Lemma neighbor_dists_Ok (Q : vec3 → Prop) tris (pts : list vec3) ii :
  Forall (face_in_range (length pts)) tris → Forall Q pts →
  ii ∈ tris ≫= face_verts →
  ∃ qs c, neighbor_dists (make_surface_graph tris) pts ii
            = Ok (map (λ q, magnitude (vsub q c)) qs) ∧
          qs ≠ [] ∧ Forall Q qs ∧ Q c.
Proof.
  intros Hr Hfin (p & Hii & Hp)%list_elem_of_bind.
  destruct (graph_of_make tris) as [Hnodes Hadj].
  assert (∀ v q, q ∈ tris → v ∈ face_verts q → v < length pts) as Hrange.
  { intros v q Hq Hv. eapply Forall_forall in Hr; [|done].
    by eapply Forall_forall in Hr. }
  assert (is_Some (make_surface_graph tris !! ii)) as [l Hl].
  { destruct (surfedges_node tris p ii Hp Hii) as [w [Hw|Hw]]; by apply Hnodes in Hw as [? ?]. }
  destruct (Hadj ii l Hl) as [Hne Hnb].
  assert (Forall (λ w, w < length pts) l) as Hl_range.
  { apply Forall_forall. intros w [Hw|Hw]%Hnb;
      apply elem_of_surfedges in Hw as (q & Hq & ? & ?); by eapply Hrange. }
  assert (∃ qs, traverse (getitem pts) l = Ok qs ∧ length qs = length l ∧ Forall Q qs)
    as (qs & Hqs & Hlen & Hqfin).
  { clear -Hl_range Hfin. induction Hl_range as [|w l Hw _ (qs & IH & Hlen & Hqfin)].
    - by exists [].
    - destruct (getitem_lt pts w Hw) as [q Hq]. exists (q :: qs).
      cbn [traverse]. rewrite Hq. cbn [mbind res_bind]. rewrite IH.
      split_and!; [done|simpl; lia|]. apply getitem_Ok in Hq.
      constructor; [exact (Forall_lookup_1 _ _ _ _ Hfin Hq)|done]. }
  destruct (lookup_lt_is_Some_2 pts ii (Hrange ii p Hp Hii)) as [c Hc].
  exists qs, c.
  unfold neighbor_dists, neighbors. rewrite Hl. cbn [mbind res_bind]. rewrite Hqs.
  cbn [mbind res_bind]. unfold getitem. rewrite Hc. split_and!; [done| |done|].
  - destruct l; [done|]. by destruct qs.
  - exact (Forall_lookup_1 _ _ _ _ Hfin Hc).
Qed.

Lemma traverse_neighbor_dists (Q : vec3 → Prop) tris (pts : list vec3) selverts :
  Forall (face_in_range (length pts)) tris → Forall Q pts →
  Forall (λ v, v ∈ tris ≫= face_verts) selverts →
  ∃ dss, traverse (neighbor_dists (make_surface_graph tris) pts) selverts = Ok dss ∧
         length dss = length selverts ∧
         Forall (λ ds, ∃ qs c, ds = map (λ q, magnitude (vsub q c)) qs ∧
                               qs ≠ [] ∧ Forall Q qs ∧ Q c) dss.
Proof.
  intros Hr Hfin. induction 1 as [|v l Hv _ (dss & IH & Hlen & Hall)].
  - exists []. split_and!; [done..|constructor].
  - destruct (neighbor_dists_Ok Q tris pts v Hr Hfin Hv) as (qs & c & Hds & Hrest).
    eexists (_ :: dss). cbn [traverse]. rewrite Hds. cbn [mbind res_bind].
    rewrite IH. split_and!; [done|simpl; lia|]. constructor; [|done]. by exists qs, c.
Qed.






(** X19.  Whatever the two embeddings, with every face in range of both [metric]
    returns one value for each point of the reference embedding, and 0 for
    every vertex that no face uses. *)
Theorem metric_unused_vertices (flat ref : list vec3) polys :
  Forall (face_in_range (length ref)) polys →
  Forall (face_in_range (length flat)) polys →
  ∃ d, metric (Distortion.mk flat ref polys) = Ok d ∧ length d = length ref ∧
       ∀ v, v < length ref → v ∉ polys ≫= face_verts → d !! v = Some F.zero.
Proof.
  intros Hr Hf. unfold metric. cbn [Distortion.polys Distortion.ref Distortion.flat].
  assert (Forall (λ v, v ∈ polys ≫= face_verts) (unique (polys ≫= face_verts))) as Hsel.
  { apply Forall_forall. intros v. apply elem_of_unique. }
  destruct (traverse_neighbor_dists (λ _, True) polys ref _ Hr (Forall_true _ _ (λ _, I)) Hsel)
    as (rd & -> & Hlr & _).
  destruct (traverse_neighbor_dists (λ _, True) polys flat _ Hf (Forall_true _ _ (λ _, I)) Hsel)
    as (fd & -> & Hlf & _).
  cbn [mbind res_bind].
  destruct (put_rows_Ok (length ref) (unique (polys ≫= face_verts))
              (zip_with (λ fi fl : list fl, F.mean (zip_with F.sub fl fi)) rd fd)) as [d Hd].
  { rewrite length_zip_with. lia. }
  exists d. split_and!; [done|by eapply put_rows_length|].
  intros v Hv Hunused. eapply put_rows_outside; [done| |done].
  by rewrite elem_of_unique.
Qed.

Lemma metric_unused_vertices_witness :
  Forall (face_in_range 4) [(0, 1, 2)] ∧
  ∃ d, metric (Distortion.mk (pts unit_triangle ++ [(Fin 1, Fin 1, Fin 0)])
                             (pts unit_triangle ++ [(Fin 2, Fin 2, Fin 0)]) [(0, 1, 2)])
         = Ok d ∧ length d = 4 ∧ d !! 3 = Some F.zero.
Proof.
  assert (Forall (face_in_range 4) [(0, 1, 2)]) as Hr by (repeat constructor; simpl; lia).
  split; [exact Hr|].
  destruct (metric_unused_vertices (pts unit_triangle ++ [(Fin 1, Fin 1, Fin 0)])
              (pts unit_triangle ++ [(Fin 2, Fin 2, Fin 0)]) [(0, 1, 2)] Hr Hr)
    as (d & Hd & Hlen & Hz).
  exists d. split; [exact Hd|]. split; [exact Hlen|].
  apply Hz; [simpl; lia|]. cbn [mbind list_bind face_verts app]. set_solver.
Defined.

(** ** [Surface.connected]: rows *)

Lemma StronglySorted_sublist {A} (R : relation A) (l1 l2 : list A) :
  sublist l1 l2 → StronglySorted R l2 → StronglySorted R l1.
Proof.
  induction 1 as [|x l1 l2 Hsub IH|x l1 l2 Hsub IH]; intros Hs; [done| |].
  - apply StronglySorted_inv in Hs as [Hs Hall]. constructor; [by apply IH|].
    apply Forall_forall. intros y Hy. eapply Forall_forall in Hall; [done|].
    by eapply elem_of_sublist.
  - apply StronglySorted_inv in Hs as [Hs _]. by apply IH.
Qed.

Lemma imap_pair_keys {A B} (g : nat → A → B) (l : list A) : ∀ n,
  (imap (λ i x, (n + i, g (n + i) x)) l).*1 = seq n (length l).
Proof.
  induction l as [|x l IH]; intros n; [done|].
  cbn [imap fmap list_fmap length seq fst]. rewrite Nat.add_0_r. f_equal.
  rewrite <- (IH (S n)). f_equal. apply imap_ext. intros i y _. simpl.
  by replace (n + S i) with (S (n + i)) by lia.
Qed.

Lemma StronglySorted_seq n k : StronglySorted lt (seq n k).
Proof.
  revert n. induction k as [|k IH]; intros n; [constructor|].
  cbn [seq]. constructor; [apply IH|]. apply Forall_forall. intros i Hi%elem_of_seq. lia.
Qed.

(** X1.  On a well-formed mesh [connected] has one row for each vertex, and the
    stored column indices of row [v] are the faces that hold [v], each once,
    in ascending order.  On any other mesh building the matrix fails. *)
Theorem connected_incidence self :
  (well_formed self →
   ∃ conn, connected self = Ok conn ∧ length conn = length (pts self) ∧
     ∀ v row, conn !! v = Some row →
       StronglySorted lt (indices row) ∧
       ∀ f, f ∈ indices row ↔ ∃ p, polys self !! f = Some p ∧ v ∈ face_verts p) ∧
  (¬ well_formed self → connected self = Raise ValueError).
Proof.
  split.
  - intros Hwf. rewrite (connected_Ok self Hwf). eexists. split; [done|].
    split; [by rewrite length_map, length_seq|].
    intros v row Hrow. rewrite list_lookup_fmap in Hrow.
    destruct (seq 0 (length (pts self)) !! v) as [v'|] eqn:Hv; [|done].
    apply lookup_seq in Hv as [-> _]. injection Hrow as <-. simpl. split.
    + unfold indices, connected_row.
      apply (StronglySorted_sublist _ _ (seq 0 (length (polys self)))); [|apply StronglySorted_seq].
      rewrite <- (imap_pair_keys (λ f p, incidence v p) (polys self) 0).
      apply fmap_sublist, sublist_filter.
    + intros f. apply elem_of_indices_row.
  - intros Hwf. unfold connected. by rewrite decide_False.
Qed.

(** ** [Surface.geodesic_distance]: the caches *)

Section geodesic_cache_facts.
Context (self : Surface).

(** After a call that returned, both caches know [m]. *)
Lemma geodesic_distance_cached factorized c verts m phi c' :
  geodesic_distance self factorized c verts m = (Ok phi, c') →
  ∃ lfac nLC goodrows h1 h2,
    heat_system self m = Ok (lfac, nLC, goodrows) ∧
    cache_get (rlfac_solvers c') m = Some h1 ∧
    cache_get (nLC_solvers c') m = Some h2 ∧
    heat_solve self goodrows h1 h2 verts = Ok phi.
Proof.
  unfold geodesic_distance.
  destruct (heat_system self m) as [[[lfac nLC] goodrows]|e] eqn:Hsys; [|done].
  set (r1 := match cache_get (rlfac_solvers c) m with Some _ => _ | None => _ end).
  destruct r1 as [d1|e] eqn:Hr1; [|done].
  set (r2 := match cache_get (nLC_solvers c) m with Some _ => _ | None => _ end).
  destruct r2 as [d2|e] eqn:Hr2; [|done].
  destruct (cache_get d1 m) as [h1|] eqn:Hh1; [|by destruct (cache_get d2 m)].
  destruct (cache_get d2 m) as [h2|] eqn:Hh2; [|done].
  intros [= Hphi <-]. exists lfac, nLC, goodrows, h1, h2. done.
Qed.

(** X6.  Once a call for [m] has returned, a later call for the same [m] does
    not factorise anything: whatever [factorized] would do, it leaves the
    caches as they are, and for the same sources it returns the same
    distances. *)
Theorem geodesic_distance_reuses_factorization factorized c verts m phi c' :
  geodesic_distance self factorized c verts m = (Ok phi, c') →
  ∀ factorized' verts',
    ∃ r, geodesic_distance self factorized' c' verts' m = (r, c') ∧
         (verts' = verts → r = Ok phi).
Proof.
  intros (lfac & nLC & goodrows & h1 & h2 & Hsys & Hh1 & Hh2 & Hphi)%geodesic_distance_cached.
  intros factorized' verts'. unfold geodesic_distance. rewrite Hsys, Hh1, Hh2.
  cbn [mbind res_bind]. rewrite Hh1, Hh2. destruct c' as [d1 d2]. cbn [rlfac_solvers nLC_solvers].
  eexists. split; [reflexivity|]. by intros ->.
Qed.

(** X7.  A source vertex out of range is noticed only after both matrices have
    been factorised: the call raises [IndexError], and the caches keep the
    two new factorisations. *)
Theorem geodesic_distance_bad_source factorized c verts m lfac nLC goodrows h1 h2 :
  heat_system self m = Ok (lfac, nLC, goodrows) →
  cache_get (rlfac_solvers c) m = None → cache_get (nLC_solvers c) m = None →
  factorized (submatrix lfac goodrows) = Ok h1 →
  factorized (submatrix nLC goodrows) = Ok h2 →
  ¬ Forall (λ v, v < length (pts self)) verts →
  geodesic_distance self factorized c verts m
    = (Raise IndexError, mkCache ((m, h1) :: rlfac_solvers c) ((m, h2) :: nLC_solvers c)).
Proof.
  intros Hsys Hc1 Hc2 Hf1 Hf2 Hbad. unfold geodesic_distance.
  rewrite Hsys, Hc1, Hc2, Hf1, Hf2. cbn [mbind res_bind]. rewrite !cache_get_hit.
  f_equal. unfold heat_solve, indicator. by rewrite decide_False.
Qed.

End geodesic_cache_facts.

Lemma geodesic_distance_reuses_factorization_witness :
  ∃ phi c',
    geodesic_distance offset_triangle stub_factorized empty_cache [1] 1 = (Ok phi, c') ∧
    geodesic_distance offset_triangle (λ _, Raise RuntimeError) c' [1] 1 = (Ok phi, c').
Proof.
  destruct offset_triangle_returns as (phi & c' & Hcall).
  exists phi, c'. split; [exact Hcall|].
  destruct (geodesic_distance_reuses_factorization offset_triangle stub_factorized
              empty_cache [1] 1 phi c' Hcall (λ _, Raise RuntimeError) [1])
    as (r & Hr & Hsame).
  rewrite Hr. f_equal. by apply Hsame.
Defined.

Lemma geodesic_distance_bad_source_witness :
  ∃ lfac nLC goodrows,
    heat_system offset_triangle 1 = Ok (lfac, nLC, goodrows) ∧
    geodesic_distance offset_triangle stub_factorized empty_cache [7] 1
      = (Raise IndexError, mkCache [(1%R, identity_handle)] [(1%R, identity_handle)]).
Proof.
  destruct (heat_system_Ok offset_triangle 1 offset_triangle_well_formed)
    as (lfac & nLC & goodrows & Hsys).
  exists lfac, nLC, goodrows. split; [exact Hsys|].
  apply (geodesic_distance_bad_source offset_triangle stub_factorized empty_cache [7] 1
           lfac nLC goodrows identity_handle identity_handle Hsys eq_refl eq_refl eq_refl eq_refl).
  intros H. apply Forall_cons in H as [H _]. simpl in H. lia.
Defined.

(** ** [Surface.extract_chunk] with any target *)

Section bfs_any_facts.
Context (self : Surface) (seed nfaces : nat) (Hwf : well_formed self).

(** Whatever the target, the loop ends within its fuel; it has collected
    only faces that can be reached, and it stops short of the target only
    when it has collected them all. *)
Lemma bfs_any : ∀ fuel q F V,
  bfs_inv self seed q F V →
  (∀ v, v ∈ V → v ∈ q ∨ processed self F v) →
  length q + (length (pts self) - size V) < fuel →
  ∃ F', bfs self fuel nfaces q F V = Some (Ok F') ∧
        (∀ f, f ∈ F' → face_reached self seed f) ∧
        (nfaces ≤ size F' ∨ ∀ f, face_reached self seed f → f ∈ F').
Proof.
  induction fuel as [|fuel IH]; intros q F V Hinv Hdone Hfuel; [lia|].
  cbn [bfs]. destruct (decide (size F < nfaces)) as [Hsize|Hsize].
  - destruct q as [|node q].
    + exists F. split_and!; [done| |].
      * intros f. by eapply collected_reached.
      * right. intros f. apply closed_reached with V; [done|]. intros v Hv.
        destruct (Hdone v Hv) as [?%elem_of_nil|?]; done.
    + pose proof Hinv as [Hseed Hr HF Hnd Hq].
      assert (node ∈ V) as HnodeV by (apply Hq; by left).
      destruct (Hr node HnodeV) as [Hreach Hlt].
      rewrite (connected_Ok self Hwf). cbn [mbind res_bind].
      fold (conn_rows self). unfold getitem. rewrite conn_rows_lookup by done.
      destruct (visit_faces_inv self seed Hwf node (indices (connected_row self node))
                  q F V) as (q' & F' & V' & Hvisit & Hinv' & Hg & HF').
      { intros f Hf. by apply elem_of_indices_row. }
      { done. }
      { apply NoDup_cons in Hnd as [_ Hnd]. split; try done.
        intros v Hv. apply Hq. by right. }
      rewrite Hvisit.
      apply IH; [done| |].
      * intros v Hv. pose proof Hg as (new & -> & _ & _ & ->).
        apply elem_of_union in Hv as [Hv|Hv].
        -- destruct (Hdone v Hv) as [[->|Hin]%elem_of_cons|Hp].
           ++ right. intros f p Hp Hvp. rewrite HF'. apply elem_of_union. right.
              apply elem_of_list_to_set, elem_of_indices_row. by exists p.
           ++ left. apply elem_of_app. by left.
           ++ right. intros f p Hfp Hvp. rewrite HF'. apply elem_of_union. left.
              by eapply Hp.
        -- left. apply elem_of_app. right. by apply elem_of_list_to_set in Hv.
      * destruct (grows_size _ _ _ _ Hg) as [Hlen Hle].
        assert (size V' ≤ length (pts self)) as Hbound.
        { apply size_in_range. intros v Hv. by apply (inv_reach _ _ _ _ _ Hinv'). }
        simpl in Hfuel. lia.
  - exists F. split_and!; [done| |left; lia].
    intros f. by eapply collected_reached.
Qed.

End bfs_any_facts.

Lemma renumbered_face_indices self order f row :
  renumbered_face self order f row →
  length row = 3 ∧ Forall (λ k, k < length order) row.
Proof.
  intros (p & _ & Hrow). split.
  - apply Forall2_length in Hrow. rewrite <- Hrow. by destruct p as [[a b] c].
  - apply Forall_forall. intros k Hk.
    apply list_elem_of_lookup in Hk as [i Hi].
    destruct (Forall2_lookup_r _ _ _ _ _ Hrow Hi) as (v & _ & Hv).
    by eapply lookup_lt_Some.
Qed.

(** X8.  Whatever the target [nfaces]: from a start vertex inside a well-formed
    mesh [extract_chunk] returns a mesh of its own.  Its faces are faces that
    can be reached from the start vertex, each once and with its corners
    renumbered to positions in the new point array; there are at least
    [nfaces] of them, or else they are all the faces that can be reached. *)
Theorem extract_chunk_submesh self set_iter nfaces seed rnd auxpts :
  set_order_spec set_iter → well_formed self →
  start_node self seed rnd < length (pts self) →
  (∀ a, auxpts = Some a → length (pts self) ≤ length a) →
  ∃ faces order new_pts new_aux new_polys,
    extract_chunk self set_iter nfaces seed rnd auxpts
      = Some (Ok (new_pts, new_aux, new_polys)) ∧
    NoDup faces ∧
    (∀ f, f ∈ faces → face_reached self (start_node self seed rnd) f) ∧
    (nfaces ≤ length faces ∨
     ∀ f, face_reached self (start_node self seed rnd) f → f ∈ faces) ∧
    Forall2 (λ v p, pts self !! v = Some p) order new_pts ∧
    Forall2 (renumbered_face self order) faces new_polys ∧
    Forall (λ row, length row = 3 ∧ Forall (λ k, k < length new_pts) row) new_polys.
Proof.
  intros Hiter Hwf Hstart Haux. unfold extract_chunk.
  set (node := start_node self seed rnd) in *.
  assert (match seed with
          | Some s => Ok s
          | None => if decide (length (pts self) = 0) then Raise ValueError
                    else Ok (rnd `mod` length (pts self))
          end = Ok node) as ->.
  { subst node. unfold start_node in *. destruct seed as [s|]; [done|]. simpl in *.
    rewrite decide_False by lia. done. }
  destruct (bfs_any self node nfaces Hwf (S (length (pts self))) [node] ∅ {[node]})
    as (F & -> & Hreached & Hmany).
  { split.
    - by apply elem_of_singleton.
    - intros v ->%elem_of_singleton. split; [apply rtc_refl|done].
    - by intros f ?%not_elem_of_empty.
    - apply NoDup_singleton.
    - intros v ->%list_elem_of_singleton. by apply elem_of_singleton. }
  { intros v ->%elem_of_singleton. left. by apply list_elem_of_singleton. }
  { rewrite size_singleton. simpl. lia. }
  cbn [mbind option_bind res_bind].
  assert (∀ f, f ∈ set_iter F ↔ f ∈ F) as Hfaces.
  { intros f. by rewrite (Hiter F), elem_of_elements. }
  destruct (number_faces_spec self auxpts Haux Hwf (set_iter F) []
              (mkChunk ∅ [] [] []) (renumbered_init self auxpts))
    as (st & order & rows & -> & Hren & _ & Horder & Hrows & Hall).
  { apply Forall_forall. intros f Hf%Hfaces%Hreached. by eapply face_reached_lt. }
  cbn [mbind res_bind new_polys app] in *.
  exists (set_iter F), order, (new_pts st), ((λ _, new_aux st) <$> auxpts), rows.
  rewrite Hrows.
  pose proof (ren_pts _ _ _ _ Hren) as Hpts.
  split_and!; try done.
  - rewrite (Hiter F). apply NoDup_elements.
  - intros f Hf%Hfaces. by apply Hreached.
  - rewrite (Hiter F). change (length (elements F)) with (size F). destruct Hmany as [?|Hall']; [by left|].
    right. intros f Hf. by apply Hfaces, Hall'.
  - apply Forall_forall. intros row Hrow.
    apply list_elem_of_lookup in Hrow as [i Hi].
    destruct (Forall2_lookup_r _ _ _ _ _ Hall Hi) as (f & _ & Hf).
    apply renumbered_face_indices in Hf. by rewrite <- (Forall2_length _ _ _ Hpts).
Qed.

Lemma extract_chunk_submesh_witness :
  set_order_spec elements ∧ well_formed offset_triangle ∧
  ∃ faces order new_pts new_aux new_polys,
    extract_chunk offset_triangle elements 0 (Some 1) 0 None
      = Some (Ok (new_pts, new_aux, new_polys)) ∧
    NoDup faces ∧
    Forall2 (renumbered_face offset_triangle order) faces new_polys ∧
    Forall (λ row, length row = 3 ∧ Forall (λ k, k < length new_pts) row) new_polys.
Proof.
  split; [exact elements_order_spec|]. split; [exact offset_triangle_well_formed|].
  destruct (extract_chunk_submesh offset_triangle elements 0 (Some 1) 0 None
              elements_order_spec offset_triangle_well_formed
              ltac:(simpl; lia) ltac:(by intros a [=]))
    as (faces & order & new_pts & new_aux & new_polys & Hcall & Hnd & _ & _ & _ & Hrows & Hidx).
  exists faces, order, new_pts, new_aux, new_polys. done.
Defined.

(** X9.  Two ends of the range of arguments.  A target of no faces gives the
    empty mesh without looking at the seed; with a positive target a seed
    beyond the last vertex of a well-formed mesh raises [IndexError]. *)
Theorem extract_chunk_edge_cases self set_iter nfaces s rnd auxpts :
  set_order_spec set_iter →
  extract_chunk self set_iter 0 (Some s) rnd auxpts
    = Some (Ok ([], (λ _, []) <$> auxpts, [])) ∧
  (0 < nfaces → well_formed self → length (pts self) ≤ s →
   extract_chunk self set_iter nfaces (Some s) rnd auxpts = Some (Raise IndexError)).
Proof.
  intros Hiter. split.
  - unfold extract_chunk. cbn [bfs]. rewrite decide_False by lia.
    cbn [mbind option_bind res_bind].
    assert (set_iter ∅ = []) as ->.
    { apply Permutation_nil_r. by rewrite (Hiter ∅), elements_empty. }
    done.
  - intros Hn Hwf Hs. unfold extract_chunk. cbn [bfs].
    rewrite size_empty, decide_True by done. rewrite (connected_Ok self Hwf).
    cbn [mbind res_bind]. unfold getitem. rewrite lookup_ge_None_2; [done|].
    by rewrite length_map, length_seq.
Qed.

Lemma extract_chunk_edge_cases_witness :
  set_order_spec elements ∧
  extract_chunk offset_triangle elements 0 (Some 9) 0 None = Some (Ok ([], None, [])) ∧
  extract_chunk offset_triangle elements 5 (Some 9) 0 None = Some (Raise IndexError).
Proof.
  split; [exact elements_order_spec|].
  destruct (extract_chunk_edge_cases offset_triangle elements 5 9 0 None elements_order_spec)
    as [Hzero Hbad].
  split; [exact Hzero|].
  apply Hbad; [lia|exact offset_triangle_well_formed|simpl; lia].
Defined.

(** ** [Surface.patches] with granularity 1: whole faces *)

Lemma run_gen_Ok {A B} (f : A → res B) (P : A → B → Prop) (l : list A) :
  Forall (λ x, ∃ y, f x = Ok y ∧ P x y) l →
  ∃ ys, run_gen f l = mkGen ys None ∧ Forall2 P l ys.
Proof.
  induction 1 as [|x l (y & Hy & HP) _ (ys & IH & Hall)].
  - exists []. split; [done|constructor].
  - exists (y :: ys). cbn [run_gen]. rewrite Hy, IH. split; [done|by constructor].
Qed.

Lemma traverse_getitem_elems {A} (l : list A) (idx : list nat) :
  Forall (λ i, i < length l) idx →
  ∃ r, traverse (getitem l) idx = Ok r ∧ Forall (λ x, x ∈ l) r.
Proof.
  induction 1 as [|i idx Hi _ (r & IH & Hall)].
  - exists []. split; [done|constructor].
  - destruct (getitem_lt l i Hi) as [x Hx]. exists (x :: r).
    cbn [traverse]. rewrite Hx. cbn [mbind res_bind]. rewrite IH.
    split; [done|]. constructor; [|done].
    apply getitem_Ok in Hx. by eapply list_elem_of_lookup_2.
Qed.

Lemma patch_at_whole_faces self v :
  well_formed self →
  ∃ item, patch_at self None 1 v (indices (connected_row self v)) = Ok item ∧
          whole_faces self v item.
Proof.
  intros Hwf. unfold whole_faces, patch_at.
  assert (Forall (λ f, f < length (polys self)) (indices (connected_row self v))) as Hfs.
  { apply Forall_forall. intros f (p & Hp & _)%elem_of_indices_row. by eapply lookup_lt_Some. }
  destruct (indices (connected_row self v)) as [|f fs]; [by exists None|].
  destruct (traverse_getitem_elems (polys self) (f :: fs) Hfs) as (ps & Hps & Hin).
  destruct (take_faces_Ok (pts self) ps) as [t Ht].
  { eapply Forall_impl; [exact Hin|]. intros p Hp. simpl.
    unfold well_formed in Hwf. by eapply Forall_forall in Hwf. }
  exists (Some (Tris t)). change (Qeq_bool 1 1) with true. cbv iota.
  rewrite Hps. cbn [mbind res_bind]. rewrite Ht. split; [done|]. by exists ps, t.
Qed.

(** X12.  With granularity 1 and no auxiliary points, [patches] on a well-formed
    mesh runs to its end without an exception and yields one item for each
    vertex: nothing for a vertex on no face, and otherwise the triangles of
    all the faces around the vertex. *)
Theorem patches_whole_faces self :
  well_formed self →
  ∃ items, patches self None 1 = mkGen items None ∧
           length items = length (pts self) ∧
           ∀ v item, items !! v = Some item → whole_faces self v item.
Proof.
  intros Hwf. unfold patches. rewrite (connected_Ok self Hwf).
  set (conn := map (connected_row self) (seq 0 (length (pts self)))).
  assert (∀ v pr, imap pair conn !! v = Some pr → pr = (v, connected_row self v)) as Hrows.
  { intros v pr. rewrite list_lookup_imap. subst conn. rewrite list_lookup_fmap.
    destruct (seq 0 (length (pts self)) !! v) as [v'|] eqn:Hv; [|done].
    apply lookup_seq in Hv as [-> _]. by intros [= <-]. }
  destruct (run_gen_Ok (λ pr : nat * list (nat * nat), patch_at self None 1 pr.1 (indices pr.2))
              (λ pr item, whole_faces self pr.1 item) (imap pair conn))
    as (items & Hrun & Hall).
  { apply Forall_forall. intros pr [v Hv]%list_elem_of_lookup.
    rewrite (Hrows v pr Hv). cbn [fst snd]. by apply patch_at_whole_faces. }
  exists items. split; [done|]. split.
  - rewrite <- (Forall2_length _ _ _ Hall), length_imap. subst conn.
    by rewrite length_map, length_seq.
  - intros v item Hitem.
    destruct (Forall2_lookup_r _ _ _ _ _ Hall Hitem) as (pr & Hpr & Hwhole).
    by rewrite (Hrows v pr Hpr) in Hwhole.
Qed.

Lemma patches_whole_faces_witness :
  well_formed offset_triangle ∧
  ∃ items, patches offset_triangle None 1 = mkGen items None ∧ length items = 4.
Proof.
  split; [exact offset_triangle_well_formed|].
  destruct (patches_whole_faces offset_triangle offset_triangle_well_formed)
    as (items & Hrun & Hlen & _).
  exists items. split; [exact Hrun|exact Hlen].
Defined.

(** ** [trace_poly] on edges that do not close *)

(** X27.  Without edges [trace_poly] yields nothing.  On one edge with two
    different ends it yields nothing either: the walk from the second end
    finds no edge to go on with, and [list(...)[0]] raises [IndexError]. *)
Theorem trace_poly_open_edge set_iter set_pop a b :
  set_order_spec set_iter → set_pop_spec set_pop → a ≠ b →
  trace_poly set_iter set_pop [] = Some (mkGen [] None) ∧
  trace_poly set_iter set_pop [(a, b)] = Some (mkGen [] (Some IndexError)).
Proof.
  intros Hiter Hpop Hab. split; [done|].
  unfold trace_poly. cbn [length seq list_to_set foldr trace].
  assert (({[0]} ∪ ∅ : gset nat) = {[0]}) as -> by set_solver.
  rewrite size_singleton, decide_True by lia.
  assert (set_pop {[0]} = 0) as ->.
  { assert (set_pop {[0]} ∈ ({[0]} : gset nat)) as H by (apply Hpop; set_solver).
    by apply elem_of_singleton in H. }
  cbn [lookup list_lookup walk head last]. rewrite decide_True by (left; congruence).
  destruct (edge_index_spec [(a, b)] b 0 (a, b) eq_refl) as (X & -> & HX); [by right|].
  assert (X ∖ {[0]} = ∅) as ->.
  { apply set_eq. intros j. rewrite elem_of_difference, elem_of_singleton, HX.
    split; [|by intros ?%not_elem_of_empty].
    intros [(e & He & _) Hj]. destruct j; [done|]. by destruct j. }
  assert (set_iter ∅ = []) as ->.
  { apply Permutation_nil_r. by rewrite (Hiter ∅), elements_empty. }
  done.
Qed.

Lemma trace_poly_open_edge_witness :
  set_order_spec elements ∧ set_pop_spec first_element ∧
  trace_poly elements first_element [(3, 8)] = Some (mkGen [] (Some IndexError)).
Proof.
  split; [exact elements_order_spec|]. split; [exact first_element_spec|].
  exact (proj2 (trace_poly_open_edge elements first_element 3 8
                  elements_order_spec first_element_spec ltac:(lia))).
Defined.

(** ** [Distortion.areal]: when it returns *)

(** X16.  With the faces in range of both embeddings, [areal] returns when
    [np.bincount] is as long as the reference embedding, that is when the
    last vertex is a corner of a face; what it returns then has one value for
    each vertex, none of them 0 or [nan].  When [np.bincount] has another
    length, and not length one, the division raises [ValueError]. *)
Theorem areal_returns (flat ref : list vec3) polys :
  Forall (face_in_range (length ref)) polys →
  Forall (face_in_range (length flat)) polys →
  (length (Distortion.bincount polys) = length ref →
   ∃ v, Distortion.areal (Distortion.mk flat ref polys) = Ok v ∧
        length v = length ref ∧ Forall (λ x, x ≠ F.zero ∧ x ≠ NaN) v) ∧
  (length (Distortion.bincount polys) ≠ length ref →
   length (Distortion.bincount polys) ≠ 1 →
   Distortion.areal (Distortion.mk flat ref polys) = Raise ValueError).
Proof.
  intros Hr Hf.
  destruct (area_Ok ref polys Hr) as [ra Hra]. destruct (area_Ok flat polys Hf) as [fa Hfa].
  split.
  - intros Hbin.
    assert (∃ v, Distortion.areal (Distortion.mk flat ref polys) = Ok v ∧ length v = length ref)
      as (v & Hv & Hlen).
    { unfold Distortion.areal. cbn [Distortion.ref Distortion.flat Distortion.polys].
      rewrite Hra, Hfa. cbn [mbind res_bind]. unfold Distortion.idiv.
      rewrite length_vertsums. cbn [Distortion.ref]. rewrite decide_True by done.
      cbn [mbind res_bind]. eexists. split; [reflexivity|].
      rewrite !length_map, length_zip_with, length_vertsums. cbn [Distortion.ref]. lia. }
    exists v. split_and!; [done|done|]. by eapply areal_never_zero.
  - intros Hbin H1.
    by eapply areal_shape_error; cbn [Distortion.ref Distortion.flat Distortion.polys].
Qed.

Lemma areal_returns_witness :
  Forall (face_in_range 3) [(0, 1, 2)] ∧
  ∃ v, Distortion.areal (Distortion.mk (pts unit_triangle) (pts unit_triangle) [(0, 1, 2)])
         = Ok v ∧
       length v = 3 ∧ Forall (λ x, x ≠ F.zero ∧ x ≠ NaN) v.
Proof.
  assert (Forall (face_in_range 3) [(0, 1, 2)]) as Hr by (repeat constructor; simpl; lia).
  split; [exact Hr|].
  exact (proj1 (areal_returns (pts unit_triangle) (pts unit_triangle) [(0, 1, 2)] Hr Hr)
           eq_refl).
Defined.

(** X17.  Identical embeddings, with the faces in range and the last vertex a
    corner of a face: [areal] returns 1 at every vertex. *)
Theorem areal_identical_all_used (pts : list vec3) polys :
  Forall (face_in_range (length pts)) polys →
  length (Distortion.bincount polys) = length pts →
  Distortion.areal (Distortion.mk pts pts polys) = Ok (replicate (length pts) F.one).
Proof.
  intros Hr Hbin.
  destruct (area_Ok pts polys Hr) as [ra Hra].
  assert (∃ v, Distortion.areal (Distortion.mk pts pts polys) = Ok v) as [v Hv].
  { unfold Distortion.areal. cbn [Distortion.ref Distortion.flat Distortion.polys].
    rewrite Hra. cbn [mbind res_bind]. unfold Distortion.idiv.
    rewrite length_vertsums. cbn [Distortion.ref]. rewrite decide_True by done.
    cbn [mbind res_bind]. by eexists. }
  rewrite Hv. f_equal. destruct (areal_identical pts polys v Hv) as [Hlen Hall].
  rewrite <- Hlen. clear -Hall. induction Hall as [|x v -> _ IH]; [done|].
  cbn [length replicate]. by rewrite <- IH.
Qed.

Lemma areal_identical_all_used_witness :
  Forall (face_in_range 3) [(0, 1, 2)] ∧
  Distortion.areal (Distortion.mk (pts unit_triangle) (pts unit_triangle) [(0, 1, 2)])
    = Ok [F.one; F.one; F.one].
Proof.
  assert (Forall (face_in_range 3) [(0, 1, 2)]) as Hr by (repeat constructor; simpl; lia).
  split; [exact Hr|].
  exact (areal_identical_all_used (pts unit_triangle) [(0, 1, 2)] Hr eq_refl).
Defined.

(** ** [Surface.geodesic_distance]: nothing below zero *)

Lemma ltb_false_trans a b c :
  a ≠ NaN → b ≠ NaN → c ≠ NaN →
  F.ltb b c = false → F.ltb a b = false → F.ltb a c = false.
Proof.
  destruct a, b, c; simpl; try done;
    repeat (destruct (Rlt_dec _ _)); try done; intros; lra.
Qed.

Lemma min2_lower x y :
  F.min2 x y ≠ NaN →
  x ≠ NaN ∧ y ≠ NaN ∧ F.ltb x (F.min2 x y) = false ∧ F.ltb y (F.min2 x y) = false.
Proof.
  destruct x, y; simpl; try done;
    repeat (destruct (Rlt_dec _ _); simpl); try done;
    intros; split_and!; try done; try lra;
    simpl; repeat (destruct (Rlt_dec _ _)); try done; lra.
Qed.

Lemma foldl_min2_lower l : ∀ x0,
  foldl F.min2 x0 l ≠ NaN →
  Forall (λ x, x ≠ NaN ∧ F.ltb x (foldl F.min2 x0 l) = false) (x0 :: l).
Proof.
  induction l as [|y l IH]; intros x0 Hlo.
  - cbn [foldl] in *. constructor; [|constructor]. split; [done|].
    destruct x0; simpl; try done. by destruct (Rlt_dec r r) as [?%Rlt_irrefl|].
  - cbn [foldl] in *. specialize (IH _ Hlo).
    apply Forall_cons in IH as [[Hm Hmlo] IH].
    destruct (min2_lower x0 y Hm) as (Hx0 & Hy & Hx0m & Hym).
    constructor; [|constructor; [|done]].
    + split; [done|]. by apply (ltb_false_trans x0 (F.min2 x0 y)).
    + split; [done|]. by apply (ltb_false_trans y (F.min2 x0 y)).
Qed.

Lemma sub_min_not_negative x lo :
  lo = NaN ∨ (x ≠ NaN ∧ F.ltb x lo = false) → ¬ negative (F.sub x lo).
Proof.
  unfold negative. intros [->|[Hx Hlt]].
  - destruct x; simpl; intros [?|(r' & ? & _)]; done.
  - destruct x, lo; simpl in *; try done;
      try (intros [?|(r' & ? & _)]; done).
    destruct (Rlt_dec r r0); [done|].
    intros [?|(r' & [= <-] & Hneg)]; [done|]. lra.
Qed.

Lemma min_not_negative l lo :
  F.min l = Ok lo → Forall (λ x, ¬ negative (F.sub x lo)) l.
Proof.
  destruct l as [|x0 l]; [done|]. intros [= <-].
  assert (foldl F.min2 x0 l = NaN ∨ foldl F.min2 x0 l ≠ NaN) as [Hnan|Hlo]
    by (destruct (foldl F.min2 x0 l); auto).
  - rewrite Hnan. apply Forall_forall. intros x _. apply sub_min_not_negative. by left.
  - eapply Forall_impl; [exact (foldl_min2_lower l x0 Hlo)|].
    intros x Hx. apply sub_min_not_negative. by right.
Qed.

(** X5.  Whatever the solver does, a call that returns does not return a
    negative distance: the smallest solved value is taken off every solved
    value, and the rows left out are zero. *)
Theorem geodesic_distance_never_negative self factorized c verts m phi c' :
  geodesic_distance self factorized c verts m = (Ok phi, c') →
  length phi = length (pts self) ∧ Forall (λ x, ¬ negative x) phi.
Proof.
  intros (lfac & nLC & goodrows & h1 & h2 & _ & _ & _ & H)%geodesic_distance_cached.
  split; [by apply heat_solve_excluded in H as (_ & ? & _)|].
  unfold heat_solve in H.
  apply bind_Ok in H as (u0 & _ & H). apply bind_Ok in H as (u & _ & H).
  apply bind_Ok in H as (pp & _ & H). apply bind_Ok in H as (fnorms & _ & H).
  apply bind_Ok in H as (areas & _ & H). apply bind_Ok in H as (pu & _ & H).
  apply bind_Ok in H as ([[c1 c2] c3] & _ & H).
  destruct (decide (length (pts self) = 1)); [done|].
  apply bind_Ok in H as (lo & Hlo & H).
  eapply put_rows_Forall; [exact H| |].
  - unfold negative, F.zero. intros [?|(r & [= <-] & Hr)]; [done|lra].
  - apply Forall_fmap. by apply min_not_negative.
Qed.

Lemma geodesic_distance_never_negative_witness :
  ∃ phi c',
    geodesic_distance offset_triangle stub_factorized empty_cache [1] 1 = (Ok phi, c') ∧
    length phi = 4 ∧ Forall (λ x, ¬ negative x) phi.
Proof.
  destruct offset_triangle_returns as (phi & c' & Hcall).
  exists phi, c'. split; [exact Hcall|].
  exact (geodesic_distance_never_negative offset_triangle stub_factorized empty_cache
           [1] 1 phi c' Hcall).
Defined.

(** ** [Surface.laplace_operator]: the lumped mass *)

Lemma take_faces_finite pts polys : ∀ pp,
  take_faces pts polys = Ok pp → Forall vec_finite pts →
  Forall (λ t : tri3, vec_finite t.1.1 ∧ vec_finite t.1.2 ∧ vec_finite t.2) pp.
Proof.
  unfold take_faces. induction polys as [|[[a b] c] polys IH]; intros pp Hpp Hfin.
  - injection Hpp as <-. constructor.
  - cbn [traverse] in Hpp. apply bind_Ok in Hpp as (t & Ht & Hpp).
    apply bind_Ok in Hpp as (ts & Hts & [= <-]).
    apply bind_Ok in Ht as (pa & Ha%getitem_Ok & Ht).
    apply bind_Ok in Ht as (pb & Hb%getitem_Ok & Ht).
    apply bind_Ok in Ht as (pc & Hc%getitem_Ok & [= <-]).
    constructor; [|by apply IH]. cbn [fst snd].
    split_and!; by eapply (Forall_lookup_1 vec_finite).
Qed.

Lemma cross_finite a b : vec_finite a → vec_finite b → vec_finite (cross a b).
Proof.
  destruct a as [[a1 a2] a3], b as [[b1 b2] b3]. unfold vec_finite. cbn [fst snd].
  intros ([? ->] & [? ->] & [? ->]) ([? ->] & [? ->] & [? ->]).
  cbn [cross fst snd]. split_and!; by eexists.
Qed.

Lemma magnitude_nonneg v : vec_finite v → nonneg (magnitude v).
Proof.
  destruct v as [[x y] z]. unfold vec_finite. cbn [fst snd].
  intros ([a ->] & [b ->] & [c ->]).
  unfold magnitude, sumsq, F.sq. cbn [F.mul F.add]. unfold F.sqrt.
  destruct (Rlt_dec _ 0) as [Hlt|_]; [nra|].
  eexists. split; [reflexivity|]. apply sqrt_pos.
Qed.

Lemma row_dot_nonneg areas row : Forall nonneg areas → nonneg (row_dot areas row).
Proof.
  intros Hall. unfold row_dot. induction row as [|[f k] row IH].
  - exists 0%R. split; [done|lra].
  - cbn [map]. rewrite sum_cons. apply nonneg_add; [|done]. cbn [fst snd].
    assert (nonneg (default F.zero (areas !! f))) as (r & -> & Hr).
    { destruct (areas !! f) as [x|] eqn:Hx; cbn [default].
      - by eapply (Forall_lookup_1 nonneg).
      - exists 0%R. split; [done|lra]. }
    unfold F.of_nat. cbn [F.mul]. eexists. split; [reflexivity|].
    apply Rmult_le_pos; [apply pos_INR|done].
Qed.

(** X4.  On a well-formed mesh with finite coordinates the lumped mass [D] has
    one entry for each vertex, none negative, and the entry of a vertex
    that no face holds is zero. *)
Theorem laplace_mass_nonneg self :
  well_formed self → Forall vec_finite (pts self) →
  ∃ D W V, laplace_operator self = Ok (D, W, V) ∧
           length D = length (pts self) ∧ Forall nonneg D ∧
           ∀ v, v < length (pts self) →
                (∀ f p, polys self !! f = Some p → v ∉ face_verts p) →
                D !! v = Some F.zero.
Proof.
  intros Hwf Hfin. destruct (ppts_Ok self Hwf) as [pp Hpp].
  pose proof (take_faces_finite _ _ _ Hpp Hfin) as Hppfin.
  unfold laplace_operator, cotangent_weights.
  rewrite (connected_Ok self Hwf), (face_areas_Ok self pp Hpp), Hpp.
  cbn [mbind res_bind]. do 3 eexists. split; [reflexivity|].
  set (areas := map _ pp).
  assert (Forall nonneg areas) as Hareas.
  { subst areas. apply Forall_fmap. eapply Forall_impl; [exact Hppfin|].
    intros [[p0 p1] p2] (H0 & H1 & H2). cbn [fst snd] in *.
    apply magnitude_nonneg, cross_finite; by apply vsub_finite. }
  split_and!.
  - by rewrite !length_map, length_seq.
  - apply Forall_fmap, Forall_fmap, Forall_forall. intros v _. simpl.
    destruct (row_dot_nonneg areas (connected_row self v) Hareas) as (r & -> & Hr).
    rewrite (div_fin_eq r 3 (r / 3)) by lra. eexists. split; [reflexivity|]. lra.
  - intros v Hv Hnone. rewrite list_lookup_fmap, list_lookup_fmap, lookup_seq_lt by done.
    cbn [fmap option_fmap option_map Nat.add]. rewrite (connected_row_nil self v Hnone).
    unfold row_dot. cbn [map F.sum foldr]. f_equal. apply div_zero_fin. lra.
Qed.

Lemma laplace_mass_nonneg_witness :
  well_formed offset_triangle ∧ Forall vec_finite (pts offset_triangle) ∧
  ∃ D W V, laplace_operator offset_triangle = Ok (D, W, V) ∧
           length D = 4 ∧ Forall nonneg D ∧ D !! 0 = Some F.zero.
Proof.
  assert (Forall vec_finite (pts offset_triangle)) as Hfin.
  { repeat constructor; eexists; reflexivity. }
  split; [exact offset_triangle_well_formed|]. split; [exact Hfin|].
  destruct (laplace_mass_nonneg offset_triangle offset_triangle_well_formed Hfin)
    as (D & W & V & HL & Hlen & Hnn & Hz).
  exists D, W, V. split; [exact HL|]. split; [exact Hlen|]. split; [exact Hnn|].
  apply Hz; [simpl; lia|].
  intros f p Hp. destruct f as [|f]; [|done]. injection Hp as <-.
  cbn [face_verts]. set_solver.
Defined.

(** ** [Surface.ppts]: indexing the points by the faces *)

Lemma take_faces_points pts polys : ∀ pp,
  take_faces pts polys = Ok pp →
  Forall2 (λ (p : face) (t : tri3),
             pts !! p.1.1 = Some t.1.1 ∧ pts !! p.1.2 = Some t.1.2 ∧ pts !! p.2 = Some t.2)
          polys pp.
Proof.
  unfold take_faces. induction polys as [|[[a b] c] polys IH]; intros pp Hpp.
  - injection Hpp as <-. constructor.
  - cbn [traverse] in Hpp. apply bind_Ok in Hpp as (t & Ht & Hpp).
    apply bind_Ok in Hpp as (ts & Hts & [= <-]).
    apply bind_Ok in Ht as (pa & Ha%getitem_Ok & Ht).
    apply bind_Ok in Ht as (pb & Hb%getitem_Ok & Ht).
    apply bind_Ok in Ht as (pc & Hc%getitem_Ok & [= <-]).
    constructor; [done|by apply IH].
Qed.

Lemma getitem_raises {A} (l : list A) i e : getitem l i = Raise e → e = IndexError.
Proof. unfold getitem. destruct (l !! i); congruence. Qed.

Lemma take_faces_raises pts polys e : take_faces pts polys = Raise e → e = IndexError.
Proof.
  unfold take_faces. induction polys as [|[[a b] c] polys IH]; [done|].
  cbn [traverse].
  destruct (getitem pts a) as [pa|e1] eqn:Ha; cbn [mbind res_bind];
    [|intros [= <-]; by eapply getitem_raises].
  destruct (getitem pts b) as [pb|e2] eqn:Hb; cbn [mbind res_bind];
    [|intros [= <-]; by eapply getitem_raises].
  destruct (getitem pts c) as [pc|e3] eqn:Hc; cbn [mbind res_bind];
    [|intros [= <-]; by eapply getitem_raises].
  destruct (traverse _ polys) as [ts|e'] eqn:Hts; [done|].
  cbn [mbind res_bind]. intros [= <-]. by apply IH.
Qed.

(** X28.  [ppts] returns exactly on the well-formed meshes: there it gives for
    every face the three points its corners name, and on any other mesh the
    indexing raises [IndexError]. *)
Theorem ppts_in_range self :
  (well_formed self →
   ∃ pp, ppts self = Ok pp ∧
         Forall2 (λ (p : face) (t : tri3),
                    pts self !! p.1.1 = Some t.1.1 ∧ pts self !! p.1.2 = Some t.1.2 ∧
                    pts self !! p.2 = Some t.2)
                 (polys self) pp) ∧
  (¬ well_formed self → ppts self = Raise IndexError).
Proof.
  split.
  - intros [pp Hpp]%ppts_Ok. exists pp. split; [done|]. by apply take_faces_points.
  - intros Hwf. destruct (ppts self) as [pp|e] eqn:Hpp.
    + by apply ppts_well_formed in Hpp.
    + f_equal. by eapply take_faces_raises.
Qed.

(** ** [face_area]: triangles without area *)





